(** * FusionSDF: a shallow embedding of the exporter and the properties of its specification

    The development follows the Python package [fusionsdf]:
    - [Transform] ([transform.py]): homogeneous 4x4 transforms;
    - [Util] ([util.py]): name normalisation, roll-pitch-yaw extraction from a
      CAD matrix, unit conversion, parallel-axis shift;
    - [Xml], [Pose] ([pose.py]): poses and their serialisation;
    - [Joint], [Link] ([joint.py], [link.py]): the entity records;
    - [SDF] ([sdf.py]): the kinematic tree builder.

    Conventions of the embedding.
    - A Python [float] is a real number: arithmetic is exact, [math.sqrt],
      [math.sin], [math.cos] are the functions of the Reals library,
      [math.atan2] and [math.asin] are defined from [atan] and [asin] below
      (there is no signed zero, no infinity and no rounding).  In binary64
      the rotation block that [set_rotation_rpy] builds, and the products and
      inverses of such blocks, are orthonormal up to rounding only: an entry
      can leave [[-1, 1]] by one unit in the last place, and then
      [math.asin] raises in [get_rotation_rpy] where the exact arithmetic
      returns.  The properties on [Pose.inverse], [Pose.__mul__] and the
      functions that call them are therefore stated for the calls that
      return.
    - A Python [str] is a [string] holding its UTF-8 encoding.  The characters
      of [[a-z0-9_]] are single bytes and every byte of another character is
      outside that class, so the regular expression and [strip] of
      [normalize_name] act on the bytes as they do on the code points;
      [str.lower] is a parameter of the development.
    - A three-element list [[x, y, z]] is a triple [vec3]; a matrix is a list
      of rows.  [cell] reads a matrix with default [0] where Python raises
      [IndexError]; the properties are stated for matrices of the shape the
      program builds.
    - A [dict] is a [gmap], a [set] a [gset]; an exception is [None] in
      [option]. *)

From Stdlib Require Import Reals Lra Lia List String Ascii RNsatz.
From stdpp Require Import gmap strings.
Import ListNotations.
Set Warnings "-register-all".

(** ** transform.py *)

Module Transform.
Local Open Scope R_scope.

Definition vec3 : Type := R * R * R.

Definition vec3_list (v : vec3) : list R :=
  let '(x, y, z) := v in [x; y; z].

(** [A[i][j]] *)
Definition cell (A : list (list R)) (i j : nat) : R :=
  nth j (nth i A []) 0.

(** [sum(...)]: a left fold that starts from [0]. *)
Definition py_sum (l : list R) : R := fold_left Rplus l 0.

(** [math.atan2(y, x)] *)
Definition atan2 (y x : R) : R :=
  if Rlt_dec 0 x then atan (y / x)
  else if Rlt_dec x 0 then
    if Rle_dec 0 y then atan (y / x) + PI else atan (y / x) - PI
  else if Rlt_dec 0 y then PI / 2
  else if Rlt_dec y 0 then - (PI / 2)
  else 0.

(** [math.asin(x)]: [ValueError] outside [[-1, 1]]. *)
Definition py_asin (x : R) : option R :=
  if Rle_dec (-1) x then if Rle_dec x 1 then Some (asin x) else None else None.

(** [math.isclose(a, b, abs_tol=abs_tol)], with the default [rel_tol] of 1e-9. *)
Definition isclose (a b abs_tol : R) : bool :=
  if Rle_dec (Rabs (a - b)) (Rmax (1e-9 * Rmax (Rabs a) (Rabs b)) abs_tol)
  then true else false.

Record Transform : Type := Build { matrix : list (list R) }.

Definition identity_matrix : list (list R) :=
  [ [1; 0; 0; 0];
    [0; 1; 0; 0];
    [0; 0; 1; 0];
    [0; 0; 0; 1] ].

Definition matrix_multiply (A B : list (list R)) : list (list R) :=
  map (fun i =>
         map (fun j =>
                py_sum (map (fun k => cell A i k * cell B k j) (seq 0 (length B))))
             (seq 0 (length (nth 0%nat B []))))
      (seq 0 (length A)).

(** [m[i][j] = v] *)
Definition set_cell (m : list (list R)) (i j : nat) (v : R) : list (list R) :=
  <[i := <[j := v]> (nth i m [])]> m.

Definition set_translation (self : Transform) (translation : vec3) : Transform :=
  let '(x, y, z) := translation in
  Build (fold_left (fun m i => set_cell m i 3 (nth i [x; y; z] 0))
                   (seq 0 3) (matrix self)).

Definition rot_x (roll : R) : list (list R) :=
  [ [1; 0; 0];
    [0; cos roll; - sin roll];
    [0; sin roll; cos roll] ].

Definition rot_y (pitch : R) : list (list R) :=
  [ [cos pitch; 0; sin pitch];
    [0; 1; 0];
    [- sin pitch; 0; cos pitch] ].

Definition rot_z (yaw : R) : list (list R) :=
  [ [cos yaw; - sin yaw; 0];
    [sin yaw; cos yaw; 0];
    [0; 0; 1] ].

(** The rotation block built by [set_rotation_rpy]: exactly orthonormal
    here, orthonormal up to rounding in binary64. *)
Definition rpy_matrix (roll pitch yaw : R) : list (list R) :=
  matrix_multiply (matrix_multiply (rot_z yaw) (rot_y pitch)) (rot_x roll).

Definition set_rotation_rpy (self : Transform) (roll pitch yaw : R) : Transform :=
  let Rm := rpy_matrix roll pitch yaw in
  Build (fold_left
           (fun m i => fold_left (fun m' j => set_cell m' i j (cell Rm i j)) (seq 0 3) m)
           (seq 0 3) (matrix self)).

(** [Transform(translation, rotation, matrix)] *)
Definition init (translation rotation : option vec3)
  (matrix_arg : option (list (list R))) : Transform :=
  match matrix_arg with
  | Some m => Build m
  | None =>
      let self := Build identity_matrix in
      let self := match translation with
                  | Some t => set_translation self t
                  | None => self
                  end in
      match rotation with
      | Some (roll, pitch, yaw) => set_rotation_rpy self roll pitch yaw
      | None => self
      end
  end.

(** [Transform()] *)
Definition identity : Transform := init None None None.

(** [__eq__] *)
Definition eq (self other : Transform) : bool :=
  forallb (fun i =>
             forallb (fun j => isclose (cell (matrix self) i j) (cell (matrix other) i j) 1e-6)
                     (seq 0 4))
          (seq 0 4).

(** [__mul__] *)
Definition mul (self other : Transform) : Transform :=
  init None None (Some (matrix_multiply (matrix self) (matrix other))).

(** [row[:3] for row in self.matrix[:3]] *)
Definition rotation_block (self : Transform) : list (list R) :=
  map (firstn 3) (firstn 3 (matrix self)).

Definition inverse (self : Transform) : Transform :=
  let Rm := rotation_block self in
  let t := map (fun row => nth 3 row 0) (firstn 3 (matrix self)) in
  let R_inv := map (fun i => map (fun j => cell Rm j i) (seq 0 3)) (seq 0 3) in
  let t_inv_mat := matrix_multiply R_inv (map (fun i => [- nth i t 0]) (seq 0 3)) in
  let inv_matrix := map (fun i => nth i R_inv [] ++ nth i t_inv_mat []) (seq 0 3) in
  init None None (Some (inv_matrix ++ [[0; 0; 0; 1]])).

Definition get_translation (self : Transform) : vec3 :=
  (cell (matrix self) 0 3, cell (matrix self) 1 3, cell (matrix self) 2 3).

(** [None] is the [ValueError] of [math.asin]. *)
Definition get_rotation_rpy (self : Transform) : option vec3 :=
  let Rm := rotation_block self in
  let cos_pitch := sqrt (cell Rm 0 0 ^ 2 + cell Rm 1 0 ^ 2) in
  if Rlt_dec cos_pitch 1e-6 then
    match py_asin (- cell Rm 2 0) with
    | None => None
    | Some pitch =>
        let yaw := 0 in
        let roll := if Rlt_dec 0 pitch
                    then atan2 (cell Rm 0 1) (cell Rm 1 1)
                    else atan2 (- cell Rm 0 1) (cell Rm 1 1) in
        Some (roll, pitch, yaw)
    end
  else
    let pitch := atan2 (- cell Rm 2 0) cos_pitch in
    let yaw := atan2 (cell Rm 1 0) (cell Rm 0 0) in
    let roll := atan2 (cell Rm 2 1) (cell Rm 2 2) in
    Some (roll, pitch, yaw).

(** Shape of the matrices the program builds. *)
Definition shape (rows cols : nat) (A : list (list R)) : Prop :=
  length A = rows /\ Forall (fun row => length row = cols) A.

(** The invariant of the data model: a 4x4 matrix whose last row is
    [[0, 0, 0, 1]]. *)
Definition homogeneous (T : Transform) : Prop :=
  shape 4 4 (matrix T) /\ nth 3 (matrix T) [] = [0; 0; 0; 1].

(** The rotation block is orthonormal (its columns are) with determinant 1. *)
Definition transpose3 (A : list (list R)) : list (list R) :=
  map (fun i => map (fun j => cell A j i) (seq 0 3)) (seq 0 3).

Definition det3 (A : list (list R)) : R :=
  cell A 0 0 * (cell A 1 1 * cell A 2 2 - cell A 1 2 * cell A 2 1)
  - cell A 0 1 * (cell A 1 0 * cell A 2 2 - cell A 1 2 * cell A 2 0)
  + cell A 0 2 * (cell A 1 0 * cell A 2 1 - cell A 1 1 * cell A 2 0).

Definition identity3 : list (list R) :=
  [ [1; 0; 0]; [0; 1; 0]; [0; 0; 1] ].

Definition rotation (T : Transform) : Prop :=
  (forall i j, (i < 3)%nat -> (j < 3)%nat ->
     cell (matrix_multiply (transpose3 (rotation_block T)) (rotation_block T)) i j
     = cell identity3 i j)
  /\ det3 (rotation_block T) = 1.

(** Two 3x3 blocks agree entry by entry up to [tol]. *)
Definition block_close (tol : R) (A B : list (list R)) : Prop :=
  forall i j, (i < 3)%nat -> (j < 3)%nat -> Rabs (cell A i j - cell B i j) <= tol.

(** The rotation block is outside the gimbal band: [get_rotation_rpy] takes
    its regular branch. *)
Definition regular (T : Transform) : Prop :=
  1e-6 <= sqrt (cell (rotation_block T) 0 0 ^ 2 + cell (rotation_block T) 1 0 ^ 2).

End Transform.


(** ** xml.etree.ElementTree *)

Module Xml.

(** The text of an element: a string, or the decimal rendering of a list of
    floats joined by spaces ([' '.join(str(v) for v in values)]). *)
Inductive Text : Type :=
| TStr (s : string)
| TFloats (values : list R).

Inductive Element : Type :=
| Elem (tag : string) (attrib : list (string * string)) (text : option Text)
       (children : list Element).

Definition tag (e : Element) : string := let 'Elem t _ _ _ := e in t.
Definition attrib (e : Element) : list (string * string) := let 'Elem _ a _ _ := e in a.
Definition text (e : Element) : option Text := let 'Elem _ _ x _ := e in x.
Definition children (e : Element) : list Element := let 'Elem _ _ _ c := e in c.

(** The parent after [child] has been appended to it, as [ET.SubElement]
    leaves it once the child is filled in. *)
Definition append (parent child : Element) : Element :=
  let 'Elem t a x c := parent in Elem t a x (c ++ [child]).

(** The parent after the elements of [added] have been appended in turn. *)
Definition extend (parent : Element) (added : list Element) : Element :=
  let 'Elem t a x c := parent in Elem t a x (c ++ added).

End Xml.

(** ** pose.py *)

Module Pose.
Import Transform.
Local Open Scope R_scope.

Record Pose : Type := Build {
  transform : Transform.Transform;
  relative_to : option string
}.

(** [Pose(translation, rotation, relative_to)] *)
Definition init (translation rotation : vec3) (relative_to : option string) : Pose :=
  Build (Transform.init (Some translation) (Some rotation) None) relative_to.

(** [Pose()]: the defaults of the constructor. *)
Definition init_default : Pose := init (0, 0, 0) (0, 0, 0) (Some "__model__"%string).

(** Truth value of [self.relative_to]. *)
Definition truthy (s : option string) : bool :=
  match s with
  | Some EmptyString => false
  | Some _ => true
  | None => false
  end.

Definition to_sdf_element (self : Pose) (node : Xml.Element) : option Xml.Element :=
  let translation := get_translation (transform self) in
  match get_rotation_rpy (transform self) with
  | None => None
  | Some rotation =>
      let values := vec3_list translation ++ vec3_list rotation in
      if forallb (fun v => if Rlt_dec (Rabs v) 1e-6 then true else false) values
      then Some node
      else
        let attrib := match relative_to self with
                      | Some frame =>
                          if truthy (Some frame) then [("relative_to"%string, frame)] else []
                      | None => []
                      end in
        Some (Xml.append node (Xml.Elem "pose" attrib (Some (Xml.TFloats values)) []))
  end.

(** [inverse()] and [__mul__]: [None] is the [ValueError] of [math.asin] in
    [get_rotation_rpy].  With exact arithmetic the calls return on the poses
    of the constructor; in binary64 they can raise inside the gimbal band. *)
Definition inverse (self : Pose) : option Pose :=
  match get_rotation_rpy (Transform.inverse (transform self)) with
  | None => None
  | Some rotation =>
      Some (init (get_translation (Transform.inverse (transform self))) rotation
                 (relative_to self))
  end.

Definition mul (self other : Pose) : option Pose :=
  let combined := Transform.mul (transform self) (transform other) in
  match get_rotation_rpy combined with
  | None => None
  | Some rotation => Some (init (get_translation combined) rotation (relative_to self))
  end.

(** [pose.relative_to = v] *)
Definition set_relative_to (self : Pose) (v : option string) : Pose :=
  Build (transform self) v.

(** The poses of the program are built by the constructor. *)
Definition constructed (p : Pose) : Prop :=
  exists translation rotation,
    transform p = Transform.init (Some translation) (Some rotation) None.

End Pose.

(** ** The CAD interface ([adsk.core], [adsk.fusion]) *)

Module Adsk.
Import Transform.
Local Open Scope R_scope.

(** [adsk.core.Matrix3D]: a 4x4 matrix read with [getCell]. *)
Definition Matrix3D : Type := list (list R).

Definition getCell (m : Matrix3D) (row col : nat) : R := cell m row col.

(** [Matrix3D.create()] *)
Definition Matrix3D_create : Matrix3D := identity_matrix.

(** [m.translation.asArray()] *)
Definition translation (m : Matrix3D) : vec3 :=
  (cell m 0 3, cell m 1 3, cell m 2 3).

(** [m.setWithCoordinateSystem(origin, xAxis, yAxis, zAxis)] *)
Definition setWithCoordinateSystem (origin xAxis yAxis zAxis : vec3) : Matrix3D :=
  let '(ox, oy, oz) := origin in
  let '(x0, x1, x2) := xAxis in
  let '(y0, y1, y2) := yAxis in
  let '(z0, z1, z2) := zAxis in
  [ [x0; y0; z0; ox]; [x1; y1; z1; oy]; [x2; y2; z2; oz]; [0; 0; 0; 1] ].

Record OrientedBoundingBox3D : Type := {
  centerPoint : vec3;
  height : R;
  width : R;
  length : R;
  heightDirection : vec3;
  widthDirection : vec3;
  lengthDirection : vec3
}.

Record BRepBody : Type := {
  body_name : string;
  orientedMinimumBoundingBox : OrientedBoundingBox3D
}.

(** [occurrence.getPhysicalProperties(...)], with the tuple of
    [getXYZMomentsOfInertia()]. *)
Record PhysicalProperties : Type := {
  centerOfMass : vec3;
  mass : R;
  inertia_valid : bool;
  moments : R * R * R * R * R * R
}.

Inductive DesignTypes : Type := DirectDesignType | ParametricDesignType.

Inductive JointTypes : Type :=
| RigidJointType | RevoluteJointType | SliderJointType | CylindricalJointType
| PinSlotJointType | PlanarJointType | BallJointType.

Record JointLimits : Type := {
  isMinimumValueEnabled : bool;
  isMaximumValueEnabled : bool;
  minimumValue : R;
  maximumValue : R
}.

(** [joint.jointMotion]: the motion object has the members of its type. *)
Inductive JointMotion : Type :=
| RigidJointMotion
| RevoluteJointMotion (rotationAxisVector : vec3) (rotationLimits : JointLimits)
| SliderJointMotion (slideDirectionVector : vec3) (slideLimits : JointLimits)
| CylindricalJointMotion
| PinSlotJointMotion
| PlanarJointMotion
| BallJointMotion.

Definition jointType (m : JointMotion) : JointTypes :=
  match m with
  | RigidJointMotion => RigidJointType
  | RevoluteJointMotion _ _ => RevoluteJointType
  | SliderJointMotion _ _ => SliderJointType
  | CylindricalJointMotion => CylindricalJointType
  | PinSlotJointMotion => PinSlotJointType
  | PlanarJointMotion => PlanarJointType
  | BallJointMotion => BallJointType
  end.

(** The members of the motion object; [None] where the object has no such
    member ([AttributeError]). *)
Definition rotationAxisVector (m : JointMotion) : option vec3 :=
  match m with RevoluteJointMotion axis _ => Some axis | _ => None end.
Definition rotationLimits (m : JointMotion) : option JointLimits :=
  match m with RevoluteJointMotion _ limits => Some limits | _ => None end.
Definition slideDirectionVector (m : JointMotion) : option vec3 :=
  match m with SliderJointMotion direction _ => Some direction | _ => None end.
Definition slideLimits (m : JointMotion) : option JointLimits :=
  match m with SliderJointMotion _ limits => Some limits | _ => None end.

(** An occurrence as a joint or a rigid group refers to it: its name, the
    identity that carries its attributes, and its bodies. *)
Record OccurrenceRef : Type := {
  ref_name : string;
  ref_id : N;
  ref_bodies : list BRepBody
}.

(** [adsk.fusion.Joint] and [adsk.fusion.AsBuiltJoint].  [occurrenceOne] and
    [occurrenceTwo] are [None] for geometry of the root component;
    [geometry_origin] is the origin of [geometry] (as-built) or of
    [geometryOrOriginOne]. *)
Record Joint : Type := {
  joint_name : string;
  jointMotion : JointMotion;
  occurrenceOne : option OccurrenceRef;
  occurrenceTwo : option OccurrenceRef;
  geometry_origin : option vec3
}.

(** [adsk.fusion.RigidGroup].  [temp_id] and [temp_properties] are the
    identity and the physical properties the CAD gives to the temporary
    occurrence that [add_rigid_group] creates for the group. *)
Record RigidGroup : Type := {
  group_name : string;
  group_occurrences : list OccurrenceRef;
  temp_id : N;
  temp_properties : PhysicalProperties
}.

(** [adsk.fusion.Occurrence], with the rigid groups and joints of its
    component. *)
Inductive Occurrence : Type :=
| MkOccurrence (name : string) (id : N) (transform2 : Matrix3D)
    (bRepBodies : list BRepBody) (physicalProperties : PhysicalProperties)
    (childOccurrences : list Occurrence)
    (rigidGroups : list RigidGroup) (joints asBuiltJoints : list Joint).

Definition name (o : Occurrence) : string :=
  let 'MkOccurrence n _ _ _ _ _ _ _ _ := o in n.
Definition id (o : Occurrence) : N :=
  let 'MkOccurrence _ i _ _ _ _ _ _ _ := o in i.
Definition transform2 (o : Occurrence) : Matrix3D :=
  let 'MkOccurrence _ _ t _ _ _ _ _ _ := o in t.
Definition bRepBodies (o : Occurrence) : list BRepBody :=
  let 'MkOccurrence _ _ _ b _ _ _ _ _ := o in b.
Definition physicalProperties (o : Occurrence) : PhysicalProperties :=
  let 'MkOccurrence _ _ _ _ p _ _ _ _ := o in p.
Definition childOccurrences (o : Occurrence) : list Occurrence :=
  let 'MkOccurrence _ _ _ _ _ c _ _ _ := o in c.
Definition rigidGroups (o : Occurrence) : list RigidGroup :=
  let 'MkOccurrence _ _ _ _ _ _ g _ _ := o in g.
Definition joints (o : Occurrence) : list Joint :=
  let 'MkOccurrence _ _ _ _ _ _ _ j _ := o in j.
Definition asBuiltJoints (o : Occurrence) : list Joint :=
  let 'MkOccurrence _ _ _ _ _ _ _ _ j := o in j.

Record Component : Type := {
  comp_name : string;
  comp_rigidGroups : list RigidGroup;
  comp_occurrences : list Occurrence;
  comp_joints : list Joint;
  comp_asBuiltJoints : list Joint
}.

(** [adsk.fusion.Design]; [userParameters] gives the value of
    [userParameters.itemByName(name)], [linkNameAttributes] the attributes
    [FusionSDF/link_name] that the occurrences of the document already
    carry, by occurrence identity. *)
Record Design : Type := {
  designType : DesignTypes;
  userParameters : gmap string R;
  linkNameAttributes : gmap N string;
  rootComponent : Component
}.

End Adsk.


(** ** util.py *)

Module Util.
Import Transform.

Section NormalizeName.

(** [str.lower], on UTF-8 text. *)
Variable lower : string -> string.

(** The class [[a-z0-9_]]. *)
Definition is_name_char (a : ascii) : bool :=
  let n := nat_of_ascii a in
  ((97 <=? n) && (n <=? 122)) || ((48 <=? n) && (n <=? 57)) || (n =? 95).

(** [re.sub(r'[^a-z0-9_]+', '_', name)]: every maximal run of characters
    outside the class becomes one underscore; [in_run] says that the
    previous character was outside the class. *)
Fixpoint re_sub (in_run : bool) (name : string) : string :=
  match name with
  | EmptyString => EmptyString
  | String a rest =>
      if is_name_char a then String a (re_sub false rest)
      else if in_run then re_sub true rest
      else String "_" (re_sub true rest)
  end.

Definition is_underscore (a : ascii) : bool := nat_of_ascii a =? 95.

Fixpoint lstrip (name : string) : string :=
  match name with
  | EmptyString => EmptyString
  | String a rest => if is_underscore a then lstrip rest else name
  end.

Fixpoint rstrip (name : string) : string :=
  match name with
  | EmptyString => EmptyString
  | String a rest =>
      match rstrip rest with
      | EmptyString => if is_underscore a then EmptyString else String a EmptyString
      | r => String a r
      end
  end.

(** [name.strip('_')] *)
Definition strip (name : string) : string := rstrip (lstrip name).

Definition normalize_name (name : string) : string :=
  let name := lower name in
  let name := re_sub false name in
  let name := strip name in
  name.

End NormalizeName.

(** [str.lower] on ASCII text: the instance used to run the functions. *)
Definition ascii_lower_char (a : ascii) : ascii :=
  let n := nat_of_ascii a in
  if (65 <=? n) && (n <=? 90) then ascii_of_nat (n + 32) else a.

Fixpoint ascii_lower (s : string) : string :=
  match s with
  | EmptyString => EmptyString
  | String a rest => String (ascii_lower_char a) (ascii_lower rest)
  end.

(** Every character of [s] is in [[a-z0-9_]]. *)
Fixpoint all_name_chars (s : string) : bool :=
  match s with
  | EmptyString => true
  | String a rest => is_name_char a && all_name_chars rest
  end.

(** [s] contains a character of [[a-z0-9]]. *)
Fixpoint has_alnum (s : string) : bool :=
  match s with
  | EmptyString => false
  | String a rest => (is_name_char a && negb (is_underscore a)) || has_alnum rest
  end.

(** First and last character of a string. *)
Definition first_char (s : string) : option ascii :=
  match s with
  | EmptyString => None
  | String a _ => Some a
  end.

Fixpoint last_char (s : string) : option ascii :=
  match s with
  | EmptyString => None
  | String a EmptyString => Some a
  | String _ rest => last_char rest
  end.

Local Open Scope R_scope.

(** The 3x3 matrix [R] that [matrix3d_to_rpy] fills from [getCell]. *)
Definition rotation_cells (matrix3d : Adsk.Matrix3D) : list (list R) :=
  map (fun row => map (fun col => Adsk.getCell matrix3d row col) (seq 0 3)) (seq 0 3).

Definition matrix3d_to_rpy (matrix3d : Adsk.Matrix3D) : vec3 :=
  let Rm := rotation_cells matrix3d in
  let sy := sqrt (cell Rm 0 0 ^ 2 + cell Rm 1 0 ^ 2) in
  let singular := if Rlt_dec sy 1e-6 then true else false in
  if negb singular then
    let roll := atan2 (cell Rm 2 1) (cell Rm 2 2) in
    let pitch := atan2 (- cell Rm 2 0) sy in
    let yaw := atan2 (cell Rm 1 0) (cell Rm 0 0) in
    (roll, pitch, yaw)
  else
    let roll := atan2 (- cell Rm 1 2) (cell Rm 1 1) in
    let pitch := atan2 (- cell Rm 2 0) sy in
    let yaw := 0 in
    (roll, pitch, yaw).

(** [cm_to_m] on a float. *)
Definition cm_to_m (cm : R) : R := cm / 100.0.

(** [cm_to_m] on a list of three floats. *)
Definition cm_to_m_vec (cm : vec3) : vec3 :=
  let '(x, y, z) := cm in (x / 100.0, y / 100.0, z / 100.0).

Definition transform2_to_pose (transform2 : Adsk.Matrix3D) : Pose.Pose :=
  Pose.init (cm_to_m_vec (Adsk.translation transform2)) (matrix3d_to_rpy transform2)
            (Some "__model__"%string).

Definition kg_cm2_to_kg_m2 (kg_cm2 : R) : R := kg_cm2 / 10000.0.

Definition world_inertia_to_com_inertia (inertia : list R) (center_of_mass : vec3)
  (mass : R) : list R :=
  let '(x, y, z) := center_of_mass in
  let translation_matrix :=
    [ y ^ 2 + z ^ 2; x ^ 2 + z ^ 2; x ^ 2 + y ^ 2;
      - x * y; - y * z; - x * z ] in
  map (fun '(i, t) => i - mass * t) (combine inertia translation_matrix).

(** [name.replace('__', '/')] *)
Fixpoint name_to_path (name : string) : string :=
  match name with
  | EmptyString => EmptyString
  | String a rest =>
      match rest with
      | String b rest' =>
          if is_underscore a && is_underscore b
          then String "/" (name_to_path rest')
          else String a (name_to_path rest)
      | EmptyString => String a EmptyString
      end
  end.

(** [name] contains ['__']. *)
Fixpoint has_double_underscore (name : string) : bool :=
  match name with
  | EmptyString => false
  | String a rest =>
      match rest with
      | String b _ => (is_underscore a && is_underscore b) || has_double_underscore rest
      | EmptyString => false
      end
  end.

(** The extraction that the specification gives for every rotation matrix:
    the two branches of [Transform.get_rotation_rpy]. *)
Definition rpy_convention (Rm : list (list R)) : vec3 :=
  let s := sqrt (cell Rm 0 0 ^ 2 + cell Rm 1 0 ^ 2) in
  if Rlt_dec s 1e-6 then
    let pitch := asin (- cell Rm 2 0) in
    let roll := if Rlt_dec 0 pitch
                then atan2 (cell Rm 0 1) (cell Rm 1 1)
                else atan2 (- cell Rm 0 1) (cell Rm 1 1) in
    (roll, pitch, 0)
  else
    (atan2 (cell Rm 2 1) (cell Rm 2 2), atan2 (- cell Rm 2 0) s,
     atan2 (cell Rm 1 0) (cell Rm 0 0)).

End Util.

(** ** joint.py *)

Module Joint.
Import Transform.

Inductive JointType : Type := FIXED | REVOLUTE | CONTINUOUS | PRISMATIC.

Record Joint : Type := Build {
  name : string;
  joint_type : JointType;
  pose : option Pose.Pose;
  parent : option string;
  child : option string;
  axis_xyz : option vec3;
  lower_limit : option R;
  upper_limit : option R
}.

(** [Joint(name, joint_type, pose, parent, child)] *)
Definition init (name : string) (joint_type : JointType) (pose : option Pose.Pose)
  (parent child : option string) : Joint :=
  Build name joint_type pose parent child None None None.

(** [JointType.value] *)
Definition joint_type_value (t : JointType) : string :=
  match t with
  | FIXED => "fixed"
  | REVOLUTE => "revolute"
  | CONTINUOUS => "continuous"
  | PRISMATIC => "prismatic"
  end.

(** [str(v)] for a float or [None]. *)
Definition str_float (v : option R) : Xml.Text :=
  match v with
  | Some x => Xml.TFloats [x]
  | None => Xml.TStr "None"
  end.

(** The [axis] element of [to_sdf_element]. *)
Definition axis_element (self : Joint) : Xml.Element :=
  let axis_node := Xml.Elem "axis" [] None [] in
  let axis_node :=
    match axis_xyz self with
    | Some xyz =>
        Xml.append axis_node
          (Xml.Elem "xyz" [("expressed_in", "__model__")]
             (Some (Xml.TFloats (vec3_list xyz))) [])
    | None => axis_node
    end in
  match lower_limit self with
  | Some lower =>
      let limit_node := Xml.Elem "limit" [] None [] in
      let limit_node :=
        Xml.append limit_node (Xml.Elem "lower" [] (Some (str_float (Some lower))) []) in
      let limit_node :=
        Xml.append limit_node (Xml.Elem "upper" [] (Some (str_float (upper_limit self))) []) in
      Xml.append axis_node limit_node
  | None => axis_node
  end.

(** [to_sdf_element(node)]: the node with the [joint] element appended; [None]
    when the extraction of the pose raises. *)
Definition to_sdf_element (self : Joint) (node : Xml.Element) : option Xml.Element :=
  let joint_node :=
    Xml.Elem "joint" [("name", name self); ("type", joint_type_value (joint_type self))]
      None [] in
  match
    (match pose self with
     | Some pose => Pose.to_sdf_element pose joint_node
     | None => Some joint_node
     end)
  with
  | None => None
  | Some joint_node =>
      let joint_node :=
        Xml.append joint_node (Xml.Elem "parent" [] (option_map Xml.TStr (parent self)) []) in
      let joint_node :=
        Xml.append joint_node (Xml.Elem "child" [] (option_map Xml.TStr (child self)) []) in
      let joint_node := Xml.append joint_node (axis_element self) in
      Some (Xml.append node joint_node)
  end.

End Joint.

(** ** link.py *)

Module Link.
Import Transform.
Local Open Scope R_scope.

Inductive LinkGeometryType : Type := BOX | CYLINDER | MESH.

Record LinkGeometry : Type := BuildGeometry {
  geometry_type : LinkGeometryType;
  mesh_uri : option string;
  size : option vec3;
  scale : R
}.

(** [LinkGeometry(geometry_type)] *)
Definition geometry_init (geometry_type : LinkGeometryType) : LinkGeometry :=
  BuildGeometry geometry_type None None 0.01.

Inductive LinkElementType : Type := VISUAL | COLLISION.

Record LinkElement : Type := BuildElement {
  element_type : LinkElementType;
  element_name : string;
  element_pose : option Pose.Pose;
  geometry : option LinkGeometry
}.

(** [LinkElement(element_type, name)] *)
Definition element_init (element_type : LinkElementType) (name : string) : LinkElement :=
  BuildElement element_type name None None.

Record LinkInertial : Type := BuildInertial {
  inertial_pose : Pose.Pose;
  mass : R;
  ixx : R; ixy : R; ixz : R; iyy : R; iyz : R; izz : R
}.

Record Link : Type := Build {
  name : string;
  pose : option Pose.Pose;
  visuals : gmap string LinkElement;
  collisions : gmap string LinkElement;
  inertial : option LinkInertial
}.

(** [Link(name)] *)
Definition init (name : string) : Link := Build name None ∅ ∅ None.

(** [LinkGeometryType.value], [LinkElementType.value] *)
Definition geometry_type_value (t : LinkGeometryType) : string :=
  match t with
  | BOX => "box"
  | CYLINDER => "cylinder"
  | MESH => "mesh"
  end.

Definition element_type_value (t : LinkElementType) : string :=
  match t with
  | VISUAL => "visual"
  | COLLISION => "collision"
  end.

(** [LinkGeometry.to_sdf_element]; [None] is the [TypeError] of a box
    without [size]. *)
Definition geometry_to_sdf_element (self : LinkGeometry) (node : Xml.Element)
  : option Xml.Element :=
  let geometry_node := Xml.Elem "geometry" [] None [] in
  match geometry_type self with
  | MESH =>
      let mesh_node := Xml.Elem "mesh" [] None [] in
      let mesh_node :=
        Xml.append mesh_node
          (Xml.Elem "scale" [] (Some (Xml.TFloats [scale self; scale self; scale self])) []) in
      let mesh_node :=
        Xml.append mesh_node (Xml.Elem "uri" [] (option_map Xml.TStr (mesh_uri self)) []) in
      Some (Xml.append node (Xml.append geometry_node mesh_node))
  | BOX =>
      match size self with
      | Some size =>
          let box_node := Xml.Elem "box" [] None [] in
          let box_node :=
            Xml.append box_node
              (Xml.Elem "size" [] (Some (Xml.TFloats (vec3_list size))) []) in
          Some (Xml.append node (Xml.append geometry_node box_node))
      | None => None
      end
  | CYLINDER => Some (Xml.append node geometry_node)
  end.

(** [LinkElement.to_sdf_element]; [None] when the pose extraction raises,
    when [geometry] is [None] ([AttributeError]) or when the geometry raises. *)
Definition element_to_sdf_element (self : LinkElement) (node : Xml.Element)
  : option Xml.Element :=
  let link_node :=
    Xml.Elem (element_type_value (element_type self)) [("name", element_name self)] None [] in
  match
    (match element_pose self with
     | Some pose => Pose.to_sdf_element pose link_node
     | None => Some link_node
     end)
  with
  | None => None
  | Some link_node =>
      match geometry self with
      | None => None
      | Some geometry =>
          match geometry_to_sdf_element geometry link_node with
          | None => None
          | Some link_node => Some (Xml.append node link_node)
          end
      end
  end.

(** An element whose text is [str(v)]. *)
Definition float_element (tag : string) (v : R) : Xml.Element :=
  Xml.Elem tag [] (Some (Xml.TFloats [v])) [].

(** [LinkInertial.to_sdf_element] *)
Definition inertial_to_sdf_element (self : LinkInertial) (node : Xml.Element)
  : option Xml.Element :=
  let inertial_node := Xml.Elem "inertial" [] None [] in
  match Pose.to_sdf_element (inertial_pose self) inertial_node with
  | None => None
  | Some inertial_node =>
      let inertial_node := Xml.append inertial_node (float_element "mass" (mass self)) in
      let inertia_node :=
        Xml.Elem "inertia" [] None
          [ float_element "ixx" (ixx self); float_element "ixy" (ixy self);
            float_element "ixz" (ixz self); float_element "iyy" (iyy self);
            float_element "iyz" (iyz self); float_element "izz" (izz self) ] in
      Some (Xml.append node (Xml.append inertial_node inertia_node))
  end.

(** A [for] loop over elements that are written to the same node. *)
Fixpoint write_all {A : Type} (write : A -> Xml.Element -> option Xml.Element)
  (items : list A) (node : Xml.Element) : option Xml.Element :=
  match items with
  | [] => Some node
  | item :: items' =>
      match write item node with
      | Some node' => write_all write items' node'
      | None => None
      end
  end.

Section Serialise.

(** [d.values()]: the values of a dict in its iteration order (the order of
    insertion, which a [gmap] does not record). *)
Variable dict_values : forall A : Type, gmap string A -> list A.

(** [Link.to_sdf_element] *)
Definition to_sdf_element (self : Link) (node : Xml.Element) : option Xml.Element :=
  let link_node := Xml.Elem "link" [("name", name self)] None [] in
  match
    (match pose self with
     | Some pose => Pose.to_sdf_element pose link_node
     | None => Some link_node
     end)
  with
  | None => None
  | Some link_node =>
      match
        (match inertial self with
         | Some inertial => inertial_to_sdf_element inertial link_node
         | None => Some link_node
         end)
      with
      | None => None
      | Some link_node =>
          match write_all element_to_sdf_element (dict_values _ (visuals self)) link_node with
          | None => None
          | Some link_node =>
              match write_all element_to_sdf_element (dict_values _ (collisions self))
                      link_node with
              | None => None
              | Some link_node => Some (Xml.append node link_node)
              end
          end
      end
  end.

End Serialise.

End Link.


(** ** sdf.py *)

Module SDF.
Import Transform.
Local Open Scope R_scope.
Local Open Scope string_scope.

(** The messages given to [log], by the values they interpolate.  The
    messages about the mesh cache and the mesh export are left out with the
    file system. *)
Inductive LogMsg : Type :=
| LogParseRootComponent (name : string)
| LogNoRootLink
| LogMultipleRootLinks (root_links : gset string)
| LogParseOccurrence (name prefix : string)
| LogAddLink (name prefix link_name : string)
| LogLinkExists (link_name : string)
| LogOccurrenceInRigidGroup (name group_link : string)
| LogNoBodies (link_name : string)
| LogVisual (body_name : string)
| LogUsingMesh (collision_name : string)
| LogUsingBoundingBox (collision_name : string)
| LogObb (obb : Adsk.OrientedBoundingBox3D)
| LogInertiaError (link_name : string)
| LogAddJoint (name prefix joint_name : string)
| LogJointExists (joint_name : string)
| LogUnsupportedJointType (joint_type : Adsk.JointTypes) (joint_name : string)
| LogAddRigidGroup (name prefix link_name : string)
| LogRigidGroups (occurrences_in_rigid_groups : gmap string string).

(** The state of an [SDF] object.  [attributes] holds the attribute
    [FusionSDF/link_name] of the occurrences of the design, [console] the
    text written by [log]. *)
Record SDF : Type := Build {
  design : Adsk.Design;
  name : option string;
  links : gmap string Link.Link;
  joints : gmap string Joint.Joint;
  fusion_joints : list (Adsk.Joint * bool * string);
  occurrences_in_rigid_groups : gmap string string;
  root_link : option string;
  attributes : gmap N string;
  console : list LogMsg
}.

Definition set_name (self : SDF) (v : option string) : SDF :=
  Build (design self) v (links self) (joints self) (fusion_joints self)
        (occurrences_in_rigid_groups self) (root_link self) (attributes self)
        (console self).

Definition set_links (self : SDF) (v : gmap string Link.Link) : SDF :=
  Build (design self) (name self) v (joints self) (fusion_joints self)
        (occurrences_in_rigid_groups self) (root_link self) (attributes self)
        (console self).

Definition set_joints (self : SDF) (v : gmap string Joint.Joint) : SDF :=
  Build (design self) (name self) (links self) v (fusion_joints self)
        (occurrences_in_rigid_groups self) (root_link self) (attributes self)
        (console self).

Definition set_fusion_joints (self : SDF) (v : list (Adsk.Joint * bool * string)) : SDF :=
  Build (design self) (name self) (links self) (joints self) v
        (occurrences_in_rigid_groups self) (root_link self) (attributes self)
        (console self).

Definition set_occurrences_in_rigid_groups (self : SDF) (v : gmap string string) : SDF :=
  Build (design self) (name self) (links self) (joints self) (fusion_joints self)
        v (root_link self) (attributes self) (console self).

Definition set_root_link (self : SDF) (v : option string) : SDF :=
  Build (design self) (name self) (links self) (joints self) (fusion_joints self)
        (occurrences_in_rigid_groups self) v (attributes self) (console self).

Definition set_attributes (self : SDF) (v : gmap N string) : SDF :=
  Build (design self) (name self) (links self) (joints self) (fusion_joints self)
        (occurrences_in_rigid_groups self) (root_link self) v (console self).

(** [log(message)] *)
Definition log (self : SDF) (message : LogMsg) : SDF :=
  Build (design self) (name self) (links self) (joints self) (fusion_joints self)
        (occurrences_in_rigid_groups self) (root_link self) (attributes self)
        (console self ++ [message]).

(** [occurrence.attributes.add('FusionSDF', 'link_name', value)] *)
Definition attributes_add (self : SDF) (occurrence_id : N) (value : string) : SDF :=
  set_attributes self (<[occurrence_id := value]> (attributes self)).

(** Truth value of [parameter is not None and parameter.value]. *)
Definition parameter_set (design : Adsk.Design) (parameter_name : string) : bool :=
  match Adsk.userParameters design !! parameter_name with
  | Some value => if Req_dec_T value 0 then false else true
  | None => false
  end.

(** A per-entity override: the design is parametric and has a user parameter
    of that name whose value is true. *)
Definition user_flag (design : Adsk.Design) (parameter_name : string) : bool :=
  match Adsk.designType design with
  | Adsk.ParametricDesignType => parameter_set design parameter_name
  | Adsk.DirectDesignType => false
  end.

(** A [for] loop whose body may raise. *)
Fixpoint for_each {A S : Type} (body : S -> A -> option S) (l : list A) (s : S)
  : option S :=
  match l with
  | [] => Some s
  | x :: l' =>
      match body s x with
      | Some s' => for_each body l' s'
      | None => None
      end
  end.

(** The state of [SDF(design)] before [parse_root_component]. *)
Definition init (design : Adsk.Design) : SDF :=
  Build design None ∅ ∅ [] ∅ None (Adsk.linkNameAttributes design) [].

Section Builder.

(** [str.lower], and [next(iter(s))] on a set of names. *)
Variable lower : string -> string.
Variable first_of : gset string -> string.

Definition normalize_name : string -> string := Util.normalize_name lower.

(** The body of the loop over [occurrence.bRepBodies] in [add_link]. *)
Definition add_link_body (rigid_group_pose : option Pose.Pose)
  (state : SDF * Link.Link) (body : Adsk.BRepBody) : option (SDF * Link.Link) :=
  let '(self, link) := state in
  let self := log self (LogVisual (Adsk.body_name body)) in
  let visual_name :=
    Link.name link ++ "__" ++ normalize_name (Adsk.body_name body) ++ "_visual" in
  let visual_geometry :=
    Link.BuildGeometry Link.MESH
      (Some ("meshes/" ++ Util.name_to_path visual_name ++ ".obj")) None 0.01 in
  let visual :=
    Link.BuildElement Link.VISUAL visual_name rigid_group_pose (Some visual_geometry) in
  let link := Link.Build (Link.name link) (Link.pose link)
                (<[visual_name := visual]> (Link.visuals link))
                (Link.collisions link) (Link.inertial link) in
  let collision_name :=
    Link.name link ++ "__" ++ normalize_name (Adsk.body_name body) ++ "_collision" in
  let use_collision_mesh := user_flag (design self) (collision_name ++ "_USE_MESH") in
  match
    (if use_collision_mesh then
       Some (log self (LogUsingMesh collision_name),
             Link.BuildElement Link.COLLISION collision_name
               (Link.element_pose visual) (Link.geometry visual))
     else
       let self := log self (LogUsingBoundingBox collision_name) in
       let obb := Adsk.orientedMinimumBoundingBox body in
       let self := log self (LogObb obb) in
       let obb_matrix3d :=
         Adsk.setWithCoordinateSystem (Adsk.centerPoint obb) (Adsk.heightDirection obb)
           (Adsk.widthDirection obb) (Adsk.lengthDirection obb) in
       let collision_pose :=
         Pose.init (Util.cm_to_m_vec (Adsk.centerPoint obb))
                   (Util.matrix3d_to_rpy obb_matrix3d) (Some "__model__") in
       match
         (match rigid_group_pose with
          | Some group_pose => Pose.mul group_pose collision_pose
          | None => Some collision_pose
          end)
       with
       | None => None
       | Some collision_pose =>
           let geometry :=
             Link.BuildGeometry Link.BOX None
               (Some (Util.cm_to_m (Adsk.height obb), Util.cm_to_m (Adsk.width obb),
                      Util.cm_to_m (Adsk.length obb))) 0.01 in
           Some (self, Link.BuildElement Link.COLLISION collision_name
                         (Some collision_pose) (Some geometry))
       end)
  with
  | None => None
  | Some (self, collision) =>
      Some (self,
            Link.Build (Link.name link) (Link.pose link) (Link.visuals link)
              (<[collision_name := collision]> (Link.collisions link))
              (Link.inertial link))
  end.

(** The inertial data of [add_link], from the physical properties of the
    occurrence. *)
Definition link_inertial (self : SDF) (link : Link.Link) (link_pose : Pose.Pose)
  (rigid_group_pose : option Pose.Pose) (properties : Adsk.PhysicalProperties)
  : option (SDF * Link.LinkInertial) :=
  let center_of_mass := Util.cm_to_m_vec (Adsk.centerOfMass properties) in
  let '(self, (xx, yy, zz, xy, yz, xz)) :=
    if Adsk.inertia_valid properties
    then (self, Adsk.moments properties)
    else (log self (LogInertiaError (Link.name link)), (1, 1, 1, 0, 0, 0)) in
  match Util.world_inertia_to_com_inertia
          (map Util.kg_cm2_to_kg_m2 [xx; yy; zz; xy; yz; xz])
          center_of_mass (Adsk.mass properties)
  with
  | [ixx; iyy; izz; ixy; iyz; ixz] =>
      let inertial_pose_model := Pose.init center_of_mass (0, 0, 0) (Some "__model__") in
      match Pose.inverse link_pose with
      | None => None
      | Some inverse_pose =>
          match
            (match rigid_group_pose with
             | Some group_pose =>
                 match Pose.mul inverse_pose group_pose with
                 | Some p => Pose.mul p inertial_pose_model
                 | None => None
                 end
             | None => Pose.mul inverse_pose inertial_pose_model
             end)
          with
          | None => None
          | Some inertial_pose_link =>
              let inertial_pose_link := Pose.set_relative_to inertial_pose_link None in
              Some (self,
                    Link.BuildInertial inertial_pose_link (Adsk.mass properties)
                      ixx ixy ixz iyy iyz izz)
          end
      end
  | _ => None
  end.

(** [add_link], without the mesh files.  [None] is the [ValueError] of a
    pose product or inverse: the collision pose under a rigid group and the
    inertial pose.  With exact arithmetic these calls return; in binary64
    they can raise inside the gimbal band. *)
Definition add_link (self : SDF) (occurrence : Adsk.Occurrence) (prefix : string)
  (rigid_group_pose : option Pose.Pose) : option (SDF * option Link.Link) :=
  let link_name := prefix ++ normalize_name (Adsk.name occurrence) in
  let self := log self (LogAddLink (Adsk.name occurrence) prefix link_name) in
  if decide (link_name ∈ dom (links self)) then
    Some (log self (LogLinkExists link_name), None)
  else
    match occurrences_in_rigid_groups self !! Adsk.name occurrence with
    | Some group_link =>
        let self := attributes_add self (Adsk.id occurrence) group_link in
        Some (log self (LogOccurrenceInRigidGroup (Adsk.name occurrence) group_link), None)
    | None =>
        let self := attributes_add self (Adsk.id occurrence) link_name in
        match Adsk.bRepBodies occurrence with
        | [] => Some (log self (LogNoBodies link_name), None)
        | _ :: _ =>
            let link_pose :=
              match rigid_group_pose with
              | Some group_pose => group_pose
              | None => Util.transform2_to_pose (Adsk.transform2 occurrence)
              end in
            let link := Link.Build link_name (Some link_pose) ∅ ∅ None in
            match for_each (add_link_body rigid_group_pose)
                    (Adsk.bRepBodies occurrence) (self, link) with
            | None => None
            | Some (self, link) =>
                match link_inertial self link link_pose rigid_group_pose
                        (Adsk.physicalProperties occurrence) with
                | None => None
                | Some (self, inertial) =>
                    let link := Link.Build (Link.name link) (Link.pose link)
                                  (Link.visuals link) (Link.collisions link)
                                  (Some inertial) in
                    Some (set_links self (<[Link.name link := link]> (links self)),
                          Some link)
                end
            end
        end
    end.

(** The names under which [add_link] stores the visual and the collision of
    a body, and the visual that it stores. *)
Definition visual_name (link_name : string) (body : Adsk.BRepBody) : string :=
  link_name ++ "__" ++ normalize_name (Adsk.body_name body) ++ "_visual".

Definition collision_name (link_name : string) (body : Adsk.BRepBody) : string :=
  link_name ++ "__" ++ normalize_name (Adsk.body_name body) ++ "_collision".

Definition mesh_visual (visual_name : string) (rigid_group_pose : option Pose.Pose)
  : Link.LinkElement :=
  Link.BuildElement Link.VISUAL visual_name rigid_group_pose
    (Some (Link.BuildGeometry Link.MESH
             (Some ("meshes/" ++ Util.name_to_path visual_name ++ ".obj")) None 0.01)).

(** [collision] is a collision element of the body [body] in the link
    [link_name]: the mesh of the visual when the user parameter
    [<name>_USE_MESH] is set, the oriented minimum bounding box of the body
    (in metres) otherwise. *)
Definition collision_of (design : Adsk.Design) (link_name : string)
  (rigid_group_pose : option Pose.Pose) (body : Adsk.BRepBody)
  (collision : Link.LinkElement) : Prop :=
  let name := collision_name link_name body in
  let obb := Adsk.orientedMinimumBoundingBox body in
  Link.element_name collision = name
  /\ Link.element_type collision = Link.COLLISION
  /\ if user_flag design (name ++ "_USE_MESH")
     then Link.element_pose collision = rigid_group_pose
          /\ Link.geometry collision
             = Link.geometry (mesh_visual (visual_name link_name body) rigid_group_pose)
     else (exists pose, Link.element_pose collision = Some pose)
          /\ (rigid_group_pose = None ->
              Link.element_pose collision
              = Some (Pose.init (Util.cm_to_m_vec (Adsk.centerPoint obb))
                        (Util.matrix3d_to_rpy
                           (Adsk.setWithCoordinateSystem (Adsk.centerPoint obb)
                              (Adsk.heightDirection obb) (Adsk.widthDirection obb)
                              (Adsk.lengthDirection obb)))
                        (Some "__model__")))
          /\ Link.geometry collision
             = Some (Link.BuildGeometry Link.BOX None
                       (Some (Util.cm_to_m (Adsk.height obb), Util.cm_to_m (Adsk.width obb),
                              Util.cm_to_m (Adsk.length obb))) 0.01).

(** The link name that an occurrence of a joint resolves to; [None] when the
    joint has no such occurrence or the occurrence has no [link_name]
    attribute ([AttributeError]). *)
Definition joint_link_name (self : SDF) (occurrence : option Adsk.OccurrenceRef)
  : option string :=
  match occurrence with
  | None => None
  | Some o =>
      match occurrences_in_rigid_groups self !! Adsk.ref_name o with
      | Some group_link => Some group_link
      | None => attributes self !! Adsk.ref_id o
      end
  end.

Definition add_joint (self : SDF) (fusion_joint : Adsk.Joint) (as_built : bool)
  (prefix : string) : option SDF :=
  let joint_name := prefix ++ normalize_name (Adsk.joint_name fusion_joint) in
  let self := log self (LogAddJoint (Adsk.joint_name fusion_joint) prefix joint_name) in
  if decide (joint_name ∈ dom (joints self)) then
    Some (log self (LogJointExists joint_name))
  else
    let joint_motion := Adsk.jointMotion fusion_joint in
    let '(self, joint_type) :=
      match Adsk.jointType joint_motion with
      | Adsk.RigidJointType => (self, Joint.FIXED)
      | Adsk.RevoluteJointType => (self, Joint.REVOLUTE)
      | Adsk.SliderJointType => (self, Joint.PRISMATIC)
      | other => (log self (LogUnsupportedJointType other joint_name), Joint.FIXED)
      end in
    match
      (match joint_type with
       | Joint.REVOLUTE =>
           match Adsk.rotationAxisVector joint_motion, Adsk.rotationLimits joint_motion with
           | Some axis, Some rotation_limits =>
               if Adsk.isMinimumValueEnabled rotation_limits
                  || Adsk.isMaximumValueEnabled rotation_limits
               then Some (Joint.REVOLUTE, Some axis,
                          Some (Adsk.minimumValue rotation_limits),
                          Some (Adsk.maximumValue rotation_limits))
               else Some (Joint.CONTINUOUS, Some axis, None, None)
           | _, _ => None
           end
       | Joint.PRISMATIC =>
           match Adsk.slideDirectionVector joint_motion, Adsk.slideLimits joint_motion with
           | Some axis, Some slide_limits =>
               Some (Joint.PRISMATIC, Some axis,
                     Some (Util.cm_to_m (Adsk.minimumValue slide_limits)),
                     Some (Util.cm_to_m (Adsk.maximumValue slide_limits)))
           | _, _ => None
           end
       | other => Some (other, None, None, None)
       end)
    with
    | None => None
    | Some (joint_type, axis_xyz, lower_limit, upper_limit) =>
        match joint_link_name self (Adsk.occurrenceTwo fusion_joint),
              joint_link_name self (Adsk.occurrenceOne fusion_joint) with
        | Some parent, Some child =>
            let swap := user_flag (design self) (joint_name ++ "_SWAP_PARENT_CHILD") in
            let '(parent, child, axis_xyz) :=
              if swap
              then (child, parent,
                    match axis_xyz with
                    | Some (x, y, z) => Some (- x, - y, - z)%R
                    | None => None
                    end)
              else (parent, child, axis_xyz) in
            let pose :=
              match Adsk.geometry_origin fusion_joint with
              | Some origin =>
                  Some (Pose.init (Util.cm_to_m_vec origin) (0, 0, 0) (Some "__model__"))
              | None => None
              end in
            let joint :=
              Joint.Build joint_name joint_type pose (Some parent) (Some child)
                axis_xyz lower_limit upper_limit in
            Some (set_joints self (<[joint_name := joint]> (joints self)))
        | _, _ => None
        end
    end.

Definition add_rigid_group (self : SDF) (parent_pose : Adsk.Matrix3D)
  (rigid_group : Adsk.RigidGroup) (prefix : string) : option (SDF * option Link.Link) :=
  let link_name := prefix ++ normalize_name (Adsk.group_name rigid_group) in
  let self := log self (LogAddRigidGroup (Adsk.group_name rigid_group) prefix link_name) in
  (* the temporary occurrence of a new component named [link_name], with a
     copy of every body of the group *)
  let rigid_group_occurrence :=
    Adsk.MkOccurrence (link_name ++ ":1") (Adsk.temp_id rigid_group) Adsk.Matrix3D_create
      (concat (map Adsk.ref_bodies (Adsk.group_occurrences rigid_group)))
      (Adsk.temp_properties rigid_group) [] [] [] [] in
  match add_link self rigid_group_occurrence ""
          (Some (Util.transform2_to_pose parent_pose)) with
  | None => None
  | Some (self, rigid_group_link) =>
      (* [rigid_group_occurrence.deleteMe()] *)
      let self := set_attributes self (delete (Adsk.temp_id rigid_group) (attributes self)) in
      let self :=
        fold_left
          (fun self occurrence =>
             set_occurrences_in_rigid_groups self
               (<[Adsk.ref_name occurrence := link_name ++ "_1"]>
                  (occurrences_in_rigid_groups self)))
          (Adsk.group_occurrences rigid_group) self in
      let self := log self (LogRigidGroups (occurrences_in_rigid_groups self)) in
      Some (self, rigid_group_link)
  end.

Fixpoint parse_occurrence (self : SDF) (occurrence : Adsk.Occurrence) (prefix : string)
  {struct occurrence} : option SDF :=
  match occurrence with
  | Adsk.MkOccurrence occurrence_name occurrence_id transform2 _ _
      childOccurrences rigidGroups occurrence_joints occurrence_asBuiltJoints =>
      let self := log self (LogParseOccurrence occurrence_name prefix) in
      match add_link self occurrence prefix None with
      | None => None
      | Some (self, _) =>
          let children_prefix := prefix ++ normalize_name occurrence_name ++ "__" in
          match
            for_each
              (fun '(self, _) rigid_group =>
                 add_rigid_group self transform2 rigid_group children_prefix)
              rigidGroups (self, None)
          with
          | None => None
          | Some (self, rigid_group_link) =>
              let self :=
                match rigid_group_link with
                | Some link => attributes_add self occurrence_id (Link.name link)
                | None => self
                end in
              match
                (fix loop (l : list Adsk.Occurrence) (self : SDF) : option SDF :=
                   match l with
                   | [] => Some self
                   | suboccurrence :: l' =>
                       match parse_occurrence self suboccurrence children_prefix with
                       | Some self' => loop l' self'
                       | None => None
                       end
                   end) childOccurrences self
              with
              | None => None
              | Some self =>
                  let self :=
                    fold_left
                      (fun self joint =>
                         set_fusion_joints self
                           (fusion_joints self ++ [(joint, false, children_prefix)]))
                      occurrence_joints self in
                  let self :=
                    fold_left
                      (fun self joint =>
                         set_fusion_joints self
                           (fusion_joints self ++ [(joint, true, children_prefix)]))
                      occurrence_asBuiltJoints self in
                  Some self
              end
          end
      end
  end.

(** [set([joint.child for joint in self.joints.values()])] *)
Definition links_with_parent_joints (self : SDF) : gset (option string) :=
  list_to_set (map (fun entry => Joint.child (snd entry)) (map_to_list (joints self))).

(** [set(self.links.keys()) - links_with_parent_joints] *)
Definition root_links (self : SDF) : gset string :=
  filter (fun link_name => Some link_name ∉ links_with_parent_joints self)
         (dom (links self)).

(** The selection of the root link in [parse_root_component]. *)
Definition select_root_link (self : SDF) : SDF :=
  let root_links := root_links self in
  if decide (size root_links = 0%nat) then log self LogNoRootLink
  else
    let self :=
      if decide (size root_links ≠ 1%nat)
      then log self (LogMultipleRootLinks root_links)
      else self in
    set_root_link self (Some (first_of root_links)).

(** The dummy link [base_link] and its joint, at the end of
    [parse_root_component]. *)
Definition base_link : Link.Link :=
  Link.Build "base_link" None ∅ ∅
    (Some (Link.BuildInertial Pose.init_default 1e-4 1e-9 0 0 1e-9 0 1e-9)).

Definition add_base_link (self : SDF) : SDF :=
  let self := set_links self (<["base_link" := base_link]> (links self)) in
  let self :=
    set_joints self
      (<["base_link_joint" :=
           Joint.init "base_link_joint" Joint.FIXED None (Some "base_link")
             (root_link self)]> (joints self)) in
  set_root_link self (Some "base_link").

(** The traversal and the joint resolution of [parse_root_component]. *)
Definition parse_components (self : SDF) : option SDF :=
  let root_component := Adsk.rootComponent (design self) in
  let self := set_name self (Some (normalize_name (Adsk.comp_name root_component))) in
  let self := log self (LogParseRootComponent (Adsk.comp_name root_component)) in
  match
    for_each
      (fun self rigid_group =>
         match add_rigid_group self Adsk.Matrix3D_create rigid_group "" with
         | Some (self, _) => Some self
         | None => None
         end)
      (Adsk.comp_rigidGroups root_component) self
  with
  | None => None
  | Some self =>
      match for_each (fun self occurrence => parse_occurrence self occurrence "")
              (Adsk.comp_occurrences root_component) self with
      | None => None
      | Some self =>
          match for_each (fun self joint => add_joint self joint false "")
                  (Adsk.comp_joints root_component) self with
          | None => None
          | Some self =>
              match for_each (fun self joint => add_joint self joint true "")
                      (Adsk.comp_asBuiltJoints root_component) self with
              | None => None
              | Some self =>
                  for_each
                    (fun self '(fusion_joint, as_built, prefix) =>
                       add_joint self fusion_joint as_built prefix)
                    (fusion_joints self) self
              end
          end
      end
  end.

(** The entries that the traversal of an occurrence appends to
    [fusion_joints]: those of the occurrences below it, then its own joints
    and its as-built joints, each with the prefix of its component. *)
Fixpoint deferred_joints (occurrence : Adsk.Occurrence) (prefix : string)
  {struct occurrence} : list (Adsk.Joint * bool * string) :=
  match occurrence with
  | Adsk.MkOccurrence occurrence_name _ _ _ _
      childOccurrences _ occurrence_joints occurrence_asBuiltJoints =>
      let children_prefix := prefix ++ normalize_name occurrence_name ++ "__" in
      concat (map (fun suboccurrence => deferred_joints suboccurrence children_prefix)
                childOccurrences)
      ++ map (fun joint => (joint, false, children_prefix)) occurrence_joints
      ++ map (fun joint => (joint, true, children_prefix)) occurrence_asBuiltJoints
  end.

(** The calls of [add_joint] of a build, in their order: the joints and the
    as-built joints of the root component, then the entries deferred by the
    traversal of its occurrences. *)
Definition design_joints (design : Adsk.Design) : list (Adsk.Joint * bool * string) :=
  let root_component := Adsk.rootComponent design in
  map (fun joint => (joint, false, "")) (Adsk.comp_joints root_component)
  ++ map (fun joint => (joint, true, "")) (Adsk.comp_asBuiltJoints root_component)
  ++ concat (map (fun occurrence => deferred_joints occurrence "")
               (Adsk.comp_occurrences root_component)).




Definition parse_root_component (self : SDF) : option SDF :=
  match parse_components self with
  | None => None
  | Some self => Some (add_base_link (select_root_link self))
  end.

(** [SDF(design)] *)
Definition new (design : Adsk.Design) : option SDF :=
  parse_root_component (init design).

End Builder.

(** [next(iter(s))] as the first element of the listing of the set: the
    instance used to run the builder. *)
Definition first_element (s : gset string) : string :=
  match elements s with
  | x :: _ => x
  | [] => ""
  end.

(** The names of the links that are not the child of any joint. *)
Definition links_without_parent_joint (self : SDF) : gset string :=
  filter (fun link_name =>
            forall joint_name joint,
              joints self !! joint_name = Some joint ->
              Joint.child joint <> Some link_name)
         (dom (links self)).

(** [self'] differs from [self] at most in its links, its attributes and
    its console. *)
Definition same_tables (self self' : SDF) : Prop :=
  design self' = design self
  /\ name self' = name self
  /\ joints self' = joints self
  /\ fusion_joints self' = fusion_joints self
  /\ occurrences_in_rigid_groups self' = occurrences_in_rigid_groups self
  /\ root_link self' = root_link self.

(** [self'] differs from [self] at most in its console. *)
Definition same_state (self self' : SDF) : Prop :=
  same_tables self self'
  /\ links self' = links self
  /\ attributes self' = attributes self.

(** [self'] differs from [self] at most in its joints and its console. *)
Definition same_but_joints (self self' : SDF) : Prop :=
  design self' = design self
  /\ name self' = name self
  /\ links self' = links self
  /\ fusion_joints self' = fusion_joints self
  /\ occurrences_in_rigid_groups self' = occurrences_in_rigid_groups self
  /\ root_link self' = root_link self
  /\ attributes self' = attributes self.


Section Serialise.

(** [d.values()], as in [Link]. *)
Variable dict_values : forall A : Type, gmap string A -> list A.

(** The body of the loop over the links in [to_sdf_string]: the root link
    was written first and is skipped. *)
Definition write_link (self : SDF) (link : Link.Link) (model_node : Xml.Element)
  : option Xml.Element :=
  if decide (Some (Link.name link) = root_link self) then Some model_node
  else Link.to_sdf_element dict_values link model_node.

(** [to_sdf_string()], up to [ET.tostring]: the tree of the [sdf] element.
    [None] is the [KeyError] of a root link that is no link, the exception
    of an element that cannot be written, or the [TypeError] of [ET.tostring]
    on a model without name. *)
Definition to_sdf_string (self : SDF) : option Xml.Element :=
  match name self with
  | None => None
  | Some model_name =>
      let sdf_node := Xml.Elem "sdf" [("version", "1.11")] None [] in
      let model_node := Xml.Elem "model" [("name", model_name)] None [] in
      match
        (match root_link self with
         | Some root =>
             match links self !! root with
             | Some link => Link.to_sdf_element dict_values link model_node
             | None => None
             end
         | None => Some model_node
         end)
      with
      | None => None
      | Some model_node =>
          match Link.write_all (write_link self) (dict_values _ (links self)) model_node with
          | None => None
          | Some model_node =>
              match Link.write_all Joint.to_sdf_element (dict_values _ (joints self))
                      model_node with
              | None => None
              | Some model_node => Some (Xml.append sdf_node model_node)
              end
          end
      end
  end.

End Serialise.

(** The values of a map in the order of its listing: the instance of
    [dict_values] used to run the serialiser. *)
Definition listed_values (A : Type) (m : gmap string A) : list A :=
  map snd (map_to_list m).

(** [dict_values] lists the values of every dict, each entry once. *)
Definition lists_values (dict_values : forall A : Type, gmap string A -> list A) : Prop :=
  forall (A : Type) (m : gmap string A), dict_values A m ≡ₚ map snd (map_to_list m).

(** A visual or collision element that [add_link] builds: its pose, if any,
    comes from the constructor, it has a geometry, and a box has a size. *)
Definition element_ok (e : Link.LinkElement) : Prop :=
  (forall p, Link.element_pose e = Some p -> Pose.constructed p)
  /\ exists g, Link.geometry e = Some g
       /\ (Link.geometry_type g = Link.BOX -> exists size, Link.size g = Some size).

Definition elements_ok (l : Link.Link) : Prop :=
  (forall k e, Link.visuals l !! k = Some e -> element_ok e)
  /\ (forall k e, Link.collisions l !! k = Some e -> element_ok e).

Definition link_ok (l : Link.Link) : Prop :=
  (forall p, Link.pose l = Some p -> Pose.constructed p)
  /\ (forall i, Link.inertial l = Some i -> Pose.constructed (Link.inertial_pose i))
  /\ elements_ok l.

(** Every link and every joint is stored under its own name, and the poses
    they hold come from the constructor. *)
Definition well_formed (self : SDF) : Prop :=
  (forall k l, links self !! k = Some l -> Link.name l = k /\ link_ok l)
  /\ (forall k j, joints self !! k = Some j ->
        Joint.name j = k /\ (forall p, Joint.pose j = Some p -> Pose.constructed p)).

(** The keys of the two tables are over [[a-z0-9_]], and so are the
    prefixes of the joints kept for later. *)
Definition names_normalized (self : SDF) : Prop :=
  (forall k, k ∈ dom (links self) -> Util.all_name_chars k = true)
  /\ (forall k, k ∈ dom (joints self) -> Util.all_name_chars k = true)
  /\ Forall (fun entry => Util.all_name_chars (snd entry) = true) (fusion_joints self).

(** What every step of the builder keeps: the design, the name and the root
    link; existing links and joints stay as they are. *)
Definition grows (self self' : SDF) : Prop :=
  design self' = design self
  /\ name self' = name self
  /\ root_link self' = root_link self
  /\ links self ⊆ links self'
  /\ joints self ⊆ joints self'.

(** A step of the builder under the prefix [prefix]: the tables grow and the
    two invariants are kept. *)
Definition keeps (prefix : string) (self self' : SDF) : Prop :=
  grows self self'
  /\ (well_formed self -> well_formed self')
  /\ (Util.all_name_chars prefix = true -> names_normalized self -> names_normalized self').

(** An element with the tag [tag] whose first attribute is the name [name]. *)
Definition named_element (tag name : string) (e : Xml.Element) : Prop :=
  Xml.tag e = tag /\ exists rest, Xml.attrib e = ("name", name) :: rest.

(** The tags of the children of an element. *)
Definition child_tags (e : Xml.Element) : list string := map Xml.tag (Xml.children e).

(** The [name] attribute of the children of an element that have the tag
    [tag]. *)
Definition child_names (tag : string) (e : Xml.Element) : list string :=
  omap (fun child =>
          if decide (Xml.tag child = tag)
          then snd <$> head (filter (fun a => fst a = "name") (Xml.attrib child))
          else None)
       (Xml.children e).

End SDF.


(** ** Designs used to run the builder *)

Module Scenario.
Local Open Scope R_scope.
Local Open Scope string_scope.

(** A quarter turn about z followed by the translation (1, 2, 3). *)
Definition quarter_turn : Transform.Transform :=
  Transform.Build [ [0; -1; 0; 1]; [1; 0; 0; 2]; [0; 0; 1; 3]; [0; 0; 0; 1] ].

(** A body with an axis-aligned bounding box of 2 x 4 x 6 cm at the origin. *)
Definition body : Adsk.BRepBody :=
  {| Adsk.body_name := "Body1";
     Adsk.orientedMinimumBoundingBox :=
       {| Adsk.centerPoint := (0, 0, 0);
          Adsk.height := 2; Adsk.width := 4; Adsk.length := 6;
          Adsk.heightDirection := (1, 0, 0);
          Adsk.widthDirection := (0, 1, 0);
          Adsk.lengthDirection := (0, 0, 1) |} |}.

Definition properties : Adsk.PhysicalProperties :=
  {| Adsk.centerOfMass := (0, 0, 0);
     Adsk.mass := 1;
     Adsk.inertia_valid := true;
     Adsk.moments := (1, 1, 1, 0, 0, 0) |}.

(** Three occurrences of the root component: two with a body, and one
    component that holds no body. *)
Definition arm : Adsk.Occurrence :=
  Adsk.MkOccurrence "Arm:1" 1 Adsk.Matrix3D_create [body] properties [] [] [] [].

Definition gripper : Adsk.Occurrence :=
  Adsk.MkOccurrence "Gripper:1" 2 Adsk.Matrix3D_create [body] properties [] [] [] [].

Definition frame : Adsk.Occurrence :=
  Adsk.MkOccurrence "Frame:1" 3 Adsk.Matrix3D_create [] properties [] [] [] [].

Definition reference (o : Adsk.Occurrence) : Adsk.OccurrenceRef :=
  {| Adsk.ref_name := Adsk.name o; Adsk.ref_id := Adsk.id o;
     Adsk.ref_bodies := Adsk.bRepBodies o |}.

(** A revolute joint about z whose minimum bound only is enabled; its
    first occurrence (the child) is [frame], its second (the parent) [arm]. *)
Definition rev1 : Adsk.Joint :=
  {| Adsk.joint_name := "Rev1";
     Adsk.jointMotion :=
       Adsk.RevoluteJointMotion (0, 0, 1)
         {| Adsk.isMinimumValueEnabled := true;
            Adsk.isMaximumValueEnabled := false;
            Adsk.minimumValue := -1;
            Adsk.maximumValue := 0 |};
     Adsk.occurrenceOne := Some (reference frame);
     Adsk.occurrenceTwo := Some (reference arm);
     Adsk.geometry_origin := Some (0, 0, 0) |}.

(** A slider joint along x whose bounds are both disabled, between the same
    occurrences. *)
Definition slide1 : Adsk.Joint :=
  {| Adsk.joint_name := "Slide1";
     Adsk.jointMotion :=
       Adsk.SliderJointMotion (1, 0, 0)
         {| Adsk.isMinimumValueEnabled := false;
            Adsk.isMaximumValueEnabled := false;
            Adsk.minimumValue := -5;
            Adsk.maximumValue := 20 |};
     Adsk.occurrenceOne := Some (reference frame);
     Adsk.occurrenceTwo := Some (reference arm);
     Adsk.geometry_origin := Some (100, 0, 0) |}.

(** A rigid group of the root component that holds [gripper]. *)
Definition gripper_group : Adsk.RigidGroup :=
  {| Adsk.group_name := "Gripper Group";
     Adsk.group_occurrences := [reference gripper];
     Adsk.temp_id := 9;
     Adsk.temp_properties := properties |}.

(** A design with the single occurrence [arm]. *)
Definition single_arm : Adsk.Design :=
  {| Adsk.designType := Adsk.DirectDesignType;
     Adsk.userParameters := ∅;
     Adsk.linkNameAttributes := ∅;
     Adsk.rootComponent :=
       {| Adsk.comp_name := "Robot";
          Adsk.comp_rigidGroups := [];
          Adsk.comp_occurrences := [arm];
          Adsk.comp_joints := [];
          Adsk.comp_asBuiltJoints := [] |} |}.

(** A design with the three occurrences and the joint. *)
Definition robot : Adsk.Design :=
  {| Adsk.designType := Adsk.DirectDesignType;
     Adsk.userParameters := ∅;
     Adsk.linkNameAttributes := ∅;
     Adsk.rootComponent :=
       {| Adsk.comp_name := "Robot";
          Adsk.comp_rigidGroups := [];
          Adsk.comp_occurrences := [arm; gripper; frame];
          Adsk.comp_joints := [rev1];
          Adsk.comp_asBuiltJoints := [] |} |}.

(** A revolute joint whose child is [gripper] and whose parent is [arm], and
    the design of these two occurrences and this joint. *)
Definition rev2 : Adsk.Joint :=
  {| Adsk.joint_name := "Rev2";
     Adsk.jointMotion :=
       Adsk.RevoluteJointMotion (0, 0, 1)
         {| Adsk.isMinimumValueEnabled := false;
            Adsk.isMaximumValueEnabled := false;
            Adsk.minimumValue := 0;
            Adsk.maximumValue := 0 |};
     Adsk.occurrenceOne := Some (reference gripper);
     Adsk.occurrenceTwo := Some (reference arm);
     Adsk.geometry_origin := Some (0, 0, 0) |}.


(** An occurrence without a body whose component holds [gripper], the
    joint [rev2] and the as-built joint [slide1]. *)
Definition hand : Adsk.Occurrence :=
  Adsk.MkOccurrence "Hand:1" 4 Adsk.Matrix3D_create [] properties [gripper] [] [rev2] [slide1].

(** The state of the builder on [robot] once its occurrences have their
    [link_name] attributes, before the joints are resolved. *)
Definition before_joints : SDF.SDF :=
  SDF.Build robot (Some "robot") ∅ ∅ [] ∅ None
    (<[3%N := "frame_1"]> (<[1%N := "arm_1"]> ∅)) [].

(** A state of the builder on [robot] that holds the link [arm_1] and the
    joint [rev1]. *)
Definition with_arm_and_joint : SDF.SDF :=
  SDF.Build robot (Some "robot")
    (<["arm_1" := Link.Build "arm_1" None ∅ ∅ None]> ∅)
    (<["rev1" := Joint.init "rev1" Joint.REVOLUTE None (Some "arm_1") (Some "frame_1")]> ∅)
    [] ∅ None (<[3%N := "frame_1"]> (<[1%N := "arm_1"]> ∅)) [].

End Scenario.


(** * Properties of [Transform] *)

(** Equality of two explicit lists, entry by entry. *)
Ltac list_eq :=
  repeat match goal with
         | |- _ :: _ = _ :: _ => f_equal
         end.

Section TransformFacts.
Import Transform.
Local Open Scope R_scope.

Lemma shape_4_4_inv (A : list (list R)) :
  shape 4 4 A ->
  exists a00 a01 a02 a03 a10 a11 a12 a13 a20 a21 a22 a23 a30 a31 a32 a33,
    A = [ [a00; a01; a02; a03]; [a10; a11; a12; a13];
          [a20; a21; a22; a23]; [a30; a31; a32; a33] ].
Proof.
  intros [Hlen Hrows].
  destruct A as [|r0 [|r1 [|r2 [|r3 [|]]]]]; try discriminate Hlen.
  repeat match goal with
         | H : Forall _ (_ :: _) |- _ => inversion H; subst; clear H
         end.
  repeat match goal with
         | H : length ?r = 4%nat |- _ =>
             is_var r; destruct r as [|? [|? [|? [|? [|]]]]]; try discriminate H; clear H
         end.
  repeat eexists.
Qed.

Lemma homogeneous_inv (T : Transform) :
  homogeneous T ->
  exists a00 a01 a02 a03 a10 a11 a12 a13 a20 a21 a22 a23,
    matrix T = [ [a00; a01; a02; a03]; [a10; a11; a12; a13];
                 [a20; a21; a22; a23]; [0; 0; 0; 1] ].
Proof.
  intros [Hs Hlast].
  destruct (shape_4_4_inv _ Hs)
    as (a00 & a01 & a02 & a03 & a10 & a11 & a12 & a13
        & a20 & a21 & a22 & a23 & a30 & a31 & a32 & a33 & HA).
  rewrite HA in Hlast. simpl in Hlast. rewrite HA, Hlast.
  repeat eexists.
Qed.

Lemma isclose_refl (a tol : R) : 0 <= tol -> isclose a a tol = true.
Proof.
  intros Htol. unfold isclose.
  destruct (Rle_dec _ _) as [|Hn]; [reflexivity|].
  exfalso. apply Hn.
  replace (a - a) with 0 by ring. rewrite Rabs_R0.
  eapply Rle_trans; [exact Htol | apply Rmax_r].
Qed.

Lemma eq_of_matrix_eq (T U : Transform) : matrix T = matrix U -> eq T U = true.
Proof.
  intros H. unfold eq. rewrite H.
  apply forallb_forall. intros i _. apply forallb_forall. intros j _.
  apply isclose_refl. lra.
Qed.

Lemma py_sum_4 (a b c d : R) : py_sum [a; b; c; d] = a + b + c + d.
Proof. unfold py_sum. simpl. ring. Qed.

Lemma py_sum_3 (a b c : R) : py_sum [a; b; c] = a + b + c.
Proof. unfold py_sum. simpl. ring. Qed.

(** The hypotheses of [rotation], as polynomial equations on the entries. *)
Lemma rotation_inv (a00 a01 a02 a03 a10 a11 a12 a13 a20 a21 a22 a23 : R)
  (r3 : list R) :
  rotation (Build [ [a00; a01; a02; a03]; [a10; a11; a12; a13];
                    [a20; a21; a22; a23]; r3 ]) ->
  a00 * a00 + a10 * a10 + a20 * a20 = 1 /\
  a01 * a01 + a11 * a11 + a21 * a21 = 1 /\
  a02 * a02 + a12 * a12 + a22 * a22 = 1 /\
  a00 * a01 + a10 * a11 + a20 * a21 = 0 /\
  a00 * a02 + a10 * a12 + a20 * a22 = 0 /\
  a01 * a02 + a11 * a12 + a21 * a22 = 0.
Proof.
  intros [Horth _].
  pose proof (Horth 0%nat 0%nat ltac:(lia) ltac:(lia)) as H00.
  pose proof (Horth 1%nat 1%nat ltac:(lia) ltac:(lia)) as H11.
  pose proof (Horth 2%nat 2%nat ltac:(lia) ltac:(lia)) as H22.
  pose proof (Horth 0%nat 1%nat ltac:(lia) ltac:(lia)) as H01.
  pose proof (Horth 0%nat 2%nat ltac:(lia) ltac:(lia)) as H02.
  pose proof (Horth 1%nat 2%nat ltac:(lia) ltac:(lia)) as H12.
  cbn in H00, H11, H22, H01, H02, H12.
  unfold py_sum in *. simpl in *.
  repeat split; lra.
Qed.

Lemma mul_inverse_matrix (T : Transform) :
  homogeneous T -> rotation T ->
  matrix (mul T (inverse T)) = identity_matrix
  /\ matrix (mul (inverse T) T) = identity_matrix.
Proof.
  intros Hh Hrot.
  destruct (homogeneous_inv _ Hh)
    as (a00 & a01 & a02 & a03 & a10 & a11 & a12 & a13
        & a20 & a21 & a22 & a23 & HA).
  destruct T as [m]. simpl in HA. subst m.
  apply rotation_inv in Hrot.
  destruct Hrot as (H00 & H11 & H22 & H01 & H02 & H12).
  split; cbn; rewrite ?py_sum_4, ?py_sum_3; unfold identity_matrix;
    list_eq; nsatz.
Qed.

(** C1.  For every homogeneous Transform [T] whose rotation block is
    orthonormal with determinant 1, [T * T.inverse()] and [T.inverse() * T]
    are equal to the identity Transform for [__eq__] (component-wise
    [isclose] with [abs_tol = 1e-6]); their matrices are the identity
    matrix, so [inverse] is the matrix inverse on rigid transforms. *)
Theorem inverse_law (T : Transform) :
  homogeneous T -> rotation T ->
  eq identity (mul T (inverse T)) = true
  /\ eq identity (mul (inverse T) T) = true
  /\ matrix (mul T (inverse T)) = identity_matrix
  /\ matrix (mul (inverse T) T) = identity_matrix.
Proof.
  intros Hh Hrot.
  destruct (mul_inverse_matrix T Hh Hrot) as [Hpost Hpre].
  repeat split; try assumption; apply eq_of_matrix_eq; symmetry; assumption.
Qed.

Lemma inverse_law_witness :
  let T := Build [ [0; -1; 0; 1]; [1; 0; 0; 2]; [0; 0; 1; 3]; [0; 0; 0; 1] ] in
  homogeneous T /\ rotation T
  /\ eq identity (mul T (inverse T)) = true
  /\ eq identity (mul (inverse T) T) = true
  /\ matrix (mul T (inverse T)) = identity_matrix
  /\ matrix (mul (inverse T) T) = identity_matrix.
Proof.
  intros T.
  assert (Hh : homogeneous T).
  { split; [split; [reflexivity | repeat constructor] | reflexivity]. }
  assert (Hr : rotation T).
  { split.
    - intros i j Hi Hj.
      destruct i as [|[|[|i]]]; [| | |lia];
        (destruct j as [|[|[|j]]]; [| | |lia]);
        cbn; unfold py_sum; simpl; lra.
    - unfold det3. cbn. lra. }
  split; [exact Hh|]. split; [exact Hr|].
  exact (inverse_law T Hh Hr).
Defined.

(** ** [atan2] *)

Lemma atan2_pos (y x : R) : 0 < x -> atan2 y x = atan (y / x).
Proof. intros H. unfold atan2. destruct (Rlt_dec 0 x); [reflexivity | contradiction]. Qed.

Lemma atan2_neg_nonneg (y x : R) : x < 0 -> 0 <= y -> atan2 y x = atan (y / x) + PI.
Proof.
  intros Hx Hy. unfold atan2.
  destruct (Rlt_dec 0 x); [lra|]. destruct (Rlt_dec x 0); [|lra].
  destruct (Rle_dec 0 y); [reflexivity | contradiction].
Qed.

Lemma atan2_neg_neg (y x : R) : x < 0 -> y < 0 -> atan2 y x = atan (y / x) - PI.
Proof.
  intros Hx Hy. unfold atan2.
  destruct (Rlt_dec 0 x); [lra|]. destruct (Rlt_dec x 0); [|lra].
  destruct (Rle_dec 0 y); [lra | reflexivity].
Qed.

Lemma atan2_zero_pos (y : R) : 0 < y -> atan2 y 0 = PI / 2.
Proof.
  intros Hy. unfold atan2.
  destruct (Rlt_dec 0 0); [lra|]. destruct (Rlt_dec 0 y); [reflexivity | contradiction].
Qed.

Lemma atan2_zero_neg (y : R) : y < 0 -> atan2 y 0 = - (PI / 2).
Proof.
  intros Hy. unfold atan2.
  destruct (Rlt_dec 0 0); [lra|]. destruct (Rlt_dec 0 y); [lra|].
  destruct (Rlt_dec y 0); [reflexivity | contradiction].
Qed.

Lemma atan2_zero_zero : atan2 0 0 = 0.
Proof.
  unfold atan2. destruct (Rlt_dec 0 0); [lra|]. reflexivity.
Qed.

(** [atan] of a scaled sine over the scaled cosine of an angle of the open
    right half plane. *)
Lemma atan_scaled_tan (k b s c : R) :
  k <> 0 -> - (PI / 2) < b < PI / 2 -> s = k * sin b -> c = k * cos b ->
  atan (s / c) = b.
Proof.
  intros Hk Hb -> ->.
  assert (Hc : 0 < cos b) by (apply cos_gt_0; lra).
  replace (k * sin b / (k * cos b)) with (tan b)
    by (unfold tan; field; split; lra).
  apply atan_tan. exact Hb.
Qed.

Lemma atan2_polar (k a : R) :
  0 < k -> - PI < a <= PI -> atan2 (k * sin a) (k * cos a) = a.
Proof.
  intros Hk [Hlo Hhi].
  pose proof PI_RGT_0 as Hpi.
  destruct (Rtotal_order a (- (PI / 2))) as [Ha | [Ha | Ha]].
  - (* third quadrant *)
    assert (Hs : sin a < 0) by (apply sin_lt_0_var; lra).
    assert (Hc : cos a < 0).
    { rewrite <- cos_neg. apply cos_lt_0; lra. }
    rewrite atan2_neg_neg by nra.
    rewrite (atan_scaled_tan (- k) (a + PI)); try lra.
    + rewrite neg_sin. ring.
    + rewrite neg_cos. ring.
  - subst a. rewrite cos_neg, sin_neg, cos_PI2, sin_PI2.
    replace (k * 0) with 0 by ring.
    apply atan2_zero_neg. lra.
  - destruct (Rtotal_order a (PI / 2)) as [Hb | [Hb | Hb]].
    + assert (Hc : 0 < cos a) by (apply cos_gt_0; lra).
      rewrite atan2_pos by nra.
      apply (atan_scaled_tan k); try lra.
    + subst a. rewrite cos_PI2, sin_PI2.
      replace (k * 0) with 0 by ring.
      apply atan2_zero_pos. lra.
    + assert (Hs : 0 <= sin a) by (apply sin_ge_0; lra).
      assert (Hc : cos a < 0) by (apply cos_lt_0; lra).
      rewrite atan2_neg_nonneg by nra.
      rewrite (atan_scaled_tan (- k) (a - PI)); try lra.
      * replace (sin a) with (sin (a - PI + PI)) by (f_equal; ring).
        rewrite neg_sin. ring.
      * replace (cos a) with (cos (a - PI + PI)) by (f_equal; ring).
        rewrite neg_cos. ring.
Qed.

(** ** The rotation block of [set_rotation_rpy] *)

Lemma rpy_matrix_entries (roll pitch yaw : R) :
  rpy_matrix roll pitch yaw =
  [ [ cos yaw * cos pitch;
      cos yaw * sin pitch * sin roll - sin yaw * cos roll;
      cos yaw * sin pitch * cos roll + sin yaw * sin roll ];
    [ sin yaw * cos pitch;
      sin yaw * sin pitch * sin roll + cos yaw * cos roll;
      sin yaw * sin pitch * cos roll - cos yaw * sin roll ];
    [ - sin pitch; cos pitch * sin roll; cos pitch * cos roll ] ].
Proof.
  unfold rpy_matrix. cbn. rewrite ?py_sum_3. list_eq; ring.
Qed.

Lemma rotation_block_set_rotation_rpy (T : Transform) (roll pitch yaw : R) :
  shape 4 4 (matrix T) ->
  rotation_block (set_rotation_rpy T roll pitch yaw) = rpy_matrix roll pitch yaw.
Proof.
  intros Hs.
  destruct (shape_4_4_inv _ Hs)
    as (a00 & a01 & a02 & a03 & a10 & a11 & a12 & a13
        & a20 & a21 & a22 & a23 & a30 & a31 & a32 & a33 & HA).
  destruct T as [m]. simpl in HA. subst m.
  unfold set_rotation_rpy. rewrite rpy_matrix_entries. reflexivity.
Qed.

(** ** Rigid transforms *)

Lemma rotation_of_entries (a00 a01 a02 a03 a10 a11 a12 a13 a20 a21 a22 a23 : R)
  (r3 : list R) :
  a00 * a00 + a10 * a10 + a20 * a20 = 1 ->
  a01 * a01 + a11 * a11 + a21 * a21 = 1 ->
  a02 * a02 + a12 * a12 + a22 * a22 = 1 ->
  a00 * a01 + a10 * a11 + a20 * a21 = 0 ->
  a00 * a02 + a10 * a12 + a20 * a22 = 0 ->
  a01 * a02 + a11 * a12 + a21 * a22 = 0 ->
  a00 * (a11 * a22 - a12 * a21) - a01 * (a10 * a22 - a12 * a20)
  + a02 * (a10 * a21 - a11 * a20) = 1 ->
  rotation (Build [ [a00; a01; a02; a03]; [a10; a11; a12; a13];
                    [a20; a21; a22; a23]; r3 ]).
Proof.
  intros H00 H11 H22 H01 H02 H12 Hdet. split.
  - intros i j Hi Hj.
    destruct i as [|[|[|i]]]; [| | |lia];
      (destruct j as [|[|[|j]]]; [| | |lia]);
      cbn; unfold py_sum; simpl; lra.
  - unfold det3. cbn. lra.
Qed.

Lemma rotation_det (a00 a01 a02 a03 a10 a11 a12 a13 a20 a21 a22 a23 : R)
  (r3 : list R) :
  rotation (Build [ [a00; a01; a02; a03]; [a10; a11; a12; a13];
                    [a20; a21; a22; a23]; r3 ]) ->
  a00 * (a11 * a22 - a12 * a21) - a01 * (a10 * a22 - a12 * a20)
  + a02 * (a10 * a21 - a11 * a20) = 1.
Proof. intros [_ Hdet]. unfold det3 in Hdet. cbn in Hdet. lra. Qed.

(** The transforms of the constructor are homogeneous with a rotation block
    that is a rotation, and [inverse] and [*] keep them so: the hypotheses of
    [inverse_law] hold of every transform the program computes. *)
Lemma init_rigid (t r : vec3) :
  homogeneous (init (Some t) (Some r) None) /\ rotation (init (Some t) (Some r) None).
Proof.
  destruct t as [[x y] z], r as [[roll pitch] yaw].
  unfold init, set_rotation_rpy. rewrite rpy_matrix_entries.
  cbn.
  pose proof (sin2_cos2 roll) as Hr. pose proof (sin2_cos2 pitch) as Hp.
  pose proof (sin2_cos2 yaw) as Hy. unfold Rsqr in *.
  split.
  - split; [split; [reflexivity | repeat constructor] | reflexivity].
  - apply rotation_of_entries; nsatz.
Qed.

Lemma inverse_rigid (T : Transform) :
  homogeneous T -> rotation T -> homogeneous (inverse T) /\ rotation (inverse T).
Proof.
  intros Hh Hrot.
  destruct (homogeneous_inv _ Hh)
    as (a00 & a01 & a02 & a03 & a10 & a11 & a12 & a13
        & a20 & a21 & a22 & a23 & HA).
  destruct T as [m]. simpl in HA. subst m.
  pose proof (rotation_det _ _ _ _ _ _ _ _ _ _ _ _ _ Hrot) as Hdet.
  apply rotation_inv in Hrot.
  destruct Hrot as (H00 & H11 & H22 & H01 & H02 & H12).
  cbn. split.
  - split; [split; [reflexivity | repeat constructor] | reflexivity].
  - apply rotation_of_entries; nsatz.
Qed.

Lemma mul_rigid (T U : Transform) :
  homogeneous T -> rotation T -> homogeneous U -> rotation U ->
  homogeneous (mul T U) /\ rotation (mul T U).
Proof.
  intros HhT HrT HhU HrU.
  destruct (homogeneous_inv _ HhT)
    as (a00 & a01 & a02 & a03 & a10 & a11 & a12 & a13
        & a20 & a21 & a22 & a23 & HA).
  destruct (homogeneous_inv _ HhU)
    as (b00 & b01 & b02 & b03 & b10 & b11 & b12 & b13
        & b20 & b21 & b22 & b23 & HB).
  destruct T as [m], U as [n]. simpl in HA, HB. subst m n.
  pose proof (rotation_det _ _ _ _ _ _ _ _ _ _ _ _ _ HrT) as HdetA.
  pose proof (rotation_det _ _ _ _ _ _ _ _ _ _ _ _ _ HrU) as HdetB.
  apply rotation_inv in HrT. apply rotation_inv in HrU.
  destruct HrT as (A00 & A11 & A22 & A01 & A02 & A12).
  destruct HrU as (B00 & B11 & B22 & B01 & B02 & B12).
  cbn. rewrite ?py_sum_4. split.
  - split; [split; [reflexivity | repeat constructor] |].
    cbn. list_eq; ring.
  - apply rotation_of_entries; nsatz.
Qed.

End TransformFacts.


(** * Roll-pitch-yaw round trip *)

Section RpyRoundTrip.
Import Transform.
Local Open Scope R_scope.

Lemma sin_cos_sq (x : R) : sin x * sin x + cos x * cos x = 1.
Proof. pose proof (sin2_cos2 x) as H. unfold Rsqr in H. exact H. Qed.

Lemma sqrt_sq_abs (x : R) : sqrt (x * x) = Rabs x.
Proof. apply (sqrt_Rsqr_abs x). Qed.

(** The [cos_pitch] computed by [get_rotation_rpy] on a matrix of
    [set_rotation_rpy]. *)
Lemma cos_pitch_rpy (pitch yaw : R) :
  sqrt ((cos yaw * cos pitch) ^ 2 + (sin yaw * cos pitch) ^ 2) = Rabs (cos pitch).
Proof.
  rewrite <- sqrt_sq_abs. f_equal.
  replace ((cos yaw * cos pitch) ^ 2 + (sin yaw * cos pitch) ^ 2)
    with (cos pitch * cos pitch * (sin yaw * sin yaw + cos yaw * cos yaw)) by ring.
  rewrite sin_cos_sq. ring.
Qed.

Lemma cos_pitch_rpy_nonneg (pitch yaw : R) :
  - (PI / 2) <= pitch <= PI / 2 ->
  sqrt ((cos yaw * cos pitch) ^ 2 + (sin yaw * cos pitch) ^ 2) = cos pitch.
Proof.
  intros [Hlo Hhi]. rewrite cos_pitch_rpy.
  apply Rabs_pos_eq. apply cos_ge_0; assumption.
Qed.

Lemma get_rotation_rpy_regular (T : Transform) (roll pitch yaw : R) :
  shape 4 4 (matrix T) ->
  - PI < roll <= PI -> - (PI / 2) <= pitch <= PI / 2 -> - PI < yaw <= PI ->
  1e-6 <= cos pitch ->
  get_rotation_rpy (set_rotation_rpy T roll pitch yaw) = Some (roll, pitch, yaw).
Proof.
  intros Hs Hr Hp Hy Hc.
  pose proof PI_RGT_0 as Hpi.
  unfold get_rotation_rpy.
  rewrite (rotation_block_set_rotation_rpy _ _ _ _ Hs), rpy_matrix_entries.
  cbn [cell nth].
  rewrite (cos_pitch_rpy_nonneg pitch yaw Hp).
  destruct (Rlt_dec (cos pitch) 1e-6) as [Hlt|_]; [lra|].
  assert (Hpitch : atan2 (- - sin pitch) (cos pitch) = pitch).
  { replace (- - sin pitch) with (1 * sin pitch) by ring.
    replace (cos pitch) with (1 * cos pitch) at 1 by ring.
    apply atan2_polar; lra. }
  assert (Hyaw : atan2 (sin yaw * cos pitch) (cos yaw * cos pitch) = yaw).
  { rewrite (Rmult_comm (sin yaw)), (Rmult_comm (cos yaw)).
    apply atan2_polar; lra. }
  assert (Hroll : atan2 (cos pitch * sin roll) (cos pitch * cos roll) = roll).
  { apply atan2_polar; lra. }
  rewrite Hpitch, Hyaw, Hroll. reflexivity.
Qed.

(** ** The singular branch *)

Lemma sqrt_one_plus_sq_ratio (y x : R) :
  x <> 0 -> sqrt (1 + (y / x)²) = sqrt (x * x + y * y) / Rabs x.
Proof.
  intros Hx.
  assert (Hxx : 0 < x * x) by nra.
  replace (1 + (y / x)²) with ((x * x + y * y) / (x * x))
    by (unfold Rsqr; field; exact Hx).
  rewrite sqrt_div; [| nra | exact Hxx].
  rewrite sqrt_sq_abs. reflexivity.
Qed.

Lemma sin_minus_PI (a : R) : sin (a - PI) = - sin a.
Proof.
  replace (sin a) with (sin (a - PI + PI)) by (f_equal; ring).
  rewrite neg_sin. ring.
Qed.

Lemma cos_minus_PI (a : R) : cos (a - PI) = - cos a.
Proof.
  replace (cos a) with (cos (a - PI + PI)) by (f_equal; ring).
  rewrite neg_cos. ring.
Qed.

Lemma atan2_sin_cos (y x : R) :
  0 < sqrt (x * x + y * y) ->
  sin (atan2 y x) = y / sqrt (x * x + y * y)
  /\ cos (atan2 y x) = x / sqrt (x * x + y * y).
Proof.
  intros Hn. set (n := sqrt (x * x + y * y)) in *.
  destruct (Rtotal_order x 0) as [Hx | [Hx | Hx]].
  - assert (Hs : sqrt (1 + (y / x)²) = n / - x).
    { rewrite sqrt_one_plus_sq_ratio by lra. rewrite Rabs_left by lra. reflexivity. }
    destruct (Rle_dec 0 y) as [Hy | Hy].
    + rewrite atan2_neg_nonneg by lra.
      rewrite neg_sin, neg_cos, sin_atan, cos_atan, Hs.
      split; field; split; lra.
    + rewrite atan2_neg_neg by lra.
      rewrite sin_minus_PI, cos_minus_PI, sin_atan, cos_atan, Hs.
      split; field; split; lra.
  - subst x.
    assert (Hny : n = Rabs y).
    { unfold n. replace (0 * 0 + y * y) with (y * y) by ring. apply sqrt_sq_abs. }
    destruct (Rtotal_order y 0) as [Hy | [Hy | Hy]].
    + rewrite atan2_zero_neg by lra.
      rewrite sin_neg, cos_neg, sin_PI2, cos_PI2, Hny, Rabs_left by lra.
      split; field; lra.
    + subst y. rewrite Hny, Rabs_R0 in Hn. lra.
    + rewrite atan2_zero_pos by lra.
      rewrite sin_PI2, cos_PI2, Hny, Rabs_right by lra.
      split; field; lra.
  - assert (Hs : sqrt (1 + (y / x)²) = n / x).
    { rewrite sqrt_one_plus_sq_ratio by lra. rewrite Rabs_right by lra. reflexivity. }
    rewrite atan2_pos by lra.
    rewrite sin_atan, cos_atan, Hs.
    split; field; split; lra.
Qed.

Lemma band_q_bounds (c2 n2 q : R) :
  0 <= c2 <= 1 / 2 -> 1 - c2 <= n2 <= 1 -> 0 < q -> q * q * n2 = 1 ->
  1 <= q <= 1 + 2 * c2.
Proof.
  intros Hc Hn Hq Hqn. split.
  - destruct (Rle_dec 1 q) as [H|H]; [exact H|]. exfalso. nra.
  - destruct (Rle_dec q (1 + 2 * c2)) as [H|H]; [exact H|]. exfalso.
    assert (H1 : (1 + 2 * c2) * (1 + 2 * c2) < q * q) by nra.
    assert (H2 : 1 <= (1 + 2 * c2) * (1 + 2 * c2) * (1 - c2)) by nra.
    nra.
Qed.

Lemma band_u_bounds (c2 u : R) :
  0 <= c2 <= 1 / 2 -> 0 < u -> u * u = 1 - c2 -> 1 - c2 <= u <= 1.
Proof. intros Hc Hu Huu. split; nra. Qed.

Lemma Rabs_le_1_of_sq (a b : R) : a * a + b * b <= 1 -> Rabs a <= 1.
Proof. intros H. apply Rabs_le. split; nra. Qed.

Lemma Rabs_mul_le (a b eps : R) : Rabs a <= 1 -> Rabs b <= eps -> Rabs (a * b) <= eps.
Proof.
  intros Ha Hb. rewrite Rabs_mult.
  pose proof (Rabs_pos a). pose proof (Rabs_pos b). nra.
Qed.

Lemma Rabs_mul3_le (a b c eps : R) :
  Rabs a <= 1 -> Rabs b <= 1 -> Rabs c <= eps -> Rabs (a * b * c) <= eps.
Proof.
  intros Ha Hb Hc. rewrite Rmult_assoc.
  apply Rabs_mul_le; [exact Ha|]. apply Rabs_mul_le; assumption.
Qed.

Lemma Rabs_add_le (a b ea eb : R) : Rabs a <= ea -> Rabs b <= eb -> Rabs (a + b) <= ea + eb.
Proof. intros Ha Hb. eapply Rle_trans; [apply Rabs_triang|]. lra. Qed.

(** The algebra of the singular branch: [c], [s] are the cosine and sine of
    the pitch, [sg] the sign of the sine, [q] the inverse of the norm of
    the pair given to [atan2], [sn], [cs] the sine and cosine of the
    extracted roll. *)
Lemma singular_band_bounds (sr cr s c sy cy sg q sn cs : R) :
  sr * sr + cr * cr = 1 -> s * s + c * c = 1 -> sy * sy + cy * cy = 1 ->
  0 <= c <= 2 / 5 ->
  (sg = 1 \/ sg = -1) -> 0 < sg * s ->
  0 < q ->
  q * q * (1 - c * c * (sr * sr)) = 1 ->
  sn = sg * (cy * s * sr - sy * cr) * q ->
  cs = (sy * s * sr + cy * cr) * q ->
  Rabs sn <= 1 -> Rabs cs <= 1 ->
  Rabs (1 * c - cy * c) <= 2 * c
  /\ Rabs (1 * s * sn - 0 * cs - (cy * s * sr - sy * cr)) <= 2 * c
  /\ Rabs (1 * s * cs + 0 * sn - (cy * s * cr + sy * sr)) <= 2 * c
  /\ Rabs (0 * c - sy * c) <= 2 * c
  /\ Rabs (0 * s * sn + 1 * cs - (sy * s * sr + cy * cr)) <= 2 * c
  /\ Rabs (0 * s * cs - 1 * sn - (sy * s * cr - cy * sr)) <= 2 * c
  /\ Rabs (- s - - s) <= 2 * c
  /\ Rabs (c * sn - c * sr) <= 2 * c
  /\ Rabs (c * cs - c * cr) <= 2 * c.
Proof.
  intros Hr Hp Hy Hc Hsg Hu Hq Hqn Hsn Hcs Hsn1 Hcs1.
  set (c2 := c * c).
  set (u := sg * s) in *.
  assert (Hc2 : 0 <= c2 <= 1 / 2) by (unfold c2; nra).
  assert (Hc2c : c2 <= c) by (unfold c2; nra).
  assert (Hsg2 : sg * sg = 1) by (destruct Hsg; subst sg; ring).
  assert (Huu : u * u = 1 - c2).
  { unfold u, c2. replace (sg * s * (sg * s)) with (sg * sg * (s * s)) by ring.
    rewrite Hsg2. lra. }
  assert (Hsr2 : 0 <= sr * sr <= 1) by nra.
  assert (Hn2 : 1 - c2 <= 1 - c * c * (sr * sr) <= 1) by (unfold c2; nra).
  destruct (band_q_bounds c2 _ q Hc2 Hn2 Hq Hqn) as [Hq1 Hq2].
  destruct (band_u_bounds c2 u Hc2 Hu Huu) as [Hu1 Hu2].
  assert (Asr : Rabs sr <= 1) by (apply (Rabs_le_1_of_sq sr cr); lra).
  assert (Acr : Rabs cr <= 1) by (apply (Rabs_le_1_of_sq cr sr); lra).
  assert (Asy : Rabs sy <= 1) by (apply (Rabs_le_1_of_sq sy cy); lra).
  assert (Acy : Rabs cy <= 1) by (apply (Rabs_le_1_of_sq cy sy); lra).
  assert (Asg : Rabs sg <= 1) by (destruct Hsg; subst sg; apply Rabs_le; lra).
  set (A := cy * s * sr - sy * cr) in *.
  set (B := sy * s * sr + cy * cr) in *.
  assert (HAB : A * A + B * B = 1 - c * c * (sr * sr)).
  { unfold A, B. nsatz. }
  assert (AA : Rabs A <= 1) by (apply (Rabs_le_1_of_sq A B); lra).
  assert (AB : Rabs B <= 1) by (apply (Rabs_le_1_of_sq B A); lra).
  assert (Euq : Rabs (u * q - 1) <= 2 * c2) by (apply Rabs_le; nra).
  assert (Eq1 : Rabs (q - 1) <= 2 * c2) by (apply Rabs_le; lra).
  assert (Euuq : Rabs (u * u * q - 1) <= 2 * c2) by (rewrite Huu; apply Rabs_le; nra).
  assert (Equ : Rabs (q - u) <= 3 * c2) by (apply Rabs_le; lra).
  assert (Ac : Rabs c <= c) by (rewrite Rabs_pos_eq; lra).
  assert (Hpoly : forall X Y : R,
             (sg = 1 -> X = Y) -> (sg = -1 -> X = Y) -> X = Y).
  { intros X Y H1 H2. destruct Hsg; auto. }
  repeat split.
  - replace (1 * c - cy * c) with (c + - cy * c) by ring.
    replace (2 * c) with (c + c) by ring.
    apply Rabs_add_le; [exact Ac|].
    apply Rabs_mul_le; [rewrite Rabs_Ropp; exact Acy | exact Ac].
  - replace (1 * s * sn - 0 * cs - A) with (A * (u * q - 1)).
    + apply Rabs_mul_le; [exact AA | lra].
    + rewrite Hsn. unfold u. apply Hpoly; intros ->; ring.
  - replace (1 * s * cs + 0 * sn - (cy * s * cr + sy * sr))
      with (sg * (cy * cr * (u * (q - 1))) + sy * sr * (u * u * q - 1)).
    + replace (2 * c) with (2 * c2 + 2 * c2 + (2 * c - 4 * c2)) by ring.
      eapply Rle_trans; [apply Rabs_add_le|].
      * apply Rabs_mul_le; [exact Asg|]. apply Rabs_mul3_le; [exact Acy | exact Acr |].
        instantiate (1 := 2 * c2).
        rewrite Rabs_mult. rewrite (Rabs_pos_eq u) by lra.
        pose proof (Rabs_pos (q - 1)). nra.
      * apply Rabs_mul3_le; [exact Asy | exact Asr | exact Euuq].
      * unfold c2. nra.
    + rewrite Hcs. unfold B, u. apply Hpoly; intros ->; ring.
  - replace (0 * c - sy * c) with (- sy * c) by ring.
    eapply Rle_trans; [apply Rabs_mul_le; [rewrite Rabs_Ropp; exact Asy | exact Ac]|]. lra.
  - replace (0 * s * sn + 1 * cs - B) with (B * (q - 1)) by (rewrite Hcs; ring).
    apply Rabs_mul_le; [exact AB | lra].
  - replace (0 * s * cs - 1 * sn - (sy * s * cr - cy * sr))
      with (cy * sr * (- (u * q - 1)) + sg * (sy * cr * (q - u))).
    + replace (2 * c) with (2 * c2 + 3 * c2 + (2 * c - 5 * c2)) by ring.
      eapply Rle_trans; [apply Rabs_add_le|].
      * apply Rabs_mul3_le; [exact Acy | exact Asr | rewrite Rabs_Ropp; exact Euq].
      * apply Rabs_mul_le; [exact Asg|]. apply Rabs_mul3_le; [exact Asy | exact Acr | exact Equ].
      * unfold c2. nra.
    + rewrite Hsn. unfold A, u. apply Hpoly; intros ->; ring.
  - replace (- s - - s) with 0 by ring. rewrite Rabs_R0. lra.
  - replace (c * sn - c * sr) with (sn * c + - sr * c) by ring.
    replace (2 * c) with (c + c) by ring.
    apply Rabs_add_le; apply Rabs_mul_le; rewrite ?Rabs_Ropp; assumption.
  - replace (c * cs - c * cr) with (cs * c + - cr * c) by ring.
    replace (2 * c) with (c + c) by ring.
    apply Rabs_add_le; apply Rabs_mul_le; rewrite ?Rabs_Ropp; assumption.
Qed.

Lemma shape_set_rotation_rpy (T : Transform) (roll pitch yaw : R) :
  shape 4 4 (matrix T) -> shape 4 4 (matrix (set_rotation_rpy T roll pitch yaw)).
Proof.
  intros Hs.
  destruct (shape_4_4_inv _ Hs)
    as (a00 & a01 & a02 & a03 & a10 & a11 & a12 & a13
        & a20 & a21 & a22 & a23 & a30 & a31 & a32 & a33 & HA).
  destruct T as [m]. simpl in HA. subst m.
  unfold set_rotation_rpy. rewrite rpy_matrix_entries.
  split; [reflexivity | repeat constructor].
Qed.

(** The roll extracted in the singular branch. *)
Lemma get_rotation_rpy_singular (T : Transform) (roll pitch yaw : R) :
  shape 4 4 (matrix T) ->
  - (PI / 2) <= pitch <= PI / 2 ->
  cos pitch < 1e-6 ->
  let A := cos yaw * sin pitch * sin roll - sin yaw * cos roll in
  let B := sin yaw * sin pitch * sin roll + cos yaw * cos roll in
  get_rotation_rpy (set_rotation_rpy T roll pitch yaw)
  = Some (if Rlt_dec 0 pitch then atan2 A B else atan2 (- A) B, pitch, 0).
Proof.
  intros Hs Hp Hc A B.
  unfold get_rotation_rpy.
  rewrite (rotation_block_set_rotation_rpy _ _ _ _ Hs), rpy_matrix_entries.
  cbn [cell nth].
  rewrite (cos_pitch_rpy_nonneg pitch yaw Hp).
  destruct (Rlt_dec (cos pitch) 1e-6) as [_|Hn]; [|contradiction].
  rewrite Ropp_involutive.
  unfold py_asin.
  pose proof (SIN_bound pitch) as [Hs1 Hs2].
  destruct (Rle_dec (-1) (sin pitch)) as [_|Hn]; [|contradiction].
  destruct (Rle_dec (sin pitch) 1) as [_|Hn]; [|contradiction].
  rewrite (asin_sin pitch Hp). reflexivity.
Qed.

Lemma singular_sign (pitch : R) :
  - (PI / 2) <= pitch <= PI / 2 -> cos pitch < 1e-6 ->
  (0 < pitch /\ 0 < sin pitch) \/ (~ 0 < pitch /\ sin pitch < 0).
Proof.
  intros [Hlo Hhi] Hc.
  pose proof PI_RGT_0 as Hpi.
  destruct (Rtotal_order pitch 0) as [Hneg | [Hz | Hpos]].
  - right. split; [lra|]. apply sin_lt_0_var; lra.
  - subst pitch. rewrite cos_0 in Hc. lra.
  - left. split; [exact Hpos|]. apply sin_gt_0; lra.
Qed.

Lemma rpy_singular_close (T : Transform) (roll pitch yaw : R) :
  shape 4 4 (matrix T) ->
  - (PI / 2) <= pitch <= PI / 2 ->
  cos pitch < 1e-6 ->
  exists roll' : R,
    get_rotation_rpy (set_rotation_rpy T roll pitch yaw) = Some (roll', pitch, 0)
    /\ block_close (2 * cos pitch)
         (rotation_block
            (set_rotation_rpy (set_rotation_rpy T roll pitch yaw) roll' pitch 0))
         (rotation_block (set_rotation_rpy T roll pitch yaw)).
Proof.
  intros Hs Hp Hc.
  pose proof (get_rotation_rpy_singular T roll pitch yaw Hs Hp Hc) as Hget.
  cbv zeta in Hget.
  set (A := cos yaw * sin pitch * sin roll - sin yaw * cos roll) in *.
  set (B := sin yaw * sin pitch * sin roll + cos yaw * cos roll) in *.
  set (sg := if Rlt_dec 0 pitch then 1 else -1).
  set (rho := if Rlt_dec 0 pitch then atan2 A B else atan2 (- A) B) in *.
  exists rho. split; [exact Hget|].
  assert (Hc0 : 0 <= cos pitch) by (apply cos_ge_0; lra).
  assert (Hrho : rho = atan2 (sg * A) B).
  { unfold rho, sg. destruct (Rlt_dec 0 pitch); f_equal; ring. }
  assert (Hsg : sg = 1 \/ sg = -1).
  { unfold sg. destruct (Rlt_dec 0 pitch); [left | right]; reflexivity. }
  assert (Hu : 0 < sg * sin pitch).
  { unfold sg. destruct (singular_sign pitch Hp Hc) as [[H1 H2] | [H1 H2]];
      destruct (Rlt_dec 0 pitch); try contradiction; lra. }
  pose proof (sin_cos_sq roll) as Hr2.
  pose proof (sin_cos_sq pitch) as Hp2.
  pose proof (sin_cos_sq yaw) as Hy2.
  assert (Hnn : B * B + sg * A * (sg * A)
                = 1 - cos pitch * cos pitch * (sin roll * sin roll)).
  { replace (sg * A * (sg * A)) with (A * A)
      by (destruct Hsg as [-> | ->]; ring).
    unfold A, B. nsatz. }
  set (n := sqrt (B * B + sg * A * (sg * A))).
  assert (Hsr : 0 <= sin roll * sin roll <= 1) by nra.
  assert (Hn2 : 0 < B * B + sg * A * (sg * A)) by (rewrite Hnn; nra).
  assert (Hn : 0 < n) by (apply sqrt_lt_R0; exact Hn2).
  assert (Hnsq : n * n = 1 - cos pitch * cos pitch * (sin roll * sin roll)).
  { unfold n. rewrite sqrt_sqrt by lra. exact Hnn. }
  destruct (atan2_sin_cos (sg * A) B Hn) as [Hsin Hcos].
  fold n in Hsin, Hcos. rewrite <- Hrho in Hsin, Hcos.
  pose proof (singular_band_bounds
                (sin roll) (cos roll) (sin pitch) (cos pitch) (sin yaw) (cos yaw)
                sg (/ n) (sin rho) (cos rho)) as Hb.
  assert (Hq : / n * / n * (1 - cos pitch * cos pitch * (sin roll * sin roll)) = 1).
  { rewrite <- Hnsq. field. lra. }
  specialize (Hb Hr2 Hp2 Hy2 ltac:(lra) Hsg Hu ltac:(apply Rinv_0_lt_compat; exact Hn) Hq).
  specialize (Hb ltac:(rewrite Hsin; unfold A; field; lra)
                 ltac:(rewrite Hcos; unfold B; field; lra)).
  specialize (Hb ltac:(apply Rabs_le; apply SIN_bound)
                 ltac:(apply Rabs_le; apply COS_bound)).
  destruct Hb as (b00 & b01 & b02 & b10 & b11 & b12 & b20 & b21 & b22).
  intros i j Hi Hj.
  rewrite (rotation_block_set_rotation_rpy _ _ _ _ (shape_set_rotation_rpy _ _ _ _ Hs)).
  rewrite (rotation_block_set_rotation_rpy _ _ _ _ Hs).
  rewrite !rpy_matrix_entries. rewrite cos_0, sin_0.
  destruct i as [|[|[|i]]]; [| | |lia];
    (destruct j as [|[|[|j]]]; [| | |lia]); cbn [cell nth]; assumption.
Qed.

(** C2 (amended).  For every triple of the principal ranges, outside the
    singular branch ([cos_pitch >= 1e-6]) [get_rotation_rpy] after
    [set_rotation_rpy] returns the same triple; in the singular branch
    ([cos_pitch < 1e-6]) the extracted angles give back the rotation matrix
    up to [2 * cos_pitch] in every entry: less than 2e-6, and the same matrix
    when the pitch is exactly a right angle. *)
Theorem rpy_round_trip (T : Transform) (roll pitch yaw : R) :
  shape 4 4 (matrix T) ->
  - PI < roll <= PI -> - (PI / 2) <= pitch <= PI / 2 -> - PI < yaw <= PI ->
  let T' := set_rotation_rpy T roll pitch yaw in
  let cos_pitch :=
    sqrt (cell (rotation_block T') 0 0 ^ 2 + cell (rotation_block T') 1 0 ^ 2) in
  (1e-6 <= cos_pitch -> get_rotation_rpy T' = Some (roll, pitch, yaw))
  /\ (cos_pitch < 1e-6 ->
      2 * cos_pitch < 2e-6
      /\ exists roll' pitch' yaw' : R,
           get_rotation_rpy T' = Some (roll', pitch', yaw')
           /\ block_close (2 * cos_pitch)
                (rotation_block (set_rotation_rpy T' roll' pitch' yaw'))
                (rotation_block T')).
Proof.
  intros Hs Hr Hp Hy T' cos_pitch.
  assert (Hcp : cos_pitch = cos pitch).
  { unfold cos_pitch, T'.
    rewrite (rotation_block_set_rotation_rpy _ _ _ _ Hs), rpy_matrix_entries.
    cbn [cell nth]. apply cos_pitch_rpy_nonneg. exact Hp. }
  rewrite Hcp. split.
  - intros Hc. apply get_rotation_rpy_regular; assumption.
  - intros Hc. split; [lra|].
    destruct (rpy_singular_close T roll pitch yaw Hs Hp Hc) as (roll' & Hget & Hclose).
    exists roll', pitch, 0. split; assumption.
Qed.

Lemma rpy_round_trip_witness :
  shape 4 4 (matrix identity)
  /\ - PI < 0 <= PI /\ - (PI / 2) <= 0 <= PI / 2 /\ - PI < 0 <= PI
  /\ let T' := set_rotation_rpy identity 0 0 0 in
     let cos_pitch :=
       sqrt (cell (rotation_block T') 0 0 ^ 2 + cell (rotation_block T') 1 0 ^ 2) in
     (1e-6 <= cos_pitch -> get_rotation_rpy T' = Some (0, 0, 0))
     /\ (cos_pitch < 1e-6 ->
         2 * cos_pitch < 2e-6
         /\ exists roll' pitch' yaw' : R,
              get_rotation_rpy T' = Some (roll', pitch', yaw')
              /\ block_close (2 * cos_pitch)
                   (rotation_block (set_rotation_rpy T' roll' pitch' yaw'))
                   (rotation_block T')).
Proof.
  pose proof PI_RGT_0 as Hpi.
  assert (Hs : shape 4 4 (matrix identity))
    by (split; [reflexivity | repeat constructor]).
  assert (H1 : - PI < 0 <= PI) by lra.
  assert (H2 : - (PI / 2) <= 0 <= PI / 2) by lra.
  split; [exact Hs|]. split; [exact H1|]. split; [exact H2|]. split; [exact H1|].
  exact (rpy_round_trip identity 0 0 0 Hs H1 H2 H1).
Defined.

(** C2 as stated fails in the singular branch: for roll 0, pitch
    [acos 9e-7] and yaw [PI] the branch is taken ([cos_pitch] is 9e-7), the
    extracted angles are [(PI, pitch, 0)], and the matrix they give differs
    from the original by 1.8e-6 in entry (0, 0). *)
Lemma rpy_round_trip_counterexample :
  let pitch := acos 9e-7 in
  let T := set_rotation_rpy identity 0 pitch PI in
  (- PI < 0 <= PI /\ - (PI / 2) <= pitch <= PI / 2 /\ - PI < PI <= PI)
  /\ sqrt (cell (rotation_block T) 0 0 ^ 2 + cell (rotation_block T) 1 0 ^ 2) < 1e-6
  /\ get_rotation_rpy T = Some (PI, pitch, 0)
  /\ ~ block_close 1e-6 (rotation_block (set_rotation_rpy T PI pitch 0))
                        (rotation_block T).
Proof.
  intros pitch T.
  pose proof PI_RGT_0 as Hpi.
  assert (Hs : shape 4 4 (matrix identity))
    by (split; [reflexivity | repeat constructor]).
  assert (Hcos : cos pitch = 9e-7) by (apply cos_acos; lra).
  assert (Hp : - (PI / 2) <= pitch <= PI / 2).
  { destruct (acos_bound 9e-7) as [Hlo Hhi]. fold pitch in Hlo, Hhi.
    split; [lra|].
    destruct (Rle_dec pitch (PI / 2)) as [H|H]; [exact H|]. exfalso.
    assert (Hneg : cos pitch < 0) by (apply cos_lt_0; lra). lra. }
  assert (Hc : cos pitch < 1e-6) by lra.
  assert (Hpos : 0 < pitch).
  { destruct (singular_sign pitch Hp Hc) as [[H _] | [_ H]]; [exact H|].
    exfalso. assert (0 <= sin pitch); [|lra].
    apply sin_ge_0; [apply acos_bound | lra]. }
  split; [repeat split; lra|]. split.
  - unfold T. rewrite (rotation_block_set_rotation_rpy _ _ _ _ Hs), rpy_matrix_entries.
    cbn [cell nth]. rewrite (cos_pitch_rpy_nonneg pitch PI Hp). exact Hc.
  - assert (Hget : get_rotation_rpy T = Some (PI, pitch, 0)).
    { unfold T. rewrite (get_rotation_rpy_singular identity 0 pitch PI Hs Hp Hc).
      destruct (Rlt_dec 0 pitch) as [_|Hn]; [|contradiction].
      rewrite sin_0, cos_0, sin_PI, cos_PI.
      replace (-1 * sin pitch * 0 - 0 * 1) with 0 by ring.
      replace (0 * sin pitch * 0 + -1 * 1) with (-1) by ring.
      rewrite atan2_neg_nonneg by lra.
      replace (0 / -1) with 0 by field. rewrite atan_0.
      f_equal. f_equal. f_equal. ring. }
    split; [exact Hget|].
    intros Hclose.
    specialize (Hclose 0%nat 0%nat ltac:(lia) ltac:(lia)).
    unfold T in Hclose.
    rewrite (rotation_block_set_rotation_rpy _ _ _ _ (shape_set_rotation_rpy _ _ _ _ Hs))
      in Hclose.
    rewrite (rotation_block_set_rotation_rpy _ _ _ _ Hs) in Hclose.
    rewrite !rpy_matrix_entries in Hclose. cbn [cell nth] in Hclose.
    rewrite cos_0, cos_PI, Hcos in Hclose.
    replace (1 * 9e-7 - -1 * 9e-7) with 1.8e-6 in Hclose by lra.
    rewrite Rabs_pos_eq in Hclose by lra. lra.
Qed.

End RpyRoundTrip.


(** * Properties of [Util] and [Pose] *)

Section UtilFacts.
Import Transform.
Local Open Scope R_scope.

(** C5.  [world_inertia_to_com_inertia] shifts the six inertia terms term by
    term (parallel-axis theorem), and gives [(1, -1, -1, 0, 0, 0)] for mass 2,
    centre of mass [(1, 0, 0)] and inertia [(1, 1, 1, 0, 0, 0)]. *)
Theorem world_inertia_to_com_inertia_spec :
  (forall xx yy zz xy yz xz x y z mass : R,
     Util.world_inertia_to_com_inertia [xx; yy; zz; xy; yz; xz] (x, y, z) mass
     = [ xx - mass * (y ^ 2 + z ^ 2);
         yy - mass * (x ^ 2 + z ^ 2);
         zz - mass * (x ^ 2 + y ^ 2);
         xy + mass * x * y;
         yz + mass * y * z;
         xz + mass * x * z ])
  /\ Util.world_inertia_to_com_inertia [1; 1; 1; 0; 0; 0] (1, 0, 0) 2
     = [1; -1; -1; 0; 0; 0].
Proof.
  split.
  - intros. unfold Util.world_inertia_to_com_inertia. cbn [combine map].
    list_eq; ring.
  - unfold Util.world_inertia_to_com_inertia. cbn [combine map].
    list_eq; ring.
Qed.

(** ** Roll-pitch-yaw extraction *)

Lemma get_rotation_rpy_convention (T : Transform) :
  let Rm := rotation_block T in
  let s := sqrt (cell Rm 0 0 ^ 2 + cell Rm 1 0 ^ 2) in
  get_rotation_rpy T =
  if Rlt_dec s 1e-6
  then if Rle_dec (-1) (- cell Rm 2 0)
       then if Rle_dec (- cell Rm 2 0) 1 then Some (Util.rpy_convention Rm) else None
       else None
  else Some (Util.rpy_convention Rm).
Proof.
  intros Rm s. unfold get_rotation_rpy, Util.rpy_convention, py_asin.
  fold Rm. fold s.
  destruct (Rlt_dec s 1e-6); [|reflexivity].
  destruct (Rle_dec (-1) (- cell Rm 2 0)); [|reflexivity].
  destruct (Rle_dec (- cell Rm 2 0) 1); reflexivity.
Qed.

Lemma matrix3d_to_rpy_branches (m : Adsk.Matrix3D) :
  let Rm := Util.rotation_cells m in
  let s := sqrt (cell Rm 0 0 ^ 2 + cell Rm 1 0 ^ 2) in
  Util.matrix3d_to_rpy m =
  if Rlt_dec s 1e-6
  then (atan2 (- cell Rm 1 2) (cell Rm 1 1), atan2 (- cell Rm 2 0) s, 0)
  else Util.rpy_convention Rm.
Proof.
  intros Rm s. unfold Util.matrix3d_to_rpy, Util.rpy_convention.
  fold Rm. fold s.
  destruct (Rlt_dec s 1e-6); reflexivity.
Qed.

Lemma asin_pos (x : R) : 0 < x <= 1 -> 0 < asin x.
Proof.
  intros [H0 H1].
  destruct (Rlt_dec 0 (asin x)) as [H|H]; [exact H|]. exfalso.
  pose proof (asin_bound x) as [Hlo Hhi].
  pose proof PI_RGT_0 as Hpi.
  assert (Hs : sin (asin x) <= 0).
  { destruct (Req_dec (asin x) 0) as [E|E].
    - rewrite E, sin_0. lra.
    - left. apply sin_lt_0_var; lra. }
  rewrite sin_asin in Hs by lra. lra.
Qed.

Lemma matrix3d_to_rpy_gimbal_lock (m : Adsk.Matrix3D) (roll pitch yaw : R) :
  Util.rotation_cells m = rpy_matrix roll pitch yaw ->
  pitch = PI / 2 \/ pitch = - (PI / 2) ->
  Util.matrix3d_to_rpy m = Util.rpy_convention (Util.rotation_cells m).
Proof.
  intros Hm Hp.
  pose proof PI_RGT_0 as Hpi.
  rewrite matrix3d_to_rpy_branches. unfold Util.rpy_convention.
  rewrite Hm, rpy_matrix_entries. cbn [cell nth].
  assert (Hc : cos pitch = 0).
  { destruct Hp as [-> | ->]; [|rewrite cos_neg]; apply cos_PI2. }
  rewrite Hc.
  replace ((cos yaw * 0) ^ 2 + (sin yaw * 0) ^ 2) with 0 by ring.
  rewrite sqrt_0.
  destruct (Rlt_dec 0 1e-6) as [_|Hn]; [|lra].
  rewrite Ropp_involutive.
  destruct Hp as [-> | ->].
  - rewrite sin_PI2, asin_1.
    destruct (Rlt_dec 0 (PI / 2)) as [_|Hn]; [|lra].
    rewrite atan2_zero_pos by lra.
    f_equal. f_equal. f_equal; ring.
  - rewrite sin_neg, sin_PI2, asin_opp, asin_1.
    destruct (Rlt_dec 0 (- (PI / 2))) as [Hn|_]; [lra|].
    rewrite atan2_zero_neg by lra.
    f_equal. f_equal. f_equal; ring.
Qed.

(** C3 (amended).  [Transform.get_rotation_rpy] uses the two-branch
    convention of the specification ([Util.rpy_convention]; it raises where
    [asin] is undefined).  [matrix3d_to_rpy] uses its regular branch, and in
    the singular branch ([s < 1e-6]) takes
    [roll = atan2(-R12, R11)], [pitch = atan2(-R20, s)], [yaw = 0]; the two
    agree on the matrices of [set_rotation_rpy] whose pitch is exactly a right
    angle. *)
Theorem rpy_extraction_conventions :
  (forall T : Transform,
     let Rm := rotation_block T in
     let s := sqrt (cell Rm 0 0 ^ 2 + cell Rm 1 0 ^ 2) in
     get_rotation_rpy T =
     if Rlt_dec s 1e-6
     then if Rle_dec (-1) (- cell Rm 2 0)
          then if Rle_dec (- cell Rm 2 0) 1 then Some (Util.rpy_convention Rm) else None
          else None
     else Some (Util.rpy_convention Rm))
  /\ (forall m : Adsk.Matrix3D,
        let Rm := Util.rotation_cells m in
        let s := sqrt (cell Rm 0 0 ^ 2 + cell Rm 1 0 ^ 2) in
        Util.matrix3d_to_rpy m =
        if Rlt_dec s 1e-6
        then (atan2 (- cell Rm 1 2) (cell Rm 1 1), atan2 (- cell Rm 2 0) s, 0)
        else Util.rpy_convention Rm)
  /\ (forall (m : Adsk.Matrix3D) (roll pitch yaw : R),
        Util.rotation_cells m = rpy_matrix roll pitch yaw ->
        pitch = PI / 2 \/ pitch = - (PI / 2) ->
        Util.matrix3d_to_rpy m = Util.rpy_convention (Util.rotation_cells m)).
Proof.
  split; [exact get_rotation_rpy_convention|].
  split; [exact matrix3d_to_rpy_branches | exact matrix3d_to_rpy_gimbal_lock].
Qed.

(** The matrix of roll 0, pitch pi/2, yaw 0: both extractions agree on it. *)
Lemma rpy_extraction_conventions_witness :
  let m := matrix (set_rotation_rpy identity 0 (PI / 2) 0) in
  Util.rotation_cells m = rpy_matrix 0 (PI / 2) 0
  /\ Util.matrix3d_to_rpy m = Util.rpy_convention (Util.rotation_cells m).
Proof.
  cbv zeta.
  assert (Hm : Util.rotation_cells (matrix (set_rotation_rpy identity 0 (PI / 2) 0))
               = rpy_matrix 0 (PI / 2) 0).
  { rewrite rpy_matrix_entries. unfold set_rotation_rpy. rewrite rpy_matrix_entries.
    reflexivity. }
  split; [exact Hm|].
  destruct rpy_extraction_conventions as (_ & _ & Hlock).
  exact (Hlock _ 0 (PI / 2) 0 Hm (or_introl eq_refl)).
Defined.

(** C3 as stated fails for [matrix3d_to_rpy]: on the rotation matrix
    [Ry(pitch) * Rx(roll)] with [sin roll = 3/5], [cos roll = 4/5],
    [cos pitch = 20000000/100000000000001] (singular branch) it returns the
    roll [atan(3/4)], where the convention of the specification gives
    [atan(3/4 * sin pitch)]. *)
Lemma matrix3d_to_rpy_counterexample :
  let c := 20000000 / 100000000000001 in
  let s := 99999999999999 / 100000000000001 in
  let m := [ [c; s * (3 / 5); s * (4 / 5); 0];
             [0; 4 / 5; - (3 / 5); 0];
             [- s; c * (3 / 5); c * (4 / 5); 0];
             [0; 0; 0; 1] ] in
  rotation (Build m)
  /\ Util.matrix3d_to_rpy m = (atan (3 / 4), atan2 s c, 0)
  /\ Util.rpy_convention (Util.rotation_cells m) = (atan (3 / 4 * s), asin s, 0)
  /\ Util.matrix3d_to_rpy m <> Util.rpy_convention (Util.rotation_cells m).
Proof.
  intros c s m.
  assert (Hc : 0 < c < 1e-6) by (unfold c; lra).
  assert (Hs : 0 < s < 1) by (unfold s; lra).
  assert (Hsqrt : sqrt (c ^ 2 + 0 ^ 2) = c).
  { replace (c ^ 2 + 0 ^ 2) with (c * c) by ring. apply sqrt_square. lra. }
  assert (H3d : Util.matrix3d_to_rpy m = (atan (3 / 4), atan2 s c, 0)).
  { rewrite matrix3d_to_rpy_branches. cbn [Util.rotation_cells map seq cell nth Adsk.getCell m].
    rewrite Hsqrt. destruct (Rlt_dec c 1e-6) as [_|Hn]; [|lra].
    rewrite Ropp_involutive, Ropp_involutive.
    rewrite atan2_pos by lra.
    replace (3 / 5 / (4 / 5)) with (3 / 4) by field. reflexivity. }
  assert (Hconv : Util.rpy_convention (Util.rotation_cells m)
                  = (atan (3 / 4 * s), asin s, 0)).
  { unfold Util.rpy_convention.
    cbn [Util.rotation_cells map seq cell nth Adsk.getCell m].
    rewrite Hsqrt. destruct (Rlt_dec c 1e-6) as [_|Hn]; [|lra].
    rewrite Ropp_involutive.
    destruct (Rlt_dec 0 (asin s)) as [_|Hn]; [|exfalso; apply Hn; apply asin_pos; lra].
    rewrite atan2_pos by lra.
    replace (s * (3 / 5) / (4 / 5)) with (3 / 4 * s) by field. reflexivity. }
  split; [|split; [exact H3d | split; [exact Hconv|]]].
  - split.
    + intros i j Hi Hj.
      destruct i as [|[|[|i]]]; [| | |lia];
        (destruct j as [|[|[|j]]]; [| | |lia]);
        cbn; unfold py_sum; simpl; unfold c, s; field.
    + unfold det3. cbn. unfold c, s. field.
  - rewrite H3d, Hconv. intros E.
    assert (E1 : atan (3 / 4) = atan (3 / 4 * s)) by congruence.
    assert (Hlt : atan (3 / 4 * s) < atan (3 / 4)) by (apply atan_increasing; lra).
    lra.
Qed.


(** ** Poses *)

Lemma shape_set_translation (T : Transform) (t : vec3) :
  shape 4 4 (matrix T) -> shape 4 4 (matrix (set_translation T t)).
Proof.
  intros Hs.
  destruct (shape_4_4_inv _ Hs)
    as (a00 & a01 & a02 & a03 & a10 & a11 & a12 & a13
        & a20 & a21 & a22 & a23 & a30 & a31 & a32 & a33 & HA).
  destruct T as [m]. simpl in HA. subst m. destruct t as [[x y] z].
  split; [reflexivity | repeat constructor].
Qed.

Lemma shape_identity_matrix : shape 4 4 identity_matrix.
Proof. split; [reflexivity | repeat constructor]. Qed.

Lemma get_translation_init (t r : vec3) :
  get_translation (init (Some t) (Some r) None) = t.
Proof.
  destruct t as [[x y] z], r as [[roll pitch] yaw].
  unfold init, set_rotation_rpy. rewrite rpy_matrix_entries. reflexivity.
Qed.

Lemma rotation_block_init (t : vec3) (roll pitch yaw : R) :
  rotation_block (init (Some t) (Some (roll, pitch, yaw)) None)
  = rpy_matrix roll pitch yaw.
Proof.
  unfold init. apply rotation_block_set_rotation_rpy.
  apply shape_set_translation, shape_identity_matrix.
Qed.

(** [get_rotation_rpy] does not raise on a matrix whose first column has
    norm at most 1. *)
Lemma get_rotation_rpy_is_Some (T : Transform) :
  -1 <= cell (rotation_block T) 2 0 <= 1 ->
  exists rotation, get_rotation_rpy T = Some rotation.
Proof.
  intros [Hlo Hhi]. rewrite get_rotation_rpy_convention. cbv zeta.
  destruct (Rlt_dec _ _); [|eauto].
  destruct (Rle_dec (-1) (- cell (rotation_block T) 2 0)) as [_|Hn]; [|lra].
  destruct (Rle_dec (- cell (rotation_block T) 2 0) 1) as [_|Hn]; [|lra].
  eauto.
Qed.

Lemma get_rotation_rpy_init (t r : vec3) :
  exists rotation, get_rotation_rpy (init (Some t) (Some r) None) = Some rotation.
Proof.
  destruct r as [[roll pitch] yaw].
  apply get_rotation_rpy_is_Some.
  rewrite rotation_block_init, rpy_matrix_entries. cbn [cell nth].
  pose proof (SIN_bound pitch). lra.
Qed.

Lemma forallb_Rlt (values : list R) :
  forallb (fun v => if Rlt_dec (Rabs v) 1e-6 then true else false) values = true
  <-> Forall (fun v => Rabs v < 1e-6) values.
Proof.
  rewrite forallb_forall, List.Forall_forall. split; intros H v Hv.
  - specialize (H v Hv). destruct (Rlt_dec (Rabs v) 1e-6); [assumption | discriminate].
  - specialize (H v Hv). destruct (Rlt_dec (Rabs v) 1e-6); [reflexivity | contradiction].
Qed.

Lemma pose_to_sdf_element_cases (p : Pose.Pose) (node : Xml.Element) :
  match get_rotation_rpy (Pose.transform p) with
  | None => Pose.to_sdf_element p node = None
  | Some rotation =>
      let values := vec3_list (get_translation (Pose.transform p)) ++ vec3_list rotation in
      length values = 6%nat
      /\ (Forall (fun v => Rabs v < 1e-6) values ->
          Pose.to_sdf_element p node = Some node)
      /\ (~ Forall (fun v => Rabs v < 1e-6) values ->
          Pose.to_sdf_element p node
          = Some (Xml.append node
                    (Xml.Elem "pose"
                       match Pose.relative_to p with
                       | Some EmptyString => []
                       | Some frame => [("relative_to"%string, frame)]
                       | None => []
                       end
                       (Some (Xml.TFloats values)) [])))
  end.
Proof.
  unfold Pose.to_sdf_element.
  destruct (get_rotation_rpy (Pose.transform p)) as [rotation|]; [|reflexivity].
  cbv zeta.
  set (values := vec3_list (get_translation (Pose.transform p)) ++ vec3_list rotation).
  split; [|split].
  - unfold values. destruct (get_translation (Pose.transform p)) as [[? ?] ?].
    destruct rotation as [[? ?] ?]. reflexivity.
  - intros Hall. apply forallb_Rlt in Hall. rewrite Hall. reflexivity.
  - intros Hnot.
    destruct (forallb _ values) eqn:E; [apply forallb_Rlt in E; contradiction|].
    destruct (Pose.relative_to p) as [[|a frame]|]; reflexivity.
Qed.

Lemma pose_suppression (node : Xml.Element) (frame : option string) :
  Pose.to_sdf_element (Pose.init (1e-9, 0, 0) (0, 0, 0) frame) node = Some node.
Proof.
  pose proof PI_RGT_0 as Hpi.
  pose proof (pose_to_sdf_element_cases (Pose.init (1e-9, 0, 0) (0, 0, 0) frame) node) as H.
  assert (Hrot : get_rotation_rpy (Pose.transform (Pose.init (1e-9, 0, 0) (0, 0, 0) frame))
                 = Some (0, 0, 0)).
  { unfold Pose.init, Pose.transform, init.
    apply get_rotation_rpy_regular; try lra.
    - apply shape_set_translation, shape_identity_matrix.
    - rewrite cos_0. lra. }
  rewrite Hrot in H. cbv zeta in H. destruct H as (_ & Hsmall & _).
  apply Hsmall.
  unfold Pose.init, Pose.transform. rewrite get_translation_init.
  cbn [vec3_list app].
  repeat constructor; rewrite ?Rabs_R0; try lra.
  rewrite Rabs_pos_eq; lra.
Qed.

Lemma matrix_init (x y z roll pitch yaw : R) :
  matrix (init (Some (x, y, z)) (Some (roll, pitch, yaw)) None) =
  [ [ cos yaw * cos pitch;
      cos yaw * sin pitch * sin roll - sin yaw * cos roll;
      cos yaw * sin pitch * cos roll + sin yaw * sin roll; x ];
    [ sin yaw * cos pitch;
      sin yaw * sin pitch * sin roll + cos yaw * cos roll;
      sin yaw * sin pitch * cos roll - cos yaw * sin roll; y ];
    [ - sin pitch; cos pitch * sin roll; cos pitch * cos roll; z ];
    [ 0; 0; 0; 1 ] ].
Proof.
  unfold init, set_rotation_rpy. rewrite rpy_matrix_entries. reflexivity.
Qed.

Lemma unit3_bound (a b c : R) : a * a + b * b + c * c = 1 -> -1 <= c <= 1.
Proof.
  intros H.
  pose proof (Rle_0_sqr a) as Ha. pose proof (Rle_0_sqr b) as Hb.
  unfold Rsqr in Ha, Hb.
  assert (Hc : c * c <= 1) by lra.
  split; nra.
Qed.

Lemma dot_unit_bound (a1 a2 a3 b1 b2 b3 : R) :
  a1 * a1 + a2 * a2 + a3 * a3 = 1 -> b1 * b1 + b2 * b2 + b3 * b3 = 1 ->
  -1 <= a1 * b1 + a2 * b2 + a3 * b3 <= 1.
Proof.
  intros Ha Hb.
  assert (H : (a1 * b1 + a2 * b2 + a3 * b3) * (a1 * b1 + a2 * b2 + a3 * b3)
              + (a2 * b3 - a3 * b2) * (a2 * b3 - a3 * b2)
              + (a3 * b1 - a1 * b3) * (a3 * b1 - a1 * b3)
              + (a1 * b2 - a2 * b1) * (a1 * b2 - a2 * b1)
              = (a1 * a1 + a2 * a2 + a3 * a3) * (b1 * b1 + b2 * b2 + b3 * b3)) by ring.
  rewrite Ha, Hb in H.
  set (d := a1 * b1 + a2 * b2 + a3 * b3) in *.
  pose proof (Rle_0_sqr (a2 * b3 - a3 * b2)) as H1.
  pose proof (Rle_0_sqr (a3 * b1 - a1 * b3)) as H2.
  pose proof (Rle_0_sqr (a1 * b2 - a2 * b1)) as H3.
  unfold Rsqr in H1, H2, H3.
  assert (Hd : d * d <= 1) by lra.
  split; nra.
Qed.

Lemma matrix_init_inverse_cell (x y z roll pitch yaw : R) :
  cell (rotation_block (inverse (init (Some (x, y, z)) (Some (roll, pitch, yaw)) None))) 2 0
  = cos yaw * sin pitch * cos roll + sin yaw * sin roll.
Proof.
  unfold inverse, rotation_block. rewrite matrix_init. reflexivity.
Qed.

(** The poses of the program never make [get_rotation_rpy] raise. *)
Lemma pose_inverse_constructed (p : Pose.Pose) :
  Pose.constructed p ->
  exists p', Pose.inverse p = Some p' /\ Pose.constructed p'
             /\ Pose.relative_to p' = Pose.relative_to p.
Proof.
  intros ([[x y] z] & [[roll pitch] yaw] & Hp).
  unfold Pose.inverse.
  destruct (get_rotation_rpy_is_Some (inverse (Pose.transform p))) as [rot Hrot].
  - rewrite Hp, matrix_init_inverse_cell.
    pose proof (sin_cos_sq roll) as Hr. pose proof (sin_cos_sq pitch) as Hpi.
    pose proof (sin_cos_sq yaw) as Hy.
    apply (unit3_bound (cos yaw * cos pitch)
             (cos yaw * sin pitch * sin roll - sin yaw * cos roll)).
    nsatz.
  - rewrite Hrot. eexists. split; [reflexivity|]. split; [|reflexivity].
    eexists _, _. reflexivity.
Qed.

Lemma matrix_init_mul_cell (x1 y1 z1 r1 p1 w1 x2 y2 z2 r2 p2 w2 : R) :
  cell (rotation_block (mul (init (Some (x1, y1, z1)) (Some (r1, p1, w1)) None)
                            (init (Some (x2, y2, z2)) (Some (r2, p2, w2)) None))) 2 0
  = - sin p1 * (cos w2 * cos p2) + cos p1 * sin r1 * (sin w2 * cos p2)
    + cos p1 * cos r1 * (- sin p2).
Proof.
  unfold mul, rotation_block. rewrite !matrix_init.
  cbn. unfold py_sum. simpl. ring.
Qed.

Lemma pose_mul_constructed (p q : Pose.Pose) :
  Pose.constructed p -> Pose.constructed q ->
  exists p', Pose.mul p q = Some p' /\ Pose.constructed p'
             /\ Pose.relative_to p' = Pose.relative_to p.
Proof.
  intros ([[x1 y1] z1] & [[r1 p1] w1] & Hp) ([[x2 y2] z2] & [[r2 p2] w2] & Hq).
  unfold Pose.mul.
  destruct (get_rotation_rpy_is_Some (mul (Pose.transform p) (Pose.transform q)))
    as [rot Hrot].
  - rewrite Hp, Hq, matrix_init_mul_cell.
    pose proof (sin_cos_sq r1) as Hr1. pose proof (sin_cos_sq p1) as Hp1.
    pose proof (sin_cos_sq w2) as Hw2. pose proof (sin_cos_sq p2) as Hp2.
    apply dot_unit_bound; nsatz.
  - rewrite Hrot. eexists. split; [reflexivity|]. split; [|reflexivity].
    eexists _, _. reflexivity.
Qed.

Lemma pose_init_constructed (t r : vec3) (frame : option string) :
  Pose.constructed (Pose.init t r frame).
Proof. exists t, r. reflexivity. Qed.

Lemma transform2_to_pose_constructed (m : Adsk.Matrix3D) :
  Pose.constructed (Util.transform2_to_pose m).
Proof. apply pose_init_constructed. Qed.

(** C7.  [Pose.to_sdf_element] appends nothing when the six values (the
    translation and the extracted roll, pitch, yaw) are all below 1e-6 in
    absolute value; otherwise it appends exactly one [pose] element that
    carries the six values and, when [relative_to] is set and not empty, the
    [relative_to] attribute.  The extraction is defined for every pose the
    constructor builds, and the pose of the specification's example
    (translation (1e-9, 0, 0), no rotation) gives no element. *)
Theorem pose_to_sdf_element_spec :
  (forall (p : Pose.Pose) (node : Xml.Element),
     match get_rotation_rpy (Pose.transform p) with
     | None => Pose.to_sdf_element p node = None
     | Some rotation =>
         let values :=
           vec3_list (get_translation (Pose.transform p)) ++ vec3_list rotation in
         length values = 6%nat
         /\ (Forall (fun v => Rabs v < 1e-6) values ->
             Pose.to_sdf_element p node = Some node)
         /\ (~ Forall (fun v => Rabs v < 1e-6) values ->
             Pose.to_sdf_element p node
             = Some (Xml.append node
                       (Xml.Elem "pose"
                          match Pose.relative_to p with
                          | Some EmptyString => []
                          | Some frame => [("relative_to"%string, frame)]
                          | None => []
                          end
                          (Some (Xml.TFloats values)) [])))
     end)
  /\ (forall (t r : vec3) (frame : option string),
        exists rotation,
          get_rotation_rpy (Pose.transform (Pose.init t r frame)) = Some rotation)
  /\ (forall (node : Xml.Element) (frame : option string),
        Pose.to_sdf_element (Pose.init (1e-9, 0, 0) (0, 0, 0) frame) node = Some node).
Proof.
  split; [exact pose_to_sdf_element_cases|]. split.
  - intros t r frame. apply get_rotation_rpy_init.
  - exact pose_suppression.
Qed.

(** The pose at (1, 0, 0) relative to [world] is written as one [pose]
    element with the attribute and the six values. *)
Lemma pose_to_sdf_element_spec_witness :
  let p := Pose.init (1, 0, 0) (0, 0, 0) (Some "world"%string) in
  let node := Xml.Elem "link"%string [] None [] in
  get_rotation_rpy (Pose.transform p) = Some (0, 0, 0)
  /\ (~ Forall (fun v => Rabs v < 1e-6) [1; 0; 0; 0; 0; 0])
  /\ Pose.to_sdf_element p node
     = Some (Xml.Elem "link"%string [] None
               [Xml.Elem "pose"%string [("relative_to"%string, "world"%string)]
                  (Some (Xml.TFloats [1; 0; 0; 0; 0; 0])) []]).
Proof.
  cbv zeta.
  pose proof PI_RGT_0 as Hpi.
  assert (Hrot : get_rotation_rpy
                   (Pose.transform (Pose.init (1, 0, 0) (0, 0, 0) (Some "world"%string)))
                 = Some (0, 0, 0)).
  { unfold Pose.init, Pose.transform, init.
    apply get_rotation_rpy_regular; try lra.
    - apply shape_set_translation, shape_identity_matrix.
    - rewrite cos_0. lra. }
  assert (Hbig : ~ Forall (fun v => Rabs v < 1e-6) [1; 0; 0; 0; 0; 0]).
  { intros Hall. inversion Hall as [|? ? H1 _]. rewrite Rabs_pos_eq in H1; lra. }
  split; [exact Hrot|]. split; [exact Hbig|].
  destruct pose_to_sdf_element_spec as (Hcases & _ & _).
  specialize (Hcases (Pose.init (1, 0, 0) (0, 0, 0) (Some "world"%string))
                (Xml.Elem "link"%string [] None [])).
  rewrite Hrot in Hcases. cbv zeta in Hcases.
  destruct Hcases as (_ & _ & Hwrite).
  unfold Pose.init, Pose.transform in Hwrite. rewrite get_translation_init in Hwrite.
  exact (Hwrite Hbig).
Defined.

End UtilFacts.


(** * Properties of [normalize_name] *)

Section NormalizeNameFacts.
Import Util.
Local Open Scope string_scope.

Variable lower : string -> string.

Lemma is_underscore_name_char (a : ascii) : is_underscore a = true -> is_name_char a = true.
Proof.
  unfold is_underscore, is_name_char. intros H. rewrite H.
  apply orb_true_r.
Qed.

Lemma is_underscore_spec (a : ascii) : is_underscore a = true <-> a = "_"%char.
Proof.
  unfold is_underscore. rewrite Nat.eqb_eq. split.
  - intros H. rewrite <- (ascii_nat_embedding a), H. reflexivity.
  - intros ->. reflexivity.
Qed.

Lemma re_sub_all_name_chars (in_run : bool) (s : string) :
  all_name_chars (re_sub in_run s) = true.
Proof.
  revert in_run. induction s as [|a s IH]; intros in_run; simpl; [reflexivity|].
  destruct (is_name_char a) eqn:Ea.
  - simpl. rewrite Ea, IH. reflexivity.
  - destruct in_run; [apply IH|]. simpl. rewrite IH. reflexivity.
Qed.

Lemma re_sub_id (in_run : bool) (s : string) :
  all_name_chars s = true -> re_sub in_run s = s.
Proof.
  revert in_run. induction s as [|a s IH]; intros in_run H; simpl in *; [reflexivity|].
  apply andb_true_iff in H as [Ha Hs]. rewrite Ha, (IH false Hs). reflexivity.
Qed.

Lemma lstrip_all_name_chars (s : string) :
  all_name_chars s = true -> all_name_chars (lstrip s) = true.
Proof.
  induction s as [|a s IH]; simpl; intros H; [reflexivity|].
  apply andb_true_iff in H as [Ha Hs].
  destruct (is_underscore a); [apply IH, Hs|].
  simpl. rewrite Ha, Hs. reflexivity.
Qed.

Lemma rstrip_all_name_chars (s : string) :
  all_name_chars s = true -> all_name_chars (rstrip s) = true.
Proof.
  induction s as [|a s IH]; simpl; intros H; [reflexivity|].
  apply andb_true_iff in H as [Ha Hs]. specialize (IH Hs).
  destruct (rstrip s) as [|b r].
  - destruct (is_underscore a); simpl; [reflexivity|]. rewrite Ha. reflexivity.
  - simpl in *. rewrite Ha, IH. reflexivity.
Qed.

Lemma lstrip_first_char (s : string) : first_char (lstrip s) <> Some "_"%char.
Proof.
  induction s as [|a s IH]; simpl; [discriminate|].
  destruct (is_underscore a) eqn:Ea; [exact IH|].
  simpl. intros E. injection E as ->. discriminate Ea.
Qed.

Lemma rstrip_first_char (s : string) :
  rstrip s = "" \/ first_char (rstrip s) = first_char s.
Proof.
  destruct s as [|a s]; simpl; [left; reflexivity|].
  destruct (rstrip s) as [|b r].
  - destruct (is_underscore a); [left | right]; reflexivity.
  - right. reflexivity.
Qed.

Lemma rstrip_last_char (s : string) : last_char (rstrip s) <> Some "_"%char.
Proof.
  induction s as [|a s IH]; simpl; [discriminate|].
  destruct (rstrip s) as [|b r] eqn:Er.
  - destruct (is_underscore a) eqn:Ea; simpl; [discriminate|].
    intros E. injection E as ->. discriminate Ea.
  - exact IH.
Qed.

Lemma lstrip_id (s : string) : first_char s <> Some "_"%char -> lstrip s = s.
Proof.
  destruct s as [|a s]; simpl; intros H; [reflexivity|].
  destruct (is_underscore a) eqn:Ea; [|reflexivity].
  apply is_underscore_spec in Ea. subst a. contradiction.
Qed.

Lemma rstrip_id (s : string) : last_char s <> Some "_"%char -> rstrip s = s.
Proof.
  induction s as [|a s IH]; simpl; intros H; [reflexivity|].
  destruct s as [|b s'].
  - simpl. destruct (is_underscore a) eqn:Ea; [|reflexivity].
    apply is_underscore_spec in Ea. subst a. contradiction.
  - rewrite (IH H). reflexivity.
Qed.

Lemma has_alnum_re_sub (in_run : bool) (s : string) :
  has_alnum (re_sub in_run s) = has_alnum s.
Proof.
  revert in_run. induction s as [|a s IH]; intros in_run; simpl; [reflexivity|].
  destruct (is_name_char a) eqn:Ea.
  - simpl. rewrite Ea, IH. reflexivity.
  - simpl. destruct in_run; [apply IH|]. simpl. rewrite IH. reflexivity.
Qed.

Lemma has_alnum_lstrip (s : string) : has_alnum (lstrip s) = has_alnum s.
Proof.
  induction s as [|a s IH]; simpl; [reflexivity|].
  destruct (is_underscore a) eqn:Ea.
  - rewrite IH, andb_false_r. reflexivity.
  - simpl. rewrite Ea. reflexivity.
Qed.

Lemma has_alnum_rstrip (s : string) : has_alnum (rstrip s) = has_alnum s.
Proof.
  induction s as [|a s IH]; simpl; [reflexivity|].
  destruct (rstrip s) as [|b r].
  - simpl in IH. rewrite <- IH.
    destruct (is_underscore a) eqn:Ea; simpl; rewrite ?Ea, ?andb_false_r; reflexivity.
  - simpl in *. rewrite IH. reflexivity.
Qed.

Lemma has_alnum_false_lstrip (s : string) :
  all_name_chars s = true -> has_alnum s = false -> lstrip s = "".
Proof.
  induction s as [|a s IH]; simpl; intros Hall Hno; [reflexivity|].
  apply andb_true_iff in Hall as [Ha Hs].
  apply orb_false_iff in Hno as [Hu Hno].
  rewrite Ha in Hu. simpl in Hu. apply negb_false_iff in Hu.
  rewrite Hu. apply IH; assumption.
Qed.

Lemma has_alnum_nonempty (s : string) : has_alnum s = true -> s <> "".
Proof. destruct s; [discriminate | discriminate]. Qed.

Lemma ascii_lower_id (s : string) : all_name_chars s = true -> ascii_lower s = s.
Proof.
  induction s as [|a s IH]; simpl; intros H; [reflexivity|].
  apply andb_true_iff in H as [Ha Hs]. rewrite (IH Hs). f_equal.
  unfold ascii_lower_char, is_name_char in *.
  destruct ((65 <=? nat_of_ascii a) && (nat_of_ascii a <=? 90))%nat eqn:E; [|reflexivity].
  exfalso.
  apply andb_true_iff in E as [E1 E2].
  apply Nat.leb_le in E1, E2.
  repeat (apply orb_true_iff in Ha as [Ha|Ha]).
  - apply andb_true_iff in Ha as [H1 H2]. apply Nat.leb_le in H1. lia.
  - apply andb_true_iff in Ha as [H1 H2]. apply Nat.leb_le in H2. lia.
  - apply Nat.eqb_eq in Ha. lia.
Qed.

Lemma normalize_name_all_name_chars (s : string) :
  all_name_chars (normalize_name lower s) = true.
Proof.
  unfold normalize_name, strip.
  apply rstrip_all_name_chars, lstrip_all_name_chars, re_sub_all_name_chars.
Qed.

Lemma normalize_name_first_char (s : string) :
  first_char (normalize_name lower s) <> Some "_"%char.
Proof.
  unfold normalize_name, strip.
  destruct (rstrip_first_char (lstrip (re_sub false (lower s)))) as [E|E].
  - rewrite E. discriminate.
  - rewrite E. apply lstrip_first_char.
Qed.

Lemma normalize_name_last_char (s : string) :
  last_char (normalize_name lower s) <> Some "_"%char.
Proof. unfold normalize_name, strip. apply rstrip_last_char. Qed.

Lemma normalize_name_nonempty (s : string) :
  normalize_name lower s <> "" <-> has_alnum (lower s) = true.
Proof.
  unfold normalize_name, strip. split.
  - intros Hne.
    destruct (has_alnum (lower s)) eqn:E; [reflexivity|]. exfalso. apply Hne.
    rewrite (has_alnum_false_lstrip (re_sub false (lower s))).
    + reflexivity.
    + apply re_sub_all_name_chars.
    + rewrite has_alnum_re_sub. exact E.
  - intros H. apply has_alnum_nonempty.
    rewrite has_alnum_rstrip, has_alnum_lstrip, has_alnum_re_sub. exact H.
Qed.

Lemma normalize_name_fixed (s : string) :
  (forall x, all_name_chars x = true -> lower x = x) ->
  all_name_chars s = true ->
  first_char s <> Some "_"%char -> last_char s <> Some "_"%char ->
  normalize_name lower s = s.
Proof.
  intros Hlower Hall Hfirst Hlast. unfold normalize_name, strip.
  rewrite (Hlower s Hall), (re_sub_id false s Hall), (lstrip_id s Hfirst).
  apply rstrip_id, Hlast.
Qed.

End NormalizeNameFacts.

(** C9 (amended).  For every input string, [normalize_name] returns a string
    whose characters are all in [[a-z0-9_]] (so it has no upper-case letter:
    lower-casing leaves it unchanged), with no leading and no trailing
    underscore.  It may be empty: it is not empty exactly when the
    lower-cased input has a character of [[a-z0-9]]. *)
Theorem normalize_name_spec (lower : string -> string) (name : string) :
  let result := Util.normalize_name lower name in
  Util.all_name_chars result = true
  /\ Util.ascii_lower result = result
  /\ Util.first_char result <> Some "_"%char
  /\ Util.last_char result <> Some "_"%char
  /\ (result <> ""%string <-> Util.has_alnum (lower name) = true).
Proof.
  intros result. unfold result.
  split; [apply normalize_name_all_name_chars|].
  split; [apply ascii_lower_id, normalize_name_all_name_chars|].
  split; [apply normalize_name_first_char|].
  split; [apply normalize_name_last_char | apply normalize_name_nonempty].
Qed.

(** C9 as stated fails: the result is empty for the empty name and for a
    name without letters and digits, so it does not match [[a-z0-9_]+]. *)
Lemma normalize_name_counterexample :
  Util.normalize_name Util.ascii_lower "" = ""%string
  /\ Util.normalize_name Util.ascii_lower "-- (1) --" = "1"%string
  /\ Util.normalize_name Util.ascii_lower "?!" = ""%string
  /\ Util.normalize_name Util.ascii_lower "___" = ""%string.
Proof. repeat split; reflexivity. Qed.

(** C10.  [normalize_name] is idempotent, given that [str.lower] leaves
    strings over [[a-z0-9_]] unchanged. *)
Theorem normalize_name_idempotent (lower : string -> string) :
  (forall x, Util.all_name_chars x = true -> lower x = x) ->
  forall name : string,
    Util.normalize_name lower (Util.normalize_name lower name)
    = Util.normalize_name lower name.
Proof.
  intros Hlower name. apply normalize_name_fixed.
  - exact Hlower.
  - apply normalize_name_all_name_chars.
  - apply normalize_name_first_char.
  - apply normalize_name_last_char.
Qed.

Lemma normalize_name_idempotent_witness :
  (forall x, Util.all_name_chars x = true -> Util.ascii_lower x = x)
  /\ Util.normalize_name Util.ascii_lower
       (Util.normalize_name Util.ascii_lower "Base Plate (v2):1")
     = Util.normalize_name Util.ascii_lower "Base Plate (v2):1"
  /\ Util.normalize_name Util.ascii_lower "Base Plate (v2):1" = "base_plate_v2_1"%string.
Proof.
  split; [exact ascii_lower_id|]. split; [|reflexivity].
  exact (normalize_name_idempotent Util.ascii_lower ascii_lower_id "Base Plate (v2):1").
Defined.


(** * Properties of the builder *)

Section BuilderFacts.
Import SDF.
Local Open Scope string_scope.

Variable lower : string -> string.

Lemma same_state_refl (self : SDF) : same_state self self.
Proof. repeat split. Qed.

Lemma same_state_log (self : SDF) (message : LogMsg) : same_state self (log self message).
Proof. repeat split. Qed.

Lemma same_state_trans (s1 s2 s3 : SDF) :
  same_state s1 s2 -> same_state s2 s3 -> same_state s1 s3.
Proof.
  unfold same_state, same_tables.
  intros ((? & ? & ? & ? & ? & ?) & ? & ?) ((? & ? & ? & ? & ? & ?) & ? & ?).
  repeat split; congruence.
Qed.

(** ** [add_link] *)

Lemma add_link_body_spec (rigid_group_pose : option Pose.Pose) (self : SDF)
  (link : Link.Link) (body : Adsk.BRepBody) :
  (forall p, rigid_group_pose = Some p -> Pose.constructed p) ->
  exists self' link',
    add_link_body lower rigid_group_pose (self, link) body = Some (self', link')
    /\ same_state self self'
    /\ Link.name link' = Link.name link
    /\ Link.pose link' = Link.pose link.
Proof.
  intros Hpose. unfold add_link_body.
  match goal with
  | |- context [if ?b then _ else _] => destruct b
  end.
  - eexists _, _. split; [reflexivity|]. repeat split.
  - destruct rigid_group_pose as [group_pose|].
    + destruct (pose_mul_constructed group_pose
                  (Pose.init
                     (Util.cm_to_m_vec (Adsk.centerPoint (Adsk.orientedMinimumBoundingBox body)))
                     (Util.matrix3d_to_rpy
                        (Adsk.setWithCoordinateSystem
                           (Adsk.centerPoint (Adsk.orientedMinimumBoundingBox body))
                           (Adsk.heightDirection (Adsk.orientedMinimumBoundingBox body))
                           (Adsk.widthDirection (Adsk.orientedMinimumBoundingBox body))
                           (Adsk.lengthDirection (Adsk.orientedMinimumBoundingBox body))))
                     (Some "__model__")))
        as (p' & Hmul & _ & _).
      * apply Hpose. reflexivity.
      * apply pose_init_constructed.
      * rewrite Hmul. eexists _, _. split; [reflexivity|]. repeat split.
    + eexists _, _. split; [reflexivity|]. repeat split.
Qed.

Lemma add_link_bodies_spec (rigid_group_pose : option Pose.Pose)
  (bodies : list Adsk.BRepBody) (self : SDF) (link : Link.Link) :
  (forall p, rigid_group_pose = Some p -> Pose.constructed p) ->
  exists self' link',
    for_each (add_link_body lower rigid_group_pose) bodies (self, link)
    = Some (self', link')
    /\ same_state self self'
    /\ Link.name link' = Link.name link
    /\ Link.pose link' = Link.pose link.
Proof.
  intros Hpose. revert self link.
  induction bodies as [|body bodies IH]; intros self link.
  - exists self, link. split; [reflexivity|]. split; [apply same_state_refl|]. split; reflexivity.
  - destruct (add_link_body_spec rigid_group_pose self link body Hpose)
      as (self1 & link1 & Hbody & Hsame1 & Hname1 & Hpose1).
    destruct (IH self1 link1) as (self2 & link2 & Hrest & Hsame2 & Hname2 & Hpose2).
    exists self2, link2. cbn [for_each]. rewrite Hbody.
    split; [exact Hrest|]. split; [eapply same_state_trans; eassumption|].
    split; congruence.
Qed.

Lemma link_inertial_spec (self : SDF) (link : Link.Link) (link_pose : Pose.Pose)
  (rigid_group_pose : option Pose.Pose) (properties : Adsk.PhysicalProperties) :
  Pose.constructed link_pose ->
  (forall p, rigid_group_pose = Some p -> Pose.constructed p) ->
  exists self' inertial,
    link_inertial self link link_pose rigid_group_pose properties = Some (self', inertial)
    /\ same_state self self'.
Proof.
  intros Hlink Hgroup. unfold link_inertial.
  destruct (Adsk.centerOfMass properties) as [[cx cy] cz] eqn:Ecom.
  destruct (Adsk.moments properties) as [[[[[xx yy] zz] xy] yz] xz] eqn:Emom.
  destruct (pose_inverse_constructed link_pose Hlink) as (inv & Hinv & Hcinv & _).
  set (model := Pose.init (Util.cm_to_m_vec (cx, cy, cz)) (0, 0, 0)%R (Some "__model__")).
  assert (Hmodel : Pose.constructed model) by apply pose_init_constructed.
  assert (Hfinal : exists p,
             match rigid_group_pose with
             | Some group_pose =>
                 match Pose.mul inv group_pose with
                 | Some p => Pose.mul p model
                 | None => None
                 end
             | None => Pose.mul inv model
             end = Some p).
  { destruct rigid_group_pose as [group_pose|].
    - destruct (pose_mul_constructed inv group_pose Hcinv (Hgroup _ eq_refl))
        as (p1 & Hp1 & Hc1 & _).
      rewrite Hp1.
      destruct (pose_mul_constructed p1 model Hc1 Hmodel) as (p2 & Hp2 & _).
      eauto.
    - destruct (pose_mul_constructed inv model Hcinv Hmodel) as (p2 & Hp2 & _).
      eauto. }
  destruct Hfinal as (p & Hp).
  destruct (Adsk.inertia_valid properties);
    cbn [Util.world_inertia_to_com_inertia Util.cm_to_m_vec map combine];
    fold model; rewrite Hinv, Hp;
    eexists _, _; (split; [reflexivity|]); repeat split.
Qed.

Lemma same_state_tables (s s' : SDF) : same_state s s' -> same_tables s s'.
Proof. intros [H _]. exact H. Qed.

Lemma same_tables_trans (s1 s2 s3 : SDF) :
  same_tables s1 s2 -> same_tables s2 s3 -> same_tables s1 s3.
Proof.
  unfold same_tables.
  intros (? & ? & ? & ? & ? & ?) (? & ? & ? & ? & ? & ?).
  repeat split; congruence.
Qed.

Lemma add_link_spec (self : SDF) (occurrence : Adsk.Occurrence) (prefix : string)
  (rigid_group_pose : option Pose.Pose) :
  (forall p, rigid_group_pose = Some p -> Pose.constructed p) ->
  let link_name := prefix ++ normalize_name lower (Adsk.name occurrence) in
  exists self' result,
    add_link lower self occurrence prefix rigid_group_pose = Some (self', result)
    /\ same_tables self self'
    /\ ((link_name ∈ dom (links self) /\ result = None
         /\ links self' = links self /\ attributes self' = attributes self)
        \/ ((link_name ∉ dom (links self))
            /\ exists group_link,
                occurrences_in_rigid_groups self !! Adsk.name occurrence = Some group_link
                /\ result = None /\ links self' = links self
                /\ attributes self'
                   = <[Adsk.id occurrence := group_link]> (attributes self))
        \/ ((link_name ∉ dom (links self))
            /\ occurrences_in_rigid_groups self !! Adsk.name occurrence = None
            /\ Adsk.bRepBodies occurrence = []
            /\ result = None /\ links self' = links self
            /\ attributes self' = <[Adsk.id occurrence := link_name]> (attributes self))
        \/ ((link_name ∉ dom (links self))
            /\ occurrences_in_rigid_groups self !! Adsk.name occurrence = None
            /\ Adsk.bRepBodies occurrence <> []
            /\ exists link,
                result = Some link /\ Link.name link = link_name
                /\ links self' = <[link_name := link]> (links self)
                /\ attributes self' = <[Adsk.id occurrence := link_name]> (attributes self))).
Proof.
  intros Hpose link_name. unfold add_link. fold link_name.
  cbn [links log].
  destruct (decide (link_name ∈ dom (links self))) as [Hin|Hnot].
  { eexists _, _. split; [reflexivity|]. split; [repeat split|].
    left. repeat split. exact Hin. }
  cbn [occurrences_in_rigid_groups log].
  destruct (occurrences_in_rigid_groups self !! Adsk.name occurrence) as [group_link|] eqn:Egroup.
  { eexists _, _. split; [reflexivity|]. split; [repeat split|].
    right. left. split; [exact Hnot|]. exists group_link. repeat split. }
  destruct (Adsk.bRepBodies occurrence) as [|body bodies] eqn:Ebodies.
  { eexists _, _. split; [reflexivity|]. split; [repeat split|].
    right. right. left. repeat split. exact Hnot. }
  set (link_pose := match rigid_group_pose with
                    | Some group_pose => group_pose
                    | None => Util.transform2_to_pose (Adsk.transform2 occurrence)
                    end).
  assert (Hlink_pose : Pose.constructed link_pose).
  { unfold link_pose. destruct rigid_group_pose as [p|]; [apply Hpose; reflexivity|].
    apply transform2_to_pose_constructed. }
  set (self0 := attributes_add (log self (LogAddLink (Adsk.name occurrence) prefix link_name))
                  (Adsk.id occurrence) link_name).
  destruct (add_link_bodies_spec rigid_group_pose (body :: bodies) self0
              (Link.Build link_name (Some link_pose) ∅ ∅ None) Hpose)
    as (self1 & link1 & Hbodies & Hsame1 & Hname1 & Hpose1).
  rewrite Hbodies.
  destruct (link_inertial_spec self1 link1 link_pose rigid_group_pose
              (Adsk.physicalProperties occurrence) Hlink_pose Hpose)
    as (self2 & inertial & Hinertial & Hsame2).
  rewrite Hinertial.
  pose proof (same_state_trans _ _ _ Hsame1 Hsame2) as (Htables & Hlinks & Hattrs).
  eexists _, _. split; [reflexivity|]. split.
  - destruct Htables as (? & ? & ? & ? & ? & ?). repeat split; assumption.
  - right. right. right. split; [exact Hnot|]. split; [reflexivity|]. split; [discriminate|].
    eexists. split; [reflexivity|]. cbn [Link.name links set_links attributes].
    rewrite Hname1, Hlinks, Hattrs. repeat split.
Qed.

(** C8.  Adding a link or a joint whose computed name is already a key of
    its map leaves the links map and the joints map (and every other table
    of the builder) unchanged: the call returns at once, having written its
    two log messages. *)
Theorem duplicate_names_skipped :
  (forall (self : SDF) (occurrence : Adsk.Occurrence) (prefix : string)
          (rigid_group_pose : option Pose.Pose),
     let link_name := prefix ++ normalize_name lower (Adsk.name occurrence) in
     link_name ∈ dom (links self) ->
     exists self',
       add_link lower self occurrence prefix rigid_group_pose = Some (self', None)
       /\ links self' = links self
       /\ joints self' = joints self
       /\ same_state self self'
       /\ console self'
          = (console self ++ [LogAddLink (Adsk.name occurrence) prefix link_name;
                              LogLinkExists link_name])%list)
  /\ (forall (self : SDF) (fusion_joint : Adsk.Joint) (as_built : bool) (prefix : string),
        let joint_name := prefix ++ normalize_name lower (Adsk.joint_name fusion_joint) in
        joint_name ∈ dom (joints self) ->
        exists self',
          add_joint lower self fusion_joint as_built prefix = Some self'
          /\ links self' = links self
          /\ joints self' = joints self
          /\ same_state self self'
          /\ console self'
             = (console self ++ [LogAddJoint (Adsk.joint_name fusion_joint) prefix joint_name;
                                 LogJointExists joint_name])%list).
Proof.
  split.
  - intros self occurrence prefix rigid_group_pose link_name Hin.
    unfold add_link. fold link_name. cbn [links log].
    destruct (decide (link_name ∈ dom (links self))) as [_|Hn]; [|contradiction].
    eexists. split; [reflexivity|].
    cbn [links joints console log]. rewrite <- app_assoc.
    repeat split.
  - intros self fusion_joint as_built prefix joint_name Hin.
    unfold add_joint. fold joint_name. cbn [joints log].
    destruct (decide (joint_name ∈ dom (joints self))) as [_|Hn]; [|contradiction].
    eexists. split; [reflexivity|].
    cbn [links joints console log]. rewrite <- app_assoc.
    repeat split.
Qed.

(** ** [add_joint] *)

Lemma add_joint_revolute (self : SDF) (fusion_joint : Adsk.Joint) (as_built : bool)
  (prefix : string) (axis : Transform.vec3) (limits : Adsk.JointLimits)
  (parent child : string) :
  Adsk.jointMotion fusion_joint = Adsk.RevoluteJointMotion axis limits ->
  let joint_name := prefix ++ normalize_name lower (Adsk.joint_name fusion_joint) in
  joint_name ∉ dom (joints self) ->
  joint_link_name self (Adsk.occurrenceTwo fusion_joint) = Some parent ->
  joint_link_name self (Adsk.occurrenceOne fusion_joint) = Some child ->
  exists self' joint,
    add_joint lower self fusion_joint as_built prefix = Some self'
    /\ joints self' = <[joint_name := joint]> (joints self)
    /\ same_but_joints self self'
    /\ Joint.name joint = joint_name
    /\ (let swap := user_flag (design self) (joint_name ++ "_SWAP_PARENT_CHILD") in
        Joint.axis_xyz joint
        = Some (if swap
                then (let '(x, y, z) := axis in (- x, - y, - z)%R)
                else axis)
        /\ Joint.parent joint = Some (if swap then child else parent)
        /\ Joint.child joint = Some (if swap then parent else child))
    /\ (Adsk.isMinimumValueEnabled limits || Adsk.isMaximumValueEnabled limits = true ->
        Joint.joint_type joint = Joint.REVOLUTE
        /\ Joint.lower_limit joint = Some (Adsk.minimumValue limits)
        /\ Joint.upper_limit joint = Some (Adsk.maximumValue limits))
    /\ (Adsk.isMinimumValueEnabled limits || Adsk.isMaximumValueEnabled limits = false ->
        Joint.joint_type joint = Joint.CONTINUOUS
        /\ Joint.lower_limit joint = None
        /\ Joint.upper_limit joint = None).
Proof.
  intros Hmotion joint_name Hfresh Hparent Hchild.
  unfold add_joint. fold joint_name. cbn [joints log].
  destruct (decide (joint_name ∈ dom (joints self))) as [Hin|_]; [contradiction|].
  rewrite Hmotion.
  cbn [Adsk.jointType Adsk.rotationAxisVector Adsk.rotationLimits].
  unfold joint_link_name in *. cbn [occurrences_in_rigid_groups attributes log design].
  destruct (Adsk.isMinimumValueEnabled limits || Adsk.isMaximumValueEnabled limits) eqn:Elim;
    rewrite Hparent, Hchild;
    destruct axis as [[x y] z];
    destruct (user_flag (design self) (joint_name ++ "_SWAP_PARENT_CHILD")) eqn:Eswap;
    eexists _, _; (split; [reflexivity|]);
    cbn [joints links set_joints log Joint.name Joint.axis_xyz Joint.parent Joint.child
         Joint.joint_type Joint.lower_limit Joint.upper_limit];
    unfold same_but_joints; repeat split; intros; try discriminate; reflexivity.
Qed.

(** ** Occurrences without children, rigid groups and joints *)

Lemma parse_occurrence_leaf (self : SDF) (occurrence_name : string) (occurrence_id : N)
  (transform2 : Adsk.Matrix3D) (bodies : list Adsk.BRepBody)
  (properties : Adsk.PhysicalProperties) (prefix : string) :
  let occurrence :=
    Adsk.MkOccurrence occurrence_name occurrence_id transform2 bodies properties
      [] [] [] [] in
  let link_name := prefix ++ normalize_name lower occurrence_name in
  (link_name ∉ dom (links self)) ->
  occurrences_in_rigid_groups self !! occurrence_name = None ->
  exists self',
    parse_occurrence lower self occurrence prefix = Some self'
    /\ same_tables self self'
    /\ attributes self' = <[occurrence_id := link_name]> (attributes self)
    /\ (bodies = [] -> links self' = links self)
    /\ (bodies <> [] ->
        exists link, Link.name link = link_name
                     /\ links self' = <[link_name := link]> (links self)).
Proof.
  intros occurrence link_name Hfresh Hgroup.
  destruct (add_link_spec (log self (LogParseOccurrence occurrence_name prefix))
              occurrence prefix None ltac:(discriminate))
    as (self' & result & Hadd & Htables & Hcases).
  cbv zeta in Hcases. cbn [links attributes occurrences_in_rigid_groups log] in Hcases.
  change (Adsk.name occurrence) with occurrence_name in Hcases.
  change (Adsk.id occurrence) with occurrence_id in Hcases.
  change (Adsk.bRepBodies occurrence) with bodies in Hcases.
  fold link_name in Hcases.
  exists self'. split.
  - unfold occurrence. cbn [parse_occurrence]. fold occurrence. rewrite Hadd.
    reflexivity.
  - split; [exact Htables|].
    destruct Hcases as [(Hin & _) | [(_ & g & Hg & _) | [Hempty | Hnew]]].
    + contradiction.
    + rewrite Hgroup in Hg. discriminate.
    + destruct Hempty as (_ & _ & Hbodies & _ & Hlinks & Hattrs).
      split; [exact Hattrs|]. split; [intros _; exact Hlinks|].
      intros Hne. contradiction.
    + destruct Hnew as (_ & _ & Hbodies & link & _ & Hname & Hlinks & Hattrs).
      split; [exact Hattrs|]. split; [intros He; contradiction|].
      intros _. exists link. split; assumption.
Qed.

(** C6 (amended).  For a CAD joint of revolute type whose name is new and
    whose two occurrences resolve to link names, [add_joint] stores a joint
    that records the rotation axis vector (negated, with parent and child
    exchanged, when the swap override is set).  The limits, both values, are
    recorded exactly when at least one of the two limit bounds is enabled,
    and the joint stays revolute; when no bound is enabled the joint is
    reclassified as continuous and carries no limits. *)
Theorem revolute_joint_resolution (self : SDF) (fusion_joint : Adsk.Joint)
  (as_built : bool) (prefix : string) (axis : Transform.vec3)
  (limits : Adsk.JointLimits) (parent child : string) :
  Adsk.jointMotion fusion_joint = Adsk.RevoluteJointMotion axis limits ->
  let joint_name := prefix ++ normalize_name lower (Adsk.joint_name fusion_joint) in
  joint_name ∉ dom (joints self) ->
  joint_link_name self (Adsk.occurrenceTwo fusion_joint) = Some parent ->
  joint_link_name self (Adsk.occurrenceOne fusion_joint) = Some child ->
  exists self' joint,
    add_joint lower self fusion_joint as_built prefix = Some self'
    /\ joints self' = <[joint_name := joint]> (joints self)
    /\ links self' = links self
    /\ Joint.name joint = joint_name
    /\ (let swap := user_flag (design self) (joint_name ++ "_SWAP_PARENT_CHILD") in
        Joint.axis_xyz joint
        = Some (if swap
                then (let '(x, y, z) := axis in (- x, - y, - z)%R)
                else axis)
        /\ Joint.parent joint = Some (if swap then child else parent)
        /\ Joint.child joint = Some (if swap then parent else child))
    /\ (Adsk.isMinimumValueEnabled limits || Adsk.isMaximumValueEnabled limits = true ->
        Joint.joint_type joint = Joint.REVOLUTE
        /\ Joint.lower_limit joint = Some (Adsk.minimumValue limits)
        /\ Joint.upper_limit joint = Some (Adsk.maximumValue limits))
    /\ (Adsk.isMinimumValueEnabled limits || Adsk.isMaximumValueEnabled limits = false ->
        Joint.joint_type joint = Joint.CONTINUOUS
        /\ Joint.lower_limit joint = None
        /\ Joint.upper_limit joint = None).
Proof.
  intros Hmotion joint_name Hfresh Hparent Hchild.
  destruct (add_joint_revolute self fusion_joint as_built prefix axis limits parent child
              Hmotion Hfresh Hparent Hchild)
    as (self' & joint & Hadd & Hjoints & (_ & _ & Hlinks & _) & Hrest).
  exists self', joint. split; [exact Hadd|]. split; [exact Hjoints|].
  split; [exact Hlinks | exact Hrest].
Qed.

End BuilderFacts.

Section RootSelection.
Import SDF.
Local Open Scope string_scope.

Variable first_of : gset string -> string.

(** ** Root selection and the anchor link *)

Lemma elem_of_links_with_parent_joints (self : SDF) (c : option string) :
  c ∈ links_with_parent_joints self
  <-> exists joint_name joint,
        joints self !! joint_name = Some joint /\ Joint.child joint = c.
Proof.
  unfold links_with_parent_joints.
  rewrite elem_of_list_to_set, list_elem_of_In, in_map_iff. split.
  - intros ([joint_name joint] & Hchild & Hin).
    apply list_elem_of_In, elem_of_map_to_list in Hin. eauto.
  - intros (joint_name & joint & Hlookup & Hchild).
    exists (joint_name, joint). split; [exact Hchild|].
    apply list_elem_of_In, elem_of_map_to_list. exact Hlookup.
Qed.

Lemma elem_of_root_links (self : SDF) (x : string) :
  x ∈ root_links self
  <-> x ∈ dom (links self)
      /\ forall joint_name joint,
           joints self !! joint_name = Some joint -> Joint.child joint <> Some x.
Proof.
  unfold root_links. rewrite elem_of_filter, elem_of_links_with_parent_joints.
  split.
  - intros [Hno Hdom]. split; [exact Hdom|].
    intros joint_name joint Hlookup Hchild. apply Hno. eauto.
  - intros [Hdom Hno]. split; [|exact Hdom].
    intros (joint_name & joint & Hlookup & Hchild). exact (Hno _ _ Hlookup Hchild).
Qed.

Lemma elem_of_links_without_parent_joint (self : SDF) (x : string) :
  x ∈ links_without_parent_joint self
  <-> x ∈ dom (links self)
      /\ forall joint_name joint,
           joints self !! joint_name = Some joint -> Joint.child joint <> Some x.
Proof.
  unfold links_without_parent_joint. rewrite elem_of_filter. tauto.
Qed.

Lemma links_without_parent_joint_root_links (self : SDF) :
  links_without_parent_joint self = root_links self.
Proof.
  apply set_eq. intros x.
  rewrite elem_of_links_without_parent_joint, elem_of_root_links. tauto.
Qed.

Lemma select_root_link_tables (self : SDF) :
  links (select_root_link first_of self) = links self
  /\ joints (select_root_link first_of self) = joints self.
Proof.
  unfold select_root_link.
  destruct (decide (size (root_links self) = 0%nat)); [split; reflexivity|].
  destruct (decide (size (root_links self) ≠ 1%nat)); split; reflexivity.
Qed.

Lemma select_root_link_some (self : SDF) :
  root_links self <> ∅ ->
  root_link (select_root_link first_of self) = Some (first_of (root_links self)).
Proof.
  intros Hne. unfold select_root_link.
  destruct (decide (size (root_links self) = 0%nat)) as [Hz|_].
  - apply size_empty_inv in Hz. apply leibniz_equiv in Hz. contradiction.
  - destruct (decide (size (root_links self) ≠ 1%nat)); reflexivity.
Qed.


Lemma add_base_link_tables (self : SDF) :
  links (add_base_link self) = <["base_link" := base_link]> (links self)
  /\ joints (add_base_link self)
     = <["base_link_joint" :=
           Joint.init "base_link_joint" Joint.FIXED None (Some "base_link")
             (root_link self)]> (joints self)
  /\ root_link (add_base_link self) = Some "base_link".
Proof. repeat split. Qed.


End RootSelection.

Section ParseRootComponent.
Import SDF.
Local Open Scope string_scope.

Variable lower : string -> string.
Variable first_of : gset string -> string.


End ParseRootComponent.


(** * The builder on concrete designs *)

(** Replaces the next call of [parse_occurrence] or [add_joint] in the goal
    by its result [H]. *)
Ltac run_with H :=
  match goal with
  | |- context [SDF.parse_occurrence ?l ?s ?o ?p] =>
      let E := fresh "E" in
      assert (E : SDF.parse_occurrence l s o p = _) by exact H; rewrite E; clear E
  | |- context [SDF.add_joint ?l ?s ?j ?b ?p] =>
      let E := fresh "E" in
      assert (E : SDF.add_joint l s j b p = _) by exact H; rewrite E; clear E
  end.

Ltac unfold_components :=
  unfold SDF.parse_components;
  cbn [SDF.design SDF.init SDF.set_name SDF.log SDF.for_each Adsk.rootComponent Adsk.comp_name
       Adsk.comp_rigidGroups Adsk.comp_occurrences Adsk.comp_joints
       Adsk.comp_asBuiltJoints Scenario.single_arm Scenario.robot].

Section ScenarioFacts.
Import SDF.
Local Open Scope string_scope.

Lemma duplicate_names_skipped_witness :
  ("arm_1" ∈ dom (links Scenario.with_arm_and_joint))
  /\ ("rev1" ∈ dom (joints Scenario.with_arm_and_joint))
  /\ (exists self',
        add_link Util.ascii_lower Scenario.with_arm_and_joint Scenario.arm "" None
        = Some (self', None)
        /\ links self' = links Scenario.with_arm_and_joint
        /\ joints self' = joints Scenario.with_arm_and_joint)
  /\ (exists self',
        add_joint Util.ascii_lower Scenario.with_arm_and_joint Scenario.rev1 false ""
        = Some self'
        /\ links self' = links Scenario.with_arm_and_joint
        /\ joints self' = joints Scenario.with_arm_and_joint).
Proof.
  assert (Hlink : "arm_1" ∈ dom (links Scenario.with_arm_and_joint)).
  { cbn [links Scenario.with_arm_and_joint]. rewrite dom_insert_L. set_solver. }
  assert (Hjoint : "rev1" ∈ dom (joints Scenario.with_arm_and_joint)).
  { cbn [joints Scenario.with_arm_and_joint]. rewrite dom_insert_L. set_solver. }
  split; [exact Hlink|]. split; [exact Hjoint|].
  destruct (duplicate_names_skipped Util.ascii_lower) as [Hadd_link Hadd_joint].
  split.
  - destruct (Hadd_link Scenario.with_arm_and_joint Scenario.arm "" None Hlink)
      as (self' & Hrun & Hlinks & Hjoints & _).
    exists self'. repeat split; assumption.
  - destruct (Hadd_joint Scenario.with_arm_and_joint Scenario.rev1 false "" Hjoint)
      as (self' & Hrun & Hlinks & Hjoints & _).
    exists self'. repeat split; assumption.
Defined.

Lemma rev1_name : normalize_name Util.ascii_lower (Adsk.joint_name Scenario.rev1) = "rev1".
Proof. reflexivity. Qed.

Lemma revolute_joint_resolution_witness :
  Adsk.jointMotion Scenario.rev1
  = Adsk.RevoluteJointMotion (0, 0, 1)%R
      {| Adsk.isMinimumValueEnabled := true; Adsk.isMaximumValueEnabled := false;
         Adsk.minimumValue := (-1)%R; Adsk.maximumValue := 0%R |}
  /\ ("rev1" ∉ dom (joints Scenario.before_joints))
  /\ joint_link_name Scenario.before_joints (Adsk.occurrenceTwo Scenario.rev1) = Some "arm_1"
  /\ joint_link_name Scenario.before_joints (Adsk.occurrenceOne Scenario.rev1) = Some "frame_1"
  /\ exists self' joint,
      add_joint Util.ascii_lower Scenario.before_joints Scenario.rev1 false "" = Some self'
      /\ joints self' = <["rev1" := joint]> (joints Scenario.before_joints)
      /\ Joint.joint_type joint = Joint.REVOLUTE
      /\ Joint.axis_xyz joint = Some (0, 0, 1)%R
      /\ Joint.parent joint = Some "arm_1"
      /\ Joint.child joint = Some "frame_1"
      /\ Joint.lower_limit joint = Some (-1)%R
      /\ Joint.upper_limit joint = Some 0%R.
Proof.
  assert (Hfresh : "rev1" ∉ dom (joints Scenario.before_joints)).
  { cbn [joints Scenario.before_joints]. rewrite dom_empty_L. apply not_elem_of_empty. }
  assert (Hparent : joint_link_name Scenario.before_joints
                      (Adsk.occurrenceTwo Scenario.rev1) = Some "arm_1")
    by reflexivity.
  assert (Hchild : joint_link_name Scenario.before_joints
                     (Adsk.occurrenceOne Scenario.rev1) = Some "frame_1")
    by reflexivity.
  split; [reflexivity|]. split; [exact Hfresh|]. split; [exact Hparent|].
  split; [exact Hchild|].
  destruct (revolute_joint_resolution Util.ascii_lower Scenario.before_joints
              Scenario.rev1 false "" _ _ "arm_1" "frame_1" eq_refl Hfresh Hparent Hchild)
    as (self' & joint & Hadd & Hjoints & _ & _ & (Haxis & Hp & Hc) & Hlimits & _).
  destruct (Hlimits eq_refl) as (Htype & Hlo & Hhi).
  exists self', joint. repeat split; assumption.
Defined.

(** C6 as stated fails: the joint [rev1] has its minimum bound enabled
    and its maximum bound disabled, and [add_joint] records both limits
    (lower -1, upper 0: the value of the disabled bound) on a joint that stays
    revolute. *)
Lemma revolute_joint_resolution_counterexample :
  (exists axis limits,
     Adsk.jointMotion Scenario.rev1 = Adsk.RevoluteJointMotion axis limits
     /\ Adsk.isMinimumValueEnabled limits = true
     /\ Adsk.isMaximumValueEnabled limits = false)
  /\ exists self' joint,
      add_joint Util.ascii_lower Scenario.before_joints Scenario.rev1 false "" = Some self'
      /\ joints self' !! "rev1" = Some joint
      /\ Joint.joint_type joint = Joint.REVOLUTE
      /\ Joint.lower_limit joint = Some (-1)%R
      /\ Joint.upper_limit joint = Some 0%R.
Proof.
  split; [eexists _, _; repeat split|].
  assert (Hfresh : "rev1" ∉ dom (joints Scenario.before_joints)).
  { cbn [joints Scenario.before_joints]. rewrite dom_empty_L. apply not_elem_of_empty. }
  destruct (add_joint_revolute Util.ascii_lower Scenario.before_joints
              Scenario.rev1 false "" _ _ "arm_1" "frame_1" eq_refl Hfresh eq_refl eq_refl)
    as (self' & joint & Hadd & Hjoints & _ & _ & _ & Hlimits & _).
  destruct (Hlimits eq_refl) as (Htype & Hlo & Hhi).
  exists self', joint. split; [exact Hadd|]. split.
  - rewrite Hjoints. apply lookup_insert_eq.
  - repeat split; assumption.
Qed.

Lemma parse_components_single_arm :
  exists built link,
    parse_components Util.ascii_lower (init Scenario.single_arm) = Some built
    /\ links built = <["arm_1" := link]> ∅
    /\ joints built = ∅.
Proof.
  set (s0 := log (set_name (init Scenario.single_arm) (Some "robot"))
               (LogParseRootComponent "Robot")).
  destruct (parse_occurrence_leaf Util.ascii_lower s0 "Arm:1" 1 Adsk.Matrix3D_create
              [Scenario.body] Scenario.properties "")
    as (s1 & Hparse & Htab & Hattr & _ & Hnew).
  { cbn [links s0 log set_name init]. rewrite dom_empty_L. apply not_elem_of_empty. }
  { reflexivity. }
  destruct (Hnew ltac:(discriminate)) as (link & Hname & Hlinks).
  destruct Htab as (Hdesign & _ & Hjoints & Hfusion & _).
  exists s1, link. split; [|split; assumption].
  unfold_components. run_with Hparse.
  cbn [for_each]. rewrite Hfusion. reflexivity.
Qed.

Lemma first_element_singleton (x : string) : first_element {[x]} = x.
Proof. unfold first_element. rewrite elements_singleton. reflexivity. Qed.


Lemma root_links_no_joints (self : SDF) :
  joints self = ∅ -> root_links self = dom (links self).
Proof.
  intros Hj. apply set_eq. intros x. rewrite elem_of_root_links. split.
  - intros [H _]. exact H.
  - intros H. split; [exact H|]. intros joint_name joint Hlookup.
    rewrite Hj, lookup_empty in Hlookup. discriminate.
Qed.



End ScenarioFacts.


(** * Further properties of [Transform], [Pose] and [Util] *)

(** Names the sixteen entries of a 4x4 matrix. *)
Ltac entries T Hs :=
  let HA := fresh "HA" in
  destruct (shape_4_4_inv _ Hs) as (? & ? & ? & ? & ? & ? & ? & ? & ? & ? & ? & ?
                                    & ? & ? & ? & ? & HA);
  destruct T as [?m]; simpl in HA; subst.

(** Equality of two triples of reals, component by component. *)
Ltac vec3_eq :=
  apply pair_equal_spec; split; [apply pair_equal_spec; split|].

(** Names the twelve free entries of a homogeneous matrix. *)
Ltac rigid_entries T Hh :=
  let HA := fresh "HA" in
  destruct (homogeneous_inv _ Hh) as (? & ? & ? & ? & ? & ? & ? & ? & ? & ? & ? & ? & HA);
  destruct T as [?m]; simpl in HA; subst.

Section TransformLaws.
Import Transform.
Local Open Scope R_scope.

(** ** The setters *)

(** X1.  On a 4x4 matrix, [get_translation] returns what [set_translation]
    stored; [set_translation] changes neither the rotation block nor the
    last row, and a second call overwrites the first. *)
Theorem translation_round_trip (T : Transform) (t u : vec3) :
  shape 4 4 (matrix T) ->
  get_translation (set_translation T t) = t
  /\ rotation_block (set_translation T t) = rotation_block T
  /\ nth 3 (matrix (set_translation T t)) [] = nth 3 (matrix T) []
  /\ set_translation (set_translation T u) t = set_translation T t.
Proof.
  intros Hs. entries T Hs. destruct t as [[tx ty] tz], u as [[ux uy] uz].
  repeat split; reflexivity.
Qed.

Lemma translation_round_trip_witness :
  shape 4 4 (matrix identity)
  /\ get_translation (set_translation identity (1, 2, 3)) = (1, 2, 3).
Proof.
  split; [exact shape_identity_matrix|].
  exact (proj1 (translation_round_trip identity (1, 2, 3) (0, 0, 0) shape_identity_matrix)).
Defined.

(** X2.  On a 4x4 matrix, [set_rotation_rpy] overwrites the 3x3 block with
    [Rz(yaw) * Ry(pitch) * Rx(roll)] and nothing else: the translation and
    the last row are kept, and the block set before leaves no trace. *)
Theorem set_rotation_rpy_overwrites (T : Transform) (roll pitch yaw a b c : R) :
  shape 4 4 (matrix T) ->
  rotation_block (set_rotation_rpy T roll pitch yaw)
  = matrix_multiply (matrix_multiply (rot_z yaw) (rot_y pitch)) (rot_x roll)
  /\ get_translation (set_rotation_rpy T roll pitch yaw) = get_translation T
  /\ nth 3 (matrix (set_rotation_rpy T roll pitch yaw)) [] = nth 3 (matrix T) []
  /\ set_rotation_rpy (set_rotation_rpy T a b c) roll pitch yaw
     = set_rotation_rpy T roll pitch yaw.
Proof.
  intros Hs. split; [exact (rotation_block_set_rotation_rpy T roll pitch yaw Hs)|].
  entries T Hs. unfold set_rotation_rpy. rewrite !rpy_matrix_entries.
  repeat split; reflexivity.
Qed.

Lemma set_rotation_rpy_overwrites_witness :
  shape 4 4 (matrix identity)
  /\ get_translation (set_rotation_rpy (set_translation identity (1, 2, 3)) 1 (PI / 2) 0)
     = (1, 2, 3).
Proof.
  split; [exact shape_identity_matrix|].
  pose proof (set_rotation_rpy_overwrites (set_translation identity (1, 2, 3))
                1 (PI / 2) 0 0 0 0
                (shape_set_translation identity (1, 2, 3) shape_identity_matrix))
    as (_ & Ht & _).
  exact Ht.
Defined.

(** ** Multiplication *)

Lemma shape_mul (A B : Transform) :
  shape 4 4 (matrix A) -> shape 4 4 (matrix B) -> shape 4 4 (matrix (mul A B)).
Proof.
  intros HA HB. entries A HA. entries B HB.
  split; [reflexivity | repeat constructor].
Qed.

(** X3.  On 4x4 matrices [*] is associative and [Transform()] is neutral on
    both sides (as matrices, entry by entry). *)
Theorem mul_monoid (A B C : Transform) :
  shape 4 4 (matrix A) -> shape 4 4 (matrix B) -> shape 4 4 (matrix C) ->
  matrix (mul identity A) = matrix A
  /\ matrix (mul A identity) = matrix A
  /\ matrix (mul (mul A B) C) = matrix (mul A (mul B C)).
Proof.
  intros HA HB HC. entries A HA. entries B HB. entries C HC.
  repeat split; cbn; rewrite ?py_sum_4; list_eq; ring.
Qed.

Lemma mul_monoid_witness :
  let A := init (Some (1, 2, 3)) None None in
  let B := init (Some (3, 4, 5)) None None in
  shape 4 4 (matrix A) /\ shape 4 4 (matrix B)
  /\ matrix (mul (mul A B) A) = matrix (mul A (mul B A)).
Proof.
  cbv zeta.
  assert (HA : shape 4 4 (matrix (init (Some (1, 2, 3)) None None)))
    by (split; [reflexivity | repeat constructor]).
  assert (HB : shape 4 4 (matrix (init (Some (3, 4, 5)) None None)))
    by (split; [reflexivity | repeat constructor]).
  split; [exact HA|]. split; [exact HB|].
  exact (proj2 (proj2 (mul_monoid _ _ _ HA HB HA))).
Defined.

(** X4.  The product of two homogeneous transforms composes them as rigid
    maps: its rotation block is the product of the rotation blocks and its
    translation is [R_T * t_U + t_T]; its last row is [[0, 0, 0, 1]]. *)
Theorem mul_composes (T U : Transform) :
  homogeneous T -> homogeneous U ->
  homogeneous (mul T U)
  /\ rotation_block (mul T U) = matrix_multiply (rotation_block T) (rotation_block U)
  /\ (let '(x, y, z) := get_translation U in
      let '(tx, ty, tz) := get_translation T in
      let Rm := rotation_block T in
      get_translation (mul T U)
      = (cell Rm 0 0 * x + cell Rm 0 1 * y + cell Rm 0 2 * z + tx,
         cell Rm 1 0 * x + cell Rm 1 1 * y + cell Rm 1 2 * z + ty,
         cell Rm 2 0 * x + cell Rm 2 1 * y + cell Rm 2 2 * z + tz)).
Proof.
  intros HT HU. rigid_entries T HT. rigid_entries U HU.
  split; [|split].
  - split; [split; [reflexivity | repeat constructor] |].
    cbn. rewrite ?py_sum_4. list_eq; ring.
  - cbn. rewrite ?py_sum_4, ?py_sum_3. list_eq; ring.
  - cbn. rewrite ?py_sum_4. unfold get_translation. cbn [matrix cell nth].
    vec3_eq; ring.
Qed.

Lemma mul_composes_witness :
  let T := init (Some (1, 2, 3)) None None in
  let U := init (Some (3, 4, 5)) None None in
  homogeneous T /\ homogeneous U /\ get_translation (mul T U) = (4, 6, 8).
Proof.
  cbv zeta.
  assert (HT : homogeneous (init (Some (1, 2, 3)) None None))
    by (split; [split; [reflexivity | repeat constructor] | reflexivity]).
  assert (HU : homogeneous (init (Some (3, 4, 5)) None None))
    by (split; [split; [reflexivity | repeat constructor] | reflexivity]).
  split; [exact HT|]. split; [exact HU|].
  destruct (mul_composes _ _ HT HU) as (_ & _ & Ht).
  etransitivity; [exact Ht|]. cbn. vec3_eq; ring.
Defined.

(** ** Inverse *)

(** X5.  On a rigid transform [inverse] is an involution, and the inverse of
    a product is the product of the inverses in the opposite order. *)
Theorem inverse_involutive (T U : Transform) :
  homogeneous T -> rotation T -> homogeneous U ->
  matrix (inverse (inverse T)) = matrix T
  /\ matrix (inverse (mul T U)) = matrix (mul (inverse U) (inverse T)).
Proof.
  intros HT Hrot HU. rigid_entries T HT. rigid_entries U HU.
  apply rotation_inv in Hrot.
  destruct Hrot as (H00 & H11 & H22 & H01 & H02 & H12).
  split; cbn; rewrite ?py_sum_4, ?py_sum_3; list_eq; nsatz.
Qed.

Lemma quarter_turn_rigid :
  homogeneous Scenario.quarter_turn /\ rotation Scenario.quarter_turn.
Proof.
  split.
  - split; [split; [reflexivity | repeat constructor] | reflexivity].
  - apply rotation_of_entries; lra.
Qed.

Lemma inverse_involutive_witness :
  let T := Scenario.quarter_turn in
  homogeneous T /\ rotation T /\ matrix (inverse (inverse T)) = matrix T.
Proof.
  cbv zeta.
  destruct quarter_turn_rigid as (Hh & Hr).
  split; [exact Hh|]. split; [exact Hr|].
  exact (proj1 (inverse_involutive _ _ Hh Hr Hh)).
Defined.

Lemma init_rigid_opt (t r : option vec3) :
  homogeneous (init t r None) /\ rotation (init t r None).
Proof.
  destruct t as [[[x y] z]|], r as [[[roll pitch] yaw]|].
  - apply init_rigid.
  - split; [split; [split; [reflexivity | repeat constructor] | reflexivity]|].
    apply rotation_of_entries; lra.
  - pose proof (sin2_cos2 roll) as Hr. pose proof (sin2_cos2 pitch) as Hp.
    pose proof (sin2_cos2 yaw) as Hy. unfold Rsqr in *.
    unfold init, set_rotation_rpy. rewrite rpy_matrix_entries. cbn.
    split; [split; [split; [reflexivity | repeat constructor] | reflexivity]|].
    apply rotation_of_entries; nsatz.
  - split; [split; [split; [reflexivity | repeat constructor] | reflexivity]|].
    apply rotation_of_entries; lra.
Qed.

(** X6.  Rigidity is kept by the operations: the inverse of a homogeneous
    transform whose rotation block is orthonormal with determinant 1 is
    again such a transform, and so is the product of two of them. *)
Theorem rigid_closed :
  (forall T : Transform,
     homogeneous T -> rotation T -> homogeneous (inverse T) /\ rotation (inverse T))
  /\ (forall T U : Transform,
        homogeneous T -> rotation T -> homogeneous U -> rotation U ->
        homogeneous (mul T U) /\ rotation (mul T U)).
Proof.
  split; [exact inverse_rigid | exact mul_rigid].
Qed.

Lemma rigid_closed_witness :
  let T := Scenario.quarter_turn in
  homogeneous T /\ rotation T
  /\ rotation (inverse T) /\ rotation (mul T (inverse T)).
Proof.
  cbv zeta.
  destruct quarter_turn_rigid as (Hh & Hr).
  destruct rigid_closed as (Hinv & Hmul).
  destruct (Hinv _ Hh Hr) as (Hh' & Hr').
  split; [exact Hh|]. split; [exact Hr|]. split; [exact Hr'|].
  exact (proj2 (Hmul _ _ Hh Hr Hh' Hr')).
Defined.

(** ** Equality *)

Lemma isclose_sym (a b tol : R) : isclose a b tol = isclose b a tol.
Proof.
  unfold isclose.
  replace (Rabs (b - a)) with (Rabs (a - b))
    by (rewrite <- Rabs_Ropp; f_equal; ring).
  rewrite (Rmax_comm (Rabs b) (Rabs a)). reflexivity.
Qed.

Lemma isclose_within (a b tol : R) : Rabs (a - b) <= tol -> isclose a b tol = true.
Proof.
  intros H. unfold isclose.
  destruct (Rle_dec _ _) as [|Hn]; [reflexivity|].
  exfalso. apply Hn. eapply Rle_trans; [exact H | apply Rmax_r].
Qed.

Lemma eq_cells (T U : Transform) :
  eq T U = true <->
  forall i j, (i < 4)%nat -> (j < 4)%nat ->
    isclose (cell (matrix T) i j) (cell (matrix U) i j) 1e-6 = true.
Proof.
  unfold eq. rewrite forallb_forall. split.
  - intros H i j Hi Hj.
    specialize (H i). rewrite forallb_forall in H.
    apply H; apply in_seq; lia.
  - intros H i Hi. apply forallb_forall. intros j Hj.
    apply in_seq in Hi, Hj. apply H; lia.
Qed.

Lemma matrix_translation (x y z : R) :
  matrix (init (Some (x, y, z)) None None)
  = [ [1; 0; 0; x]; [0; 1; 0; y]; [0; 0; 1; z]; [0; 0; 0; 1] ].
Proof. reflexivity. Qed.

Lemma eq_translation_x (a b : R) :
  Rabs (a - b) <= 1e-6 ->
  eq (init (Some (a, 0, 0)) None None) (init (Some (b, 0, 0)) None None) = true.
Proof.
  intros H. apply eq_cells. intros i j Hi Hj. apply isclose_within.
  rewrite !matrix_translation.
  destruct i as [|[|[|[|i]]]]; [| | | |lia];
    (destruct j as [|[|[|[|j]]]]; [| | | |lia]);
    cbn [cell nth]; try exact H;
    unfold Rminus; rewrite Rplus_opp_r, Rabs_R0; lra.
Qed.

(** X7.  [__eq__] on 4x4 transforms is reflexive and symmetric and holds
    whenever all entries differ by at most 1e-6; it is not transitive. *)
Theorem eq_tolerance :
  (forall T U : Transform,
     shape 4 4 (matrix T) -> shape 4 4 (matrix U) ->
     eq T T = true
     /\ eq T U = eq U T
     /\ ((forall i j, (i < 4)%nat -> (j < 4)%nat ->
            Rabs (cell (matrix T) i j - cell (matrix U) i j) <= 1e-6) ->
         eq T U = true))
  /\ (exists A B C : Transform,
        shape 4 4 (matrix A) /\ shape 4 4 (matrix B) /\ shape 4 4 (matrix C)
        /\ eq A B = true /\ eq B C = true /\ eq A C = false).
Proof.
  split.
  - intros T U _ _. split; [apply eq_of_matrix_eq; reflexivity|]. split.
    + assert (Hsym : forall A B, eq A B = true -> eq B A = true).
      { intros A B H. apply eq_cells. intros i j Hi Hj. rewrite isclose_sym.
        apply (proj1 (eq_cells A B) H); assumption. }
      destruct (eq T U) eqn:E1, (eq U T) eqn:E2; try reflexivity.
      * apply Hsym in E1. congruence.
      * apply Hsym in E2. congruence.
    + intros H. apply eq_cells. intros i j Hi Hj. apply isclose_within, H; assumption.
  - exists (init (Some (0, 0, 0)) None None),
           (init (Some (1e-6, 0, 0)) None None),
           (init (Some (2e-6, 0, 0)) None None).
    repeat (split; [split; [reflexivity | repeat constructor]|]).
    split; [|split].
    + apply eq_translation_x. rewrite <- Rabs_Ropp, Rabs_pos_eq; lra.
    + apply eq_translation_x. rewrite <- Rabs_Ropp, Rabs_pos_eq; lra.
    + destruct (eq _ _) eqn:E; [|reflexivity]. exfalso.
      rewrite eq_cells in E. specialize (E 0%nat 3%nat ltac:(lia) ltac:(lia)).
      rewrite !matrix_translation in E. cbn [cell nth] in E.
      unfold isclose in E.
      destruct (Rle_dec _ _) as [Hle|]; [|discriminate].
      rewrite Rabs_R0 in Hle.
      rewrite <- Rabs_Ropp, !Rabs_pos_eq in Hle by lra.
      rewrite (Rmax_right 0) in Hle by lra.
      rewrite Rmax_right in Hle by lra. lra.
Qed.

Lemma eq_tolerance_witness :
  let T := init (Some (0, 0, 0)) None None in
  let U := init (Some (1e-6, 0, 0)) None None in
  shape 4 4 (matrix T) /\ shape 4 4 (matrix U)
  /\ eq T T = true /\ eq T U = eq U T.
Proof.
  cbv zeta.
  assert (HT : shape 4 4 (matrix (init (Some (0, 0, 0)) None None)))
    by (split; [reflexivity | repeat constructor]).
  assert (HU : shape 4 4 (matrix (init (Some (1e-6, 0, 0)) None None)))
    by (split; [reflexivity | repeat constructor]).
  split; [exact HT|]. split; [exact HU|].
  destruct (proj1 eq_tolerance _ _ HT HU) as (Hrefl & Hsym & _).
  split; [exact Hrefl | exact Hsym].
Defined.

(** ** Roll, pitch, yaw *)

Lemma atan2_range (y x : R) : - PI < atan2 y x <= PI.
Proof.
  pose proof PI_RGT_0 as Hpi. pose proof (atan_bound (y / x)) as Hb.
  unfold atan2.
  destruct (Rlt_dec 0 x) as [Hx|Hx]; [lra|].
  destruct (Rlt_dec x 0) as [Hx'|Hx'].
  - destruct (Rle_dec 0 y) as [Hy|Hy].
    + assert (y / x <= 0).
      { pose proof (Rinv_lt_0_compat x Hx'). unfold Rdiv. nra. }
      assert (atan (y / x) <= 0).
      { rewrite <- atan_0. destruct (Req_dec (y / x) 0) as [->|Hne]; [lra|].
        left. apply atan_increasing. lra. }
      lra.
    + assert (0 < y / x).
      { pose proof (Rinv_lt_0_compat x Hx'). unfold Rdiv. nra. }
      assert (0 < atan (y / x)).
      { rewrite <- atan_0. apply atan_increasing. lra. }
      lra.
  - destruct (Rlt_dec 0 y); [lra|]. destruct (Rlt_dec y 0); lra.
Qed.

Lemma atan2_range_right (y x : R) : 0 <= x -> - (PI / 2) <= atan2 y x <= PI / 2.
Proof.
  intros Hx0.
  pose proof PI_RGT_0 as Hpi. pose proof (atan_bound (y / x)) as Hb.
  unfold atan2.
  destruct (Rlt_dec 0 x) as [Hx|Hx]; [lra|].
  destruct (Rlt_dec x 0) as [Hx'|Hx']; [lra|].
  destruct (Rlt_dec 0 y); [lra|]. destruct (Rlt_dec y 0); lra.
Qed.

(** X8.  [get_rotation_rpy] always returns angles of the principal ranges:
    roll and yaw in (-pi, pi], pitch in [-pi/2, pi/2]. *)
Theorem get_rotation_rpy_range (T : Transform) (roll pitch yaw : R) :
  get_rotation_rpy T = Some (roll, pitch, yaw) ->
  - PI < roll <= PI /\ - (PI / 2) <= pitch <= PI / 2 /\ - PI < yaw <= PI.
Proof.
  pose proof PI_RGT_0 as Hpi.
  unfold get_rotation_rpy, py_asin.
  set (Rm := rotation_block T).
  set (cp := sqrt (cell Rm 0 0 ^ 2 + cell Rm 1 0 ^ 2)).
  assert (Hcp : 0 <= cp) by apply sqrt_pos.
  destruct (Rlt_dec cp 1e-6).
  - destruct (Rle_dec (-1) (- cell Rm 2 0)) as [Hlo|]; [|discriminate].
    destruct (Rle_dec (- cell Rm 2 0) 1) as [Hhi|]; [|discriminate].
    intros H. injection H as <- <- <-.
    pose proof (asin_bound (- cell Rm 2 0)) as Hb.
    split; [|split; [exact Hb | lra]].
    destruct (Rlt_dec 0 (asin (- cell Rm 2 0))); apply atan2_range.
  - intros H. injection H as <- <- <-.
    split; [apply atan2_range|]. split; [apply atan2_range_right; exact Hcp|].
    apply atan2_range.
Qed.

Lemma get_rotation_rpy_range_witness :
  get_rotation_rpy (init (Some (1, 2, 3)) (Some (0, 0, 0)) None) = Some (0, 0, 0)
  /\ - PI < 0 <= PI /\ - (PI / 2) <= 0 <= PI / 2 /\ - PI < 0 <= PI.
Proof.
  pose proof PI_RGT_0 as Hpi.
  assert (H : get_rotation_rpy (init (Some (1, 2, 3)) (Some (0, 0, 0)) None) = Some (0, 0, 0)).
  { unfold init. apply get_rotation_rpy_regular; try lra.
    - apply shape_set_translation, shape_identity_matrix.
    - rewrite cos_0. lra. }
  split; [exact H|].
  exact (get_rotation_rpy_range _ 0 0 0 H).
Defined.

(** X9.  [get_rotation_rpy] raises ([ValueError] of [math.asin]) exactly
    when the first column of the block has [sqrt(R00^2 + R10^2) < 1e-6] and
    [R20] is outside [[-1, 1]]; it never raises on a 4x4 matrix whose
    rotation block is orthonormal. *)
Theorem get_rotation_rpy_raises (T : Transform) :
  let Rm := rotation_block T in
  (get_rotation_rpy T = None <->
   sqrt (cell Rm 0 0 ^ 2 + cell Rm 1 0 ^ 2) < 1e-6
   /\ (cell Rm 2 0 < -1 \/ 1 < cell Rm 2 0))
  /\ (shape 4 4 (matrix T) -> rotation T ->
      exists rotation_rpy, get_rotation_rpy T = Some rotation_rpy).
Proof.
  intros Rm. split.
  - unfold get_rotation_rpy, py_asin. fold Rm.
    destruct (Rlt_dec _ 1e-6) as [Hs|Hs].
    + destruct (Rle_dec (-1) (- cell Rm 2 0)) as [Hlo|Hlo].
      * destruct (Rle_dec (- cell Rm 2 0) 1) as [Hhi|Hhi].
        -- split; [discriminate|]. intros [_ [H|H]]; lra.
        -- split; [|reflexivity]. intros _. split; [exact Hs|]. left. lra.
      * split; [|reflexivity]. intros _. split; [exact Hs|]. right. lra.
    + split; [discriminate|]. intros [H _]. contradiction.
  - intros Hshape Hrot. apply get_rotation_rpy_is_Some.
    destruct (shape_4_4_inv _ Hshape)
      as (a00 & a01 & a02 & a03 & a10 & a11 & a12 & a13
          & a20 & a21 & a22 & a23 & a30 & a31 & a32 & a33 & HA).
    destruct T as [m]. simpl in HA. subst m.
    apply rotation_inv in Hrot. destruct Hrot as (H00 & _).
    cbn. nra.
Qed.

Lemma get_rotation_rpy_raises_witness :
  shape 4 4 (matrix Scenario.quarter_turn) /\ rotation Scenario.quarter_turn
  /\ exists rotation_rpy, get_rotation_rpy Scenario.quarter_turn = Some rotation_rpy.
Proof.
  destruct quarter_turn_rigid as ((Hs & _) & Hr).
  split; [exact Hs|]. split; [exact Hr|].
  exact (proj2 (get_rotation_rpy_raises Scenario.quarter_turn) Hs Hr).
Defined.

(** The angles that the regular branch extracts from a rotation matrix
    rebuild it. *)
Lemma regular_angles (a00 a01 a02 a10 a11 a12 a20 a21 a22 : R) :
  a00 * a00 + a10 * a10 + a20 * a20 = 1 ->
  a01 * a01 + a11 * a11 + a21 * a21 = 1 ->
  a02 * a02 + a12 * a12 + a22 * a22 = 1 ->
  a00 * a01 + a10 * a11 + a20 * a21 = 0 ->
  a00 * a02 + a10 * a12 + a20 * a22 = 0 ->
  a01 * a02 + a11 * a12 + a21 * a22 = 0 ->
  a00 * (a11 * a22 - a12 * a21) - a01 * (a10 * a22 - a12 * a20)
  + a02 * (a10 * a21 - a11 * a20) = 1 ->
  0 < sqrt (a00 ^ 2 + a10 ^ 2) ->
  rpy_matrix (atan2 a21 a22) (atan2 (- a20) (sqrt (a00 ^ 2 + a10 ^ 2))) (atan2 a10 a00)
  = [ [a00; a01; a02]; [a10; a11; a12]; [a20; a21; a22] ].
Proof.
  intros H00 H11 H22 H01 H02 H12 Hdet Hc.
  assert (Hrow : a21 * a21 + a22 * a22 = a00 * a00 + a10 * a10) by nsatz.
  assert (E01 : - a00 * a20 * a21 - a10 * a22 = a01 * (a00 * a00 + a10 * a10)) by nsatz.
  assert (E02 : - a00 * a20 * a22 + a10 * a21 = a02 * (a00 * a00 + a10 * a10)) by nsatz.
  assert (E11 : - a10 * a20 * a21 + a00 * a22 = a11 * (a00 * a00 + a10 * a10)) by nsatz.
  assert (E12 : - a10 * a20 * a22 - a00 * a21 = a12 * (a00 * a00 + a10 * a10)) by nsatz.
  set (c := sqrt (a00 ^ 2 + a10 ^ 2)) in *.
  assert (Hc2 : c * c = a00 * a00 + a10 * a10).
  { unfold c. rewrite sqrt_sqrt; [ring | nra]. }
  rewrite <- Hc2 in Hrow, E01, E02, E11, E12.
  assert (Hn_pitch : sqrt (c * c + - a20 * - a20) = 1).
  { replace (c * c + - a20 * - a20) with 1 by (rewrite Hc2; lra). apply sqrt_1. }
  assert (Hn_yaw : sqrt (a00 * a00 + a10 * a10) = c).
  { unfold c. f_equal. ring. }
  assert (Hn_roll : sqrt (a22 * a22 + a21 * a21) = c).
  { replace (a22 * a22 + a21 * a21) with (c * c) by lra. apply sqrt_square. lra. }
  destruct (atan2_sin_cos (- a20) c) as [Hsp Hcp]; [rewrite Hn_pitch; lra|].
  destruct (atan2_sin_cos a10 a00) as [Hsy Hcy]; [rewrite Hn_yaw; exact Hc|].
  destruct (atan2_sin_cos a21 a22) as [Hsr Hcr]; [rewrite Hn_roll; exact Hc|].
  rewrite Hn_pitch in Hsp, Hcp. rewrite Hn_yaw in Hsy, Hcy. rewrite Hn_roll in Hsr, Hcr.
  rewrite rpy_matrix_entries, Hsp, Hcp, Hsy, Hcy, Hsr, Hcr.
  assert (Hne : c <> 0) by lra.
  assert (Hcc : c * c <> 0) by nra.
  list_eq; try (field; exact Hne);
    (apply (Rmult_eq_reg_r (c * c)); [|exact Hcc]).
  - rewrite <- E01. field. exact Hne.
  - rewrite <- E02. field. exact Hne.
  - rewrite <- E11. field. exact Hne.
  - rewrite <- E12. field. exact Hne.
Qed.

(** The constructor applied to the translation and the extracted angles of
    a rigid transform of the regular branch gives the transform back. *)
Lemma init_of_extraction (T : Transform) :
  homogeneous T -> rotation T ->
  1e-6 <= sqrt (cell (rotation_block T) 0 0 ^ 2 + cell (rotation_block T) 1 0 ^ 2) ->
  exists rotation_rpy,
    get_rotation_rpy T = Some rotation_rpy
    /\ init (Some (get_translation T)) (Some rotation_rpy) None = T.
Proof.
  intros Hh Hrot Hreg.
  pose proof Hrot as Hrot'.
  destruct (homogeneous_inv _ Hh)
    as (a00 & a01 & a02 & a03 & a10 & a11 & a12 & a13
        & a20 & a21 & a22 & a23 & HA).
  destruct T as [m]. simpl in HA. subst m.
  pose proof (rotation_det _ _ _ _ _ _ _ _ _ _ _ _ _ Hrot') as Hdet.
  apply rotation_inv in Hrot. destruct Hrot as (H00 & H11 & H22 & H01 & H02 & H12).
  unfold get_rotation_rpy. cbn [rotation_block matrix firstn map cell nth] in *.
  destruct (Rlt_dec _ 1e-6) as [Hlt|_]; [lra|].
  eexists. split; [reflexivity|].
  unfold init, set_rotation_rpy, get_translation.
  rewrite (regular_angles a00 a01 a02 a10 a11 a12 a20 a21 a22) by (assumption || lra).
  reflexivity.
Qed.

(** X10.  Outside the gimbal band the extraction loses nothing: on a 4x4
    transform whose rotation block is orthonormal with determinant 1 and
    has [sqrt(R00^2 + R10^2) >= 1e-6], [set_rotation_rpy] applied to the
    angles of [get_rotation_rpy] gives the transform back, entry for entry. *)
Theorem rpy_extraction_exact (T : Transform) :
  shape 4 4 (matrix T) -> rotation T ->
  1e-6 <= sqrt (cell (rotation_block T) 0 0 ^ 2 + cell (rotation_block T) 1 0 ^ 2) ->
  exists roll pitch yaw,
    get_rotation_rpy T = Some (roll, pitch, yaw)
    /\ set_rotation_rpy T roll pitch yaw = T.
Proof.
  intros Hs Hrot Hreg.
  pose proof Hrot as Hrot'.
  destruct (shape_4_4_inv _ Hs)
    as (a00 & a01 & a02 & a03 & a10 & a11 & a12 & a13
        & a20 & a21 & a22 & a23 & a30 & a31 & a32 & a33 & HA).
  destruct T as [m]. simpl in HA. subst m.
  pose proof (rotation_det _ _ _ _ _ _ _ _ _ _ _ _ _ Hrot') as Hdet.
  apply rotation_inv in Hrot. destruct Hrot as (H00 & H11 & H22 & H01 & H02 & H12).
  unfold get_rotation_rpy. cbn [rotation_block matrix firstn map cell nth] in *.
  destruct (Rlt_dec _ 1e-6) as [Hlt|_]; [lra|].
  eexists _, _, _. split; [reflexivity|].
  unfold set_rotation_rpy.
  rewrite (regular_angles a00 a01 a02 a10 a11 a12 a20 a21 a22) by (assumption || lra).
  reflexivity.
Qed.

Lemma quarter_turn_regular :
  1e-6 <= sqrt (cell (rotation_block Scenario.quarter_turn) 0 0 ^ 2
                + cell (rotation_block Scenario.quarter_turn) 1 0 ^ 2).
Proof.
  cbn [Scenario.quarter_turn rotation_block matrix firstn map cell nth].
  replace (0 ^ 2 + 1 ^ 2) with 1 by ring. rewrite sqrt_1. lra.
Qed.

Lemma rpy_extraction_exact_witness :
  let T := Scenario.quarter_turn in
  shape 4 4 (matrix T) /\ rotation T
  /\ 1e-6 <= sqrt (cell (rotation_block T) 0 0 ^ 2 + cell (rotation_block T) 1 0 ^ 2)
  /\ exists roll pitch yaw,
      get_rotation_rpy T = Some (roll, pitch, yaw)
      /\ set_rotation_rpy T roll pitch yaw = T.
Proof.
  cbv zeta.
  destruct quarter_turn_rigid as ((Hs & _) & Hr).
  split; [exact Hs|]. split; [exact Hr|]. split; [exact quarter_turn_regular|].
  exact (rpy_extraction_exact _ Hs Hr quarter_turn_regular).
Defined.

End TransformLaws.

Section PoseLaws.
Import Transform.
Local Open Scope R_scope.

Lemma pose_to_sdf_element_constructed (p : Pose.Pose) (node : Xml.Element) :
  Pose.constructed p -> exists node', Pose.to_sdf_element p node = Some node'.
Proof.
  intros (t & r & Hp).
  destruct (get_rotation_rpy_init t r) as [rot Hrot].
  unfold Pose.to_sdf_element. rewrite Hp, Hrot.
  destruct (forallb _ _); eexists; reflexivity.
Qed.

(** X11.  Whenever [Pose.inverse] or [Pose.__mul__] returns, the result is
    the pose that the constructor builds from the translation and the roll,
    pitch and yaw read off the inverse (the product) of the transforms: it
    has the translation of that inverse (product) and the [relative_to] of
    the (left) operand. *)
Theorem pose_operations_results (p q r : Pose.Pose) :
  (Pose.inverse p = Some r ->
   Pose.constructed r
   /\ Pose.relative_to r = Pose.relative_to p
   /\ get_translation (Pose.transform r) = get_translation (inverse (Pose.transform p))
   /\ exists rpy,
        get_rotation_rpy (inverse (Pose.transform p)) = Some rpy
        /\ r = Pose.init (get_translation (inverse (Pose.transform p))) rpy
                 (Pose.relative_to p))
  /\ (Pose.mul p q = Some r ->
      Pose.constructed r
      /\ Pose.relative_to r = Pose.relative_to p
      /\ get_translation (Pose.transform r)
         = get_translation (mul (Pose.transform p) (Pose.transform q))
      /\ exists rpy,
           get_rotation_rpy (mul (Pose.transform p) (Pose.transform q)) = Some rpy
           /\ r = Pose.init (get_translation (mul (Pose.transform p) (Pose.transform q)))
                    rpy (Pose.relative_to p)).
Proof.
  split.
  - unfold Pose.inverse.
    destruct (get_rotation_rpy (inverse (Pose.transform p))) as [rpy|]; [|discriminate].
    intros H. injection H as <-.
    split; [apply pose_init_constructed|]. split; [reflexivity|].
    split; [unfold Pose.init, Pose.transform at 1; apply get_translation_init|].
    exists rpy. split; reflexivity.
  - unfold Pose.mul.
    destruct (get_rotation_rpy (mul (Pose.transform p) (Pose.transform q))) as [rpy|];
      [|discriminate].
    intros H. injection H as <-.
    split; [apply pose_init_constructed|]. split; [reflexivity|].
    split; [unfold Pose.init, Pose.transform at 1; apply get_translation_init|].
    exists rpy. split; reflexivity.
Qed.

Lemma pose_operations_results_witness :
  let p := Pose.init (1, 2, 3) (0, 0, PI / 2) (Some "world"%string) in
  let q := Pose.init_default in
  exists r, Pose.mul p q = Some r
            /\ Pose.constructed r /\ Pose.relative_to r = Some "world"%string.
Proof.
  cbv zeta.
  assert (Hp : Pose.constructed (Pose.init (1, 2, 3) (0, 0, PI / 2) (Some "world"%string)))
    by apply pose_init_constructed.
  assert (Hq : Pose.constructed Pose.init_default) by apply pose_init_constructed.
  destruct (pose_mul_constructed _ _ Hp Hq) as (r & Hr & _).
  exists r. split; [exact Hr|].
  destruct (proj2 (pose_operations_results _ _ r) Hr) as (Hc & Hrel & _).
  split; [exact Hc | exact Hrel].
Defined.

(** X12.  Outside the gimbal band the pose operations are exact: when the
    transforms of [p] and [q] are rigid and the inverse (the product) has a
    regular rotation block, the transform of [p.inverse()] is the inverse
    of the transform of [p] and the transform of [p * q] is the product of
    the transforms, entry for entry. *)
Theorem pose_operations_exact (p q : Pose.Pose) :
  homogeneous (Pose.transform p) -> rotation (Pose.transform p) ->
  homogeneous (Pose.transform q) -> rotation (Pose.transform q) ->
  (regular (inverse (Pose.transform p)) ->
   exists r, Pose.inverse p = Some r
             /\ Pose.transform r = inverse (Pose.transform p)
             /\ Pose.relative_to r = Pose.relative_to p)
  /\ (regular (mul (Pose.transform p) (Pose.transform q)) ->
      exists r, Pose.mul p q = Some r
                /\ Pose.transform r = mul (Pose.transform p) (Pose.transform q)
                /\ Pose.relative_to r = Pose.relative_to p).
Proof.
  intros Hhp Hrp Hhq Hrq. split.
  - intros Hreg.
    destruct (inverse_rigid _ Hhp Hrp) as (Hh & Hr).
    destruct (init_of_extraction _ Hh Hr Hreg) as (rot & Hrot & Hinit).
    unfold Pose.inverse. rewrite Hrot.
    eexists. split; [reflexivity|]. split; [exact Hinit | reflexivity].
  - intros Hreg.
    destruct (mul_rigid _ _ Hhp Hrp Hhq Hrq) as (Hh & Hr).
    destruct (init_of_extraction _ Hh Hr Hreg) as (rot & Hrot & Hinit).
    unfold Pose.mul. rewrite Hrot.
    eexists. split; [reflexivity|]. split; [exact Hinit | reflexivity].
Qed.

Lemma quarter_turn_inverse_regular : regular (inverse Scenario.quarter_turn).
Proof.
  unfold regular.
  assert (E : sqrt (cell (rotation_block (inverse Scenario.quarter_turn)) 0 0 ^ 2
                    + cell (rotation_block (inverse Scenario.quarter_turn)) 1 0 ^ 2) = 1).
  { cbn.
    match goal with
    | |- sqrt ?x = 1 => replace x with 1 by (unfold py_sum; simpl; ring)
    end.
    apply sqrt_1. }
  rewrite E. lra.
Qed.

Lemma pose_operations_exact_witness :
  let p := Pose.Build Scenario.quarter_turn (Some "world"%string) in
  homogeneous (Pose.transform p) /\ rotation (Pose.transform p)
  /\ regular (inverse (Pose.transform p))
  /\ exists r, Pose.inverse p = Some r
               /\ Pose.transform r = inverse (Pose.transform p)
               /\ Pose.relative_to r = Some "world"%string.
Proof.
  cbv zeta.
  destruct quarter_turn_rigid as (Hh & Hr).
  split; [exact Hh|]. split; [exact Hr|]. split; [exact quarter_turn_inverse_regular|].
  exact (proj1 (pose_operations_exact
                  (Pose.Build Scenario.quarter_turn (Some "world"%string))
                  (Pose.Build Scenario.quarter_turn None) Hh Hr Hh Hr)
               quarter_turn_inverse_regular).
Defined.

(** X13.  [transform2_to_pose] keeps the placement of the CAD matrix: for a
    rigid 4x4 matrix outside the gimbal band, the transform of the pose has
    the rotation block of the matrix and its translation divided by 100
    (cm to m); the pose is relative to [__model__]. *)
Theorem transform2_to_pose_exact (m : Adsk.Matrix3D) :
  homogeneous (Build m) -> rotation (Build m) -> regular (Build m) ->
  let pose := Util.transform2_to_pose m in
  rotation_block (Pose.transform pose) = rotation_block (Build m)
  /\ get_translation (Pose.transform pose)
     = (cell m 0 3 / 100, cell m 1 3 / 100, cell m 2 3 / 100)
  /\ homogeneous (Pose.transform pose)
  /\ Pose.relative_to pose = Some "__model__"%string.
Proof.
  intros Hh Hrot Hreg pose. unfold pose, Util.transform2_to_pose, Pose.init.
  cbn [Pose.transform Pose.relative_to].
  split; [|split; [|split; [|reflexivity]]].
  - pose proof Hrot as Hrot'.
    destruct (homogeneous_inv _ Hh)
      as (a00 & a01 & a02 & a03 & a10 & a11 & a12 & a13
          & a20 & a21 & a22 & a23 & HA).
    simpl in HA. subst m.
    pose proof (rotation_det _ _ _ _ _ _ _ _ _ _ _ _ _ Hrot') as Hdet.
    apply rotation_inv in Hrot. destruct Hrot as (H00 & H11 & H22 & H01 & H02 & H12).
    unfold regular in Hreg.
    unfold Util.matrix3d_to_rpy.
    cbn [Util.rotation_cells Adsk.getCell rotation_block matrix firstn map seq cell nth] in *.
    destruct (Rlt_dec _ 1e-6) as [Hlt|_]; [lra|]. cbn [negb].
    rewrite rotation_block_init.
    apply regular_angles; assumption || lra.
  - rewrite get_translation_init. unfold Util.cm_to_m_vec, Adsk.translation.
    vec3_eq; lra.
  - apply init_rigid.
Qed.

Lemma transform2_to_pose_exact_witness :
  let m := matrix Scenario.quarter_turn in
  homogeneous (Build m) /\ rotation (Build m) /\ regular (Build m)
  /\ rotation_block (Pose.transform (Util.transform2_to_pose m)) = rotation_block (Build m).
Proof.
  cbv zeta.
  destruct quarter_turn_rigid as (Hh & Hr).
  split; [exact Hh|]. split; [exact Hr|]. split; [exact quarter_turn_regular|].
  exact (proj1 (transform2_to_pose_exact _ Hh Hr quarter_turn_regular)).
Defined.

End PoseLaws.

Section UtilLaws.
Import Transform.

(** ** [name_to_path] *)

Lemma name_to_path_cons (a : ascii) (rest : string) :
  Util.name_to_path (String a rest)
  = match rest with
    | String b rest' =>
        if Util.is_underscore a && Util.is_underscore b
        then String "/" (Util.name_to_path rest')
        else String a (Util.name_to_path rest)
    | EmptyString => String a EmptyString
    end.
Proof. destruct rest; reflexivity. Qed.

Lemma has_double_underscore_cons (a : ascii) (rest : string) :
  Util.has_double_underscore (String a rest)
  = match rest with
    | String b _ =>
        (Util.is_underscore a && Util.is_underscore b)
        || Util.has_double_underscore rest
    | EmptyString => false
    end.
Proof. destruct rest; reflexivity. Qed.

(** The first character of the path of a name that does not start with
    ['__'] is the first character of the name. *)
Lemma first_char_name_to_path (a b : ascii) (rest : string) :
  Util.is_underscore a && Util.is_underscore b = false ->
  exists tail, Util.name_to_path (String a (String b rest)) = String a tail
               /\ Util.name_to_path (String b rest) = tail.
Proof.
  intros H. rewrite name_to_path_cons, H. eexists. split; reflexivity.
Qed.

Lemma name_to_path_facts (n : nat) (name : string) :
  (String.length name <= n)%nat ->
  Util.has_double_underscore (Util.name_to_path name) = false
  /\ (Util.has_double_underscore name = false -> Util.name_to_path name = name)
  /\ (String.length (Util.name_to_path name) <= String.length name)%nat.
Proof.
  revert name. induction n as [|n IH]; intros name Hlen.
  - destruct name; [|simpl in Hlen; lia]. repeat split; auto.
  - destruct name as [|a rest]; [repeat split; auto|].
    simpl in Hlen.
    destruct rest as [|b rest'].
    { repeat split; auto. }
    rewrite name_to_path_cons.
    destruct (Util.is_underscore a && Util.is_underscore b) eqn:Eab.
    + destruct (IH rest' ltac:(simpl in Hlen; lia)) as (Hno & _ & Hle).
      split; [|split].
      * rewrite has_double_underscore_cons.
        destruct (Util.name_to_path rest'); [reflexivity|].
        cbn [Util.is_underscore]. simpl andb. exact Hno.
      * rewrite has_double_underscore_cons, Eab. discriminate.
      * simpl String.length in *. lia.
    + destruct (IH (String b rest') ltac:(lia)) as (Hno & Hid & Hle).
      split; [|split].
      * rewrite has_double_underscore_cons.
        destruct (Util.name_to_path (String b rest')) as [|c tail] eqn:Etail;
          [reflexivity|].
        rewrite Hno, orb_false_r.
        destruct (Util.is_underscore a) eqn:Ea; [|reflexivity]. simpl.
        simpl in Eab.
        rewrite name_to_path_cons in Etail.
        destruct rest' as [|b' rest''].
        -- injection Etail as <- _. exact Eab.
        -- rewrite Eab in Etail. simpl in Etail. injection Etail as <- _. exact Eab.
      * rewrite has_double_underscore_cons, Eab, orb_false_l. intros H.
        rewrite (Hid H). reflexivity.
      * simpl String.length in *. lia.
Qed.

(** X14.  [name_to_path] (the replacement of ['__'] by ['/']) leaves no
    double underscore in its result, leaves a name without double underscore
    unchanged and never lengthens a name. *)
Theorem name_to_path_spec (name : string) :
  Util.has_double_underscore (Util.name_to_path name) = false
  /\ (Util.has_double_underscore name = false -> Util.name_to_path name = name)
  /\ (String.length (Util.name_to_path name) <= String.length name)%nat.
Proof. exact (name_to_path_facts (String.length name) name (le_n _)). Qed.

Lemma name_to_path_spec_witness :
  Util.has_double_underscore "arm_1" = false
  /\ Util.name_to_path "arm_1" = "arm_1"%string
  /\ Util.name_to_path "arm_1__body1_visual" = "arm_1/body1_visual"%string
  /\ Util.name_to_path "a___b" = "a/_b"%string.
Proof.
  split; [reflexivity|].
  split; [exact (proj1 (proj2 (name_to_path_spec "arm_1")) eq_refl)|].
  split; reflexivity.
Defined.

Local Open Scope R_scope.

(** X15.  [world_inertia_to_com_inertia] never raises on a short list: it
    shifts the first six terms at most and drops the others ([zip]); with
    mass 0, or with the centre of mass at the origin, it returns the (first
    six) terms unchanged. *)
Theorem world_inertia_to_com_inertia_edges (inertia : list R) (center_of_mass : vec3)
  (mass : R) :
  Datatypes.length (Util.world_inertia_to_com_inertia inertia center_of_mass mass)
  = Nat.min (Datatypes.length inertia) 6
  /\ Util.world_inertia_to_com_inertia inertia center_of_mass 0 = firstn 6 inertia
  /\ Util.world_inertia_to_com_inertia inertia (0, 0, 0) mass = firstn 6 inertia.
Proof.
  destruct center_of_mass as [[x y] z].
  unfold Util.world_inertia_to_com_inertia.
  split; [|split].
  - rewrite length_map, length_combine. reflexivity.
  - destruct inertia as [|a [|b [|c [|d [|e [|f rest]]]]]];
      cbn [combine map firstn]; rewrite ?combine_nil; cbn [map]; list_eq;
      try reflexivity; ring.
  - destruct inertia as [|a [|b [|c [|d [|e [|f rest]]]]]];
      cbn [combine map firstn]; rewrite ?combine_nil; cbn [map]; list_eq;
      try reflexivity; ring.
Qed.

End UtilLaws.


(** * The serialiser *)

Section XmlFacts.
Local Open Scope string_scope.

Lemma extend_nil (node : Xml.Element) : Xml.extend node [] = node.
Proof. destruct node. cbn. rewrite app_nil_r. reflexivity. Qed.

Lemma extend_app (node : Xml.Element) (l1 l2 : list Xml.Element) :
  Xml.extend (Xml.extend node l1) l2 = Xml.extend node (l1 ++ l2)%list.
Proof. destruct node. cbn. rewrite <- app_assoc. reflexivity. Qed.

Lemma append_extend (node child : Xml.Element) :
  Xml.append node child = Xml.extend node [child].
Proof. destruct node. reflexivity. Qed.

Lemma tag_extend (node : Xml.Element) (l : list Xml.Element) :
  Xml.tag (Xml.extend node l) = Xml.tag node.
Proof. destruct node. reflexivity. Qed.

Lemma attrib_extend (node : Xml.Element) (l : list Xml.Element) :
  Xml.attrib (Xml.extend node l) = Xml.attrib node.
Proof. destruct node. reflexivity. Qed.

Lemma children_extend (node : Xml.Element) (l : list Xml.Element) :
  Xml.children (Xml.extend node l) = (Xml.children node ++ l)%list.
Proof. destruct node. reflexivity. Qed.

(** [Pose.to_sdf_element] appends at most one element, a [pose]. *)
Lemma pose_to_sdf_element_extend (p : Pose.Pose) (node node' : Xml.Element) :
  Pose.to_sdf_element p node = Some node' ->
  exists added, node' = Xml.extend node added
                /\ (added = [] \/ exists e, added = [e] /\ Xml.tag e = "pose").
Proof.
  unfold Pose.to_sdf_element.
  destruct (Transform.get_rotation_rpy (Pose.transform p)) as [rot|]; [|discriminate].
  destruct (forallb _ _); intros H; injection H as <-.
  - exists []. split; [symmetry; apply extend_nil | left; reflexivity].
  - eexists [_]. split; [apply append_extend|]. right. eexists. split; reflexivity.
Qed.

(** ** Joints *)

(** X16.  A joint whose pose (if any) comes from the constructor is always
    written, as one [joint] element with the attributes [name] and [type]
    and with the children [parent], [child], [axis] in this order, after a
    [pose] child when the pose is not suppressed.  The [axis] element is
    written for every joint type: it holds an [xyz] child exactly when the
    joint has an axis and a [limit] child exactly when [lower_limit] is set. *)
Theorem joint_to_sdf_element_shape (self : Joint.Joint) (node : Xml.Element) :
  (forall p, Joint.pose self = Some p -> Pose.constructed p) ->
  exists joint_node,
    Joint.to_sdf_element self node = Some (Xml.append node joint_node)
    /\ Xml.tag joint_node = "joint"
    /\ Xml.attrib joint_node
       = [("name", Joint.name self);
          ("type", Joint.joint_type_value (Joint.joint_type self))]
    /\ (SDF.child_tags joint_node = ["parent"; "child"; "axis"]
        \/ (Joint.pose self <> None
            /\ SDF.child_tags joint_node = ["pose"; "parent"; "child"; "axis"]))
    /\ last (Xml.children joint_node) = Some (Joint.axis_element self)
    /\ SDF.child_tags (Joint.axis_element self)
       = (match Joint.axis_xyz self with Some _ => ["xyz"] | None => [] end
          ++ match Joint.lower_limit self with Some _ => ["limit"] | None => [] end)%list.
Proof.
  intros Hpose. unfold Joint.to_sdf_element.
  set (joint_node := Xml.Elem "joint" _ None []).
  assert (Hwritten : exists added,
             match Joint.pose self with
             | Some pose => Pose.to_sdf_element pose joint_node
             | None => Some joint_node
             end = Some (Xml.extend joint_node added)
             /\ (added = []
                 \/ (Joint.pose self <> None
                     /\ exists e, added = [e] /\ Xml.tag e = "pose"))).
  { destruct (Joint.pose self) as [p|] eqn:Ep.
    - destruct (pose_to_sdf_element_constructed p joint_node (Hpose p eq_refl))
        as (node' & Hnode').
      destruct (pose_to_sdf_element_extend _ _ _ Hnode') as (added & -> & Hadded).
      exists added. split; [exact Hnode'|].
      destruct Hadded as [->|He]; [left; reflexivity | right; split; [discriminate | exact He]].
    - exists []. split; [rewrite extend_nil; reflexivity | left; reflexivity]. }
  destruct Hwritten as (added & -> & Hadded).
  eexists. split; [reflexivity|].
  unfold joint_node. cbn [Xml.extend Xml.append Xml.tag Xml.attrib Xml.children app].
  split; [reflexivity|]. split; [reflexivity|]. split; [|split].
  - unfold SDF.child_tags. cbn [Xml.children].
    destruct Hadded as [->|(Hsome & e & -> & Htag)].
    + left. destruct (Joint.axis_element self) eqn:E.
      assert (Xml.tag (Joint.axis_element self) = "axis").
      { unfold Joint.axis_element.
        destruct (Joint.axis_xyz self), (Joint.lower_limit self); reflexivity. }
      rewrite E in H. cbn in H. subst. reflexivity.
    + right. split; [exact Hsome|].
      assert (Xml.tag (Joint.axis_element self) = "axis").
      { unfold Joint.axis_element.
        destruct (Joint.axis_xyz self), (Joint.lower_limit self); reflexivity. }
      cbn. rewrite Htag, H. reflexivity.
  - apply last_snoc.
  - unfold Joint.axis_element, SDF.child_tags.
    destruct (Joint.axis_xyz self), (Joint.lower_limit self); reflexivity.
Qed.

Lemma joint_to_sdf_element_shape_witness :
  let joint := Joint.init "base_link_joint" Joint.FIXED None (Some "base_link") None in
  (forall p, Joint.pose joint = Some p -> Pose.constructed p)
  /\ exists joint_node,
      Joint.to_sdf_element joint (Xml.Elem "model" [] None [])
      = Some (Xml.Elem "model" [] None [joint_node])
      /\ SDF.child_tags joint_node = ["parent"; "child"; "axis"].
Proof.
  cbv zeta.
  assert (Hpose : forall p,
             Joint.pose (Joint.init "base_link_joint" Joint.FIXED None (Some "base_link") None)
             = Some p -> Pose.constructed p) by discriminate.
  split; [exact Hpose|].
  destruct (joint_to_sdf_element_shape _ (Xml.Elem "model" [] None []) Hpose)
    as (joint_node & Hwrite & _ & _ & [Htags|(Hsome & _)] & _).
  - exists joint_node. split; [exact Hwrite | exact Htags].
  - exfalso. apply Hsome. reflexivity.
Defined.

(** ** Links *)

Lemma geometry_to_sdf_element_raises (g : Link.LinkGeometry) (node : Xml.Element) :
  Link.geometry_to_sdf_element g node = None
  <-> Link.geometry_type g = Link.BOX /\ Link.size g = None.
Proof.
  unfold Link.geometry_to_sdf_element.
  destruct (Link.geometry_type g) eqn:Et.
  - destruct (Link.size g) eqn:Es.
    + split; [discriminate | intros [_ H]; discriminate].
    + split; [auto | reflexivity].
  - split; [discriminate | intros [H _]; discriminate].
  - split; [discriminate | intros [H _]; discriminate].
Qed.

(** X17.  A visual or collision element whose pose (if any) comes from the
    constructor cannot be written exactly when it has no geometry
    ([AttributeError]) or its geometry is a box without size ([TypeError]);
    mesh and cylinder geometries are always written. *)
Theorem element_to_sdf_element_raises (e : Link.LinkElement) (node : Xml.Element) :
  (forall p, Link.element_pose e = Some p -> Pose.constructed p) ->
  (Link.element_to_sdf_element e node = None
   <-> Link.geometry e = None
       \/ exists g, Link.geometry e = Some g
                    /\ Link.geometry_type g = Link.BOX /\ Link.size g = None).
Proof.
  intros Hpose. unfold Link.element_to_sdf_element.
  set (link_node := Xml.Elem _ _ None []).
  assert (Hwritten : exists node',
             match Link.element_pose e with
             | Some pose => Pose.to_sdf_element pose link_node
             | None => Some link_node
             end = Some node').
  { destruct (Link.element_pose e) as [p|]; [|eauto].
    apply pose_to_sdf_element_constructed, Hpose. reflexivity. }
  destruct Hwritten as (node' & ->).
  destruct (Link.geometry e) as [g|].
  - destruct (Link.geometry_to_sdf_element g node') eqn:Eg.
    + split; [discriminate|].
      intros [H|(g' & Hg' & Hbox & Hsize)]; [discriminate|].
      injection Hg' as <-.
      assert (Link.geometry_to_sdf_element g node' = None)
        by (apply geometry_to_sdf_element_raises; auto).
      congruence.
    + split; [|reflexivity]. intros _. right. exists g. split; [reflexivity|].
      apply (geometry_to_sdf_element_raises g node'). exact Eg.
  - split; [|reflexivity]. intros _. left. reflexivity.
Qed.

Lemma element_to_sdf_element_raises_witness :
  let e := Link.element_init Link.COLLISION "arm_1__body1_collision" in
  (forall p, Link.element_pose e = Some p -> Pose.constructed p)
  /\ Link.element_to_sdf_element e (Xml.Elem "link" [] None []) = None.
Proof.
  cbv zeta.
  assert (Hpose : forall p,
             Link.element_pose (Link.element_init Link.COLLISION "arm_1__body1_collision")
             = Some p -> Pose.constructed p) by discriminate.
  split; [exact Hpose|].
  apply (element_to_sdf_element_raises _ (Xml.Elem "link" [] None []) Hpose).
  left. reflexivity.
Defined.

End XmlFacts.

(** * Invariants of the builder *)

Section BuilderInvariants.
Import SDF.
Local Open Scope string_scope.

Variable lower : string -> string.

Lemma pose_mul_result (p q r : Pose.Pose) : Pose.mul p q = Some r -> Pose.constructed r.
Proof.
  unfold Pose.mul. destruct (Transform.get_rotation_rpy _); [|discriminate].
  intros H. injection H as <-. apply pose_init_constructed.
Qed.

Lemma pose_inverse_result (p r : Pose.Pose) : Pose.inverse p = Some r -> Pose.constructed r.
Proof.
  unfold Pose.inverse. destruct (Transform.get_rotation_rpy _); [|discriminate].
  intros H. injection H as <-. apply pose_init_constructed.
Qed.

Lemma elements_ok_empty (link_name : string) (pose : option Pose.Pose)
  (inertial : option Link.LinkInertial) :
  elements_ok (Link.Build link_name pose ∅ ∅ inertial).
Proof. split; intros k e H; cbn in H; rewrite lookup_empty in H; discriminate. Qed.

(** ** [add_link] *)

Lemma add_link_body_ok (rigid_group_pose : option Pose.Pose) (self self' : SDF)
  (link link' : Link.Link) (body : Adsk.BRepBody) :
  (forall p, rigid_group_pose = Some p -> Pose.constructed p) ->
  add_link_body lower rigid_group_pose (self, link) body = Some (self', link') ->
  elements_ok link -> elements_ok link'.
Proof.
  intros Hpose Hrun [Hvis Hcol]. unfold add_link_body in Hrun.
  assert (Hvisual : forall name uri,
             element_ok (Link.BuildElement Link.VISUAL name rigid_group_pose
                           (Some (Link.BuildGeometry Link.MESH uri None 0.01%R)))).
  { intros name uri. split; [exact Hpose|].
    eexists. split; [reflexivity|]. cbn. discriminate. }
  match type of Hrun with
  | context [if ?b then _ else _] => destruct b
  end.
  - injection Hrun as _ <-. split; cbn [Link.visuals Link.collisions]; intros k e He.
    + apply lookup_insert_Some in He. destruct He as [[_ <-]|[_ He]]; [apply Hvisual | eauto].
    + apply lookup_insert_Some in He. destruct He as [[_ <-]|[_ He]]; [|eauto].
      split; [exact Hpose|]. eexists. split; [reflexivity|]. cbn. discriminate.
  - assert (Hcp : exists collision_pose,
               match rigid_group_pose with
               | Some group_pose =>
                   Pose.mul group_pose
                     (Pose.init
                        (Util.cm_to_m_vec
                           (Adsk.centerPoint (Adsk.orientedMinimumBoundingBox body)))
                        (Util.matrix3d_to_rpy
                           (Adsk.setWithCoordinateSystem
                              (Adsk.centerPoint (Adsk.orientedMinimumBoundingBox body))
                              (Adsk.heightDirection (Adsk.orientedMinimumBoundingBox body))
                              (Adsk.widthDirection (Adsk.orientedMinimumBoundingBox body))
                              (Adsk.lengthDirection (Adsk.orientedMinimumBoundingBox body))))
                        (Some "__model__"))
               | None =>
                   Some
                     (Pose.init
                        (Util.cm_to_m_vec
                           (Adsk.centerPoint (Adsk.orientedMinimumBoundingBox body)))
                        (Util.matrix3d_to_rpy
                           (Adsk.setWithCoordinateSystem
                              (Adsk.centerPoint (Adsk.orientedMinimumBoundingBox body))
                              (Adsk.heightDirection (Adsk.orientedMinimumBoundingBox body))
                              (Adsk.widthDirection (Adsk.orientedMinimumBoundingBox body))
                              (Adsk.lengthDirection (Adsk.orientedMinimumBoundingBox body))))
                        (Some "__model__"))
               end = Some collision_pose
               /\ Pose.constructed collision_pose).
    { destruct rigid_group_pose as [group_pose|].
      - destruct (pose_mul_constructed group_pose
                    (Pose.init
                       (Util.cm_to_m_vec
                          (Adsk.centerPoint (Adsk.orientedMinimumBoundingBox body)))
                       (Util.matrix3d_to_rpy
                          (Adsk.setWithCoordinateSystem
                             (Adsk.centerPoint (Adsk.orientedMinimumBoundingBox body))
                             (Adsk.heightDirection (Adsk.orientedMinimumBoundingBox body))
                             (Adsk.widthDirection (Adsk.orientedMinimumBoundingBox body))
                             (Adsk.lengthDirection (Adsk.orientedMinimumBoundingBox body))))
                       (Some "__model__")))
          as (p' & Hmul & Hc & _);
          [apply Hpose; reflexivity | apply pose_init_constructed | eauto].
      - eexists. split; [reflexivity | apply pose_init_constructed]. }
    destruct Hcp as (collision_pose & Ecp & Hcp). rewrite Ecp in Hrun.
    injection Hrun as _ <-. split; cbn [Link.visuals Link.collisions]; intros k e He.
    + apply lookup_insert_Some in He. destruct He as [[_ <-]|[_ He]]; [apply Hvisual | eauto].
    + apply lookup_insert_Some in He. destruct He as [[_ <-]|[_ He]]; [|eauto].
      split.
      * intros p Hp. injection Hp as <-. exact Hcp.
      * eexists. split; [reflexivity|]. cbn. intros _. eexists. reflexivity.
Qed.

Lemma add_link_bodies_ok (rigid_group_pose : option Pose.Pose)
  (bodies : list Adsk.BRepBody) (self self' : SDF) (link link' : Link.Link) :
  (forall p, rigid_group_pose = Some p -> Pose.constructed p) ->
  for_each (add_link_body lower rigid_group_pose) bodies (self, link) = Some (self', link') ->
  elements_ok link -> elements_ok link'.
Proof.
  intros Hpose. revert self link.
  induction bodies as [|body bodies IH]; intros self link Hrun Hok.
  - injection Hrun as _ <-. exact Hok.
  - cbn [for_each] in Hrun.
    destruct (add_link_body lower rigid_group_pose (self, link) body)
      as [[self1 link1]|] eqn:Ebody; [|discriminate].
    eapply IH; [exact Hrun|]. eapply add_link_body_ok; eassumption.
Qed.

Lemma link_inertial_ok (self self' : SDF) (link : Link.Link) (link_pose : Pose.Pose)
  (rigid_group_pose : option Pose.Pose) (properties : Adsk.PhysicalProperties)
  (inertial : Link.LinkInertial) :
  link_inertial self link link_pose rigid_group_pose properties = Some (self', inertial) ->
  Pose.constructed (Link.inertial_pose inertial).
Proof.
  unfold link_inertial.
  destruct (Adsk.centerOfMass properties) as [[cx cy] cz].
  destruct (Adsk.moments properties) as [[[[[xx yy] zz] xy] yz] xz].
  destruct (Adsk.inertia_valid properties);
    cbn [Util.world_inertia_to_com_inertia Util.cm_to_m_vec map combine];
    (destruct (Pose.inverse link_pose) as [inverse_pose|]; [|discriminate]);
    match goal with
    | |- context [match ?m with Some _ => _ | None => None end] =>
        destruct m as [p|] eqn:Ep; [|discriminate]
    end;
    intros H; injection H as _ <-; cbn [Link.inertial_pose];
    (assert (Hp : Pose.constructed p);
     [ destruct rigid_group_pose as [group_pose|];
       [ destruct (Pose.mul inverse_pose group_pose); [|discriminate];
         eapply pose_mul_result; exact Ep
       | eapply pose_mul_result; exact Ep ]
     | destruct Hp as (t & r & Hp); exists t, r; exact Hp ]).
Qed.

Lemma add_link_result_ok (self self' : SDF) (occurrence : Adsk.Occurrence)
  (prefix : string) (rigid_group_pose : option Pose.Pose) (link : Link.Link) :
  (forall p, rigid_group_pose = Some p -> Pose.constructed p) ->
  add_link lower self occurrence prefix rigid_group_pose = Some (self', Some link) ->
  link_ok link.
Proof.
  intros Hpose. unfold add_link.
  destruct (decide _); [discriminate|].
  destruct (occurrences_in_rigid_groups _ !! _); [discriminate|].
  destruct (Adsk.bRepBodies occurrence) as [|body bodies]; [discriminate|].
  set (link_pose := match rigid_group_pose with
                    | Some group_pose => group_pose
                    | None => Util.transform2_to_pose (Adsk.transform2 occurrence)
                    end).
  assert (Hlink_pose : Pose.constructed link_pose).
  { unfold link_pose. destruct rigid_group_pose as [p|]; [apply Hpose; reflexivity|].
    apply transform2_to_pose_constructed. }
  match goal with
  | |- context [for_each ?f ?l ?s] =>
      destruct (for_each f l s) as [[self1 link1]|] eqn:Ebodies; [|discriminate]
  end.
  destruct (link_inertial self1 link1 link_pose rigid_group_pose
              (Adsk.physicalProperties occurrence)) as [[self2 inertial]|] eqn:Einertial;
    [|discriminate].
  intros H. injection H as _ <-.
  pose proof (add_link_bodies_ok _ _ _ _ _ _ Hpose Ebodies (elements_ok_empty _ _ _)) as Hel.
  match type of Ebodies with
  | for_each _ _ (?s0, ?l0) = _ =>
      destruct (add_link_bodies_spec lower rigid_group_pose (body :: bodies) s0 l0 Hpose)
        as (s1 & l1 & Hrun & _ & _ & Hpose1)
  end.
  rewrite Hrun in Ebodies. injection Ebodies as -> ->.
  split; [|split].
  - cbn [Link.pose]. rewrite Hpose1. cbn [Link.pose].
    intros p Hp. injection Hp as <-. exact Hlink_pose.
  - cbn [Link.inertial]. intros i Hi. injection Hi as <-.
    eapply link_inertial_ok. exact Einertial.
  - exact Hel.
Qed.

(** ** Steps that keep the invariants *)

Lemma grows_refl (self : SDF) : grows self self.
Proof. repeat split; reflexivity. Qed.

Lemma grows_trans (s1 s2 s3 : SDF) : grows s1 s2 -> grows s2 s3 -> grows s1 s3.
Proof.
  intros (? & ? & ? & ? & ?) (? & ? & ? & ? & ?).
  repeat split; try congruence; etransitivity; eassumption.
Qed.

Lemma keeps_refl (prefix : string) (self : SDF) : keeps prefix self self.
Proof. split; [apply grows_refl | split; auto]. Qed.

Lemma keeps_trans (prefix : string) (s1 s2 s3 : SDF) :
  keeps prefix s1 s2 -> keeps prefix s2 s3 -> keeps prefix s1 s3.
Proof.
  intros (Hg1 & Hw1 & Hn1) (Hg2 & Hw2 & Hn2).
  split; [eapply grows_trans; eassumption | split; auto].
Qed.

Lemma keeps_weaken (prefix prefix' : string) (self self' : SDF) :
  (Util.all_name_chars prefix = true -> Util.all_name_chars prefix' = true) ->
  keeps prefix' self self' -> keeps prefix self self'.
Proof. intros Himp (Hg & Hw & Hn). split; [exact Hg | split; auto]. Qed.

(** A state that differs in the attributes, the rigid-group table or the
    console only. *)
Lemma keeps_same_tables (prefix : string) (self self' : SDF) :
  links self' = links self -> joints self' = joints self ->
  fusion_joints self' = fusion_joints self ->
  design self' = design self -> name self' = name self ->
  root_link self' = root_link self ->
  keeps prefix self self'.
Proof.
  intros Hl Hj Hf Hd Hn Hr.
  split; [|split].
  - unfold grows. rewrite Hl, Hj. repeat split; auto.
  - unfold well_formed. rewrite Hl, Hj. auto.
  - unfold names_normalized. rewrite Hl, Hj, Hf. auto.
Qed.

Lemma all_name_chars_app (a b : string) :
  Util.all_name_chars (a ++ b) = Util.all_name_chars a && Util.all_name_chars b.
Proof.
  induction a as [|c a IH]; [reflexivity|].
  change (String c a ++ b) with (String c (a ++ b)).
  cbn [Util.all_name_chars]. rewrite IH. apply andb_assoc.
Qed.

Lemma link_name_normalized (prefix name : string) :
  Util.all_name_chars prefix = true ->
  Util.all_name_chars (prefix ++ normalize_name lower name) = true.
Proof.
  intros H. rewrite all_name_chars_app, H. apply normalize_name_all_name_chars.
Qed.

Lemma children_prefix_normalized (prefix name : string) :
  Util.all_name_chars prefix = true ->
  Util.all_name_chars (prefix ++ normalize_name lower name ++ "__") = true.
Proof.
  intros H. rewrite !all_name_chars_app, H.
  unfold normalize_name. rewrite normalize_name_all_name_chars. reflexivity.
Qed.

Lemma add_link_keeps (self : SDF) (occurrence : Adsk.Occurrence) (prefix : string)
  (rigid_group_pose : option Pose.Pose) :
  (forall p, rigid_group_pose = Some p -> Pose.constructed p) ->
  exists self' result,
    add_link lower self occurrence prefix rigid_group_pose = Some (self', result)
    /\ keeps prefix self self'
    /\ joints self' = joints self
    /\ fusion_joints self' = fusion_joints self
    /\ occurrences_in_rigid_groups self' = occurrences_in_rigid_groups self.
Proof.
  intros Hpose.
  destruct (add_link_spec lower self occurrence prefix rigid_group_pose Hpose)
    as (self' & result & Hrun & (Hd & Hn & Hj & Hf & Ho & Hr) & Hcases).
  exists self', result. split; [exact Hrun|].
  split; [|auto].
  assert (Hsame : links self' = links self -> keeps prefix self self')
    by (intros Hl; apply keeps_same_tables; assumption).
  destruct Hcases as [(_ & _ & Hl & _)|[(_ & g & _ & _ & Hl & _)
                     |[(_ & _ & _ & _ & Hl & _)|(Hfresh & _ & _ & link & -> & Hname & Hl & _)]]];
    try (apply Hsame; exact Hl).
  pose proof (add_link_result_ok _ _ _ _ _ _ Hpose Hrun) as Hok.
  apply not_elem_of_dom in Hfresh.
  split; [|split].
  - unfold grows. rewrite Hl, Hj. repeat split; auto.
    apply insert_subseteq. exact Hfresh.
  - intros [Hlinks Hjoints]. split.
    + intros k l. rewrite Hl. intros Hk.
      apply lookup_insert_Some in Hk. destruct Hk as [[<- <-]|[_ Hk]]; [|eauto].
      split; [exact Hname | exact Hok].
    + rewrite Hj. exact Hjoints.
  - intros Hprefix (Hkl & Hkj & Hkf). split; [|split].
    + intros k. rewrite Hl, dom_insert. intros Hk.
      apply elem_of_union in Hk. destruct Hk as [Hk|Hk]; [|auto].
      apply elem_of_singleton in Hk. subst k. apply link_name_normalized. exact Hprefix.
    + rewrite Hj. exact Hkj.
    + rewrite Hf. exact Hkf.
Qed.

(** ** The traversal *)

(** Induction on an occurrence, with the property for its children. *)
Lemma occurrence_nested_ind (P : Adsk.Occurrence -> Prop) :
  (forall name id transform2 bodies properties children groups joints asBuiltJoints,
     Forall P children ->
     P (Adsk.MkOccurrence name id transform2 bodies properties children groups joints
          asBuiltJoints)) ->
  forall occurrence, P occurrence.
Proof.
  intros Hstep. fix IH 1. intros [name id transform2 bodies properties children groups js abs].
  apply Hstep. induction children as [|child children IHc]; constructor.
  - apply IH.
  - exact IHc.
Qed.

Lemma fold_rigid_group_table (occurrences : list Adsk.OccurrenceRef) (group_link : string)
  (self : SDF) :
  let self' :=
    fold_left
      (fun self occurrence =>
         set_occurrences_in_rigid_groups self
           (<[Adsk.ref_name occurrence := group_link]> (occurrences_in_rigid_groups self)))
      occurrences self in
  links self' = links self /\ joints self' = joints self
  /\ fusion_joints self' = fusion_joints self /\ design self' = design self
  /\ name self' = name self /\ root_link self' = root_link self
  /\ attributes self' = attributes self.
Proof.
  revert self. induction occurrences as [|o occurrences IH]; intros self; cbn [fold_left].
  - repeat split.
  - destruct (IH (set_occurrences_in_rigid_groups self
                    (<[Adsk.ref_name o := group_link]> (occurrences_in_rigid_groups self))))
      as (? & ? & ? & ? & ? & ? & ?).
    repeat split; assumption.
Qed.

Lemma fold_fusion_joints (found : list Adsk.Joint) (as_built : bool) (prefix : string)
  (self : SDF) :
  let self' :=
    fold_left
      (fun self joint =>
         set_fusion_joints self (fusion_joints self ++ [(joint, as_built, prefix)])%list)
      found self in
  links self' = links self /\ joints self' = joints self
  /\ fusion_joints self'
     = (fusion_joints self ++ map (fun joint => (joint, as_built, prefix)) found)%list
  /\ design self' = design self /\ name self' = name self
  /\ root_link self' = root_link self.
Proof.
  revert self. induction found as [|j found IH]; intros self; cbn [fold_left map].
  - rewrite app_nil_r. repeat split.
  - destruct (IH (set_fusion_joints self (fusion_joints self ++ [(j, as_built, prefix)])%list))
      as (Hl & Hj & Hf & Hd & Hn & Hr).
    cbn [fusion_joints set_fusion_joints links joints design name root_link] in *.
    rewrite Hf, <- app_assoc. repeat split; assumption.
Qed.

Lemma fold_fusion_joints_keeps (found : list Adsk.Joint) (as_built : bool)
  (prefix : string) (self : SDF) :
  keeps prefix self
    (fold_left
       (fun self joint =>
          set_fusion_joints self (fusion_joints self ++ [(joint, as_built, prefix)])%list)
       found self).
Proof.
  destruct (fold_fusion_joints found as_built prefix self) as (Hl & Hj & Hf & Hd & Hn & Hr).
  split; [|split].
  - unfold grows. rewrite Hl, Hj. repeat split; auto.
  - unfold well_formed. rewrite Hl, Hj. auto.
  - unfold names_normalized. rewrite Hl, Hj, Hf. intros Hp (? & ? & Hfj).
    repeat split; try assumption.
    apply Forall_app. split; [exact Hfj|].
    apply Forall_map. apply Forall_forall. intros j _. exact Hp.
Qed.

Lemma add_rigid_group_keeps (self : SDF) (parent_pose : Adsk.Matrix3D)
  (rigid_group : Adsk.RigidGroup) (prefix : string) :
  exists self' result,
    add_rigid_group lower self parent_pose rigid_group prefix = Some (self', result)
    /\ keeps prefix self self'
    /\ joints self' = joints self.
Proof.
  unfold add_rigid_group.
  match goal with
  | |- context [add_link lower ?s ?o "" ?p] =>
      destruct (add_link_keeps s o "" p) as (self1 & result & Hrun & Hkeeps & Hj & Hf & _)
  end.
  { intros p Hp. injection Hp as <-. apply transform2_to_pose_constructed. }
  rewrite Hrun.
  eexists _, _. split; [reflexivity|].
  match goal with
  | |- context [fold_left ?f ?l ?s] =>
      destruct (fold_rigid_group_table l
                  ((prefix ++ normalize_name lower (Adsk.group_name rigid_group)) ++ "_1") s)
        as (Hl2 & Hj2 & Hf2 & Hd2 & Hn2 & Hr2 & _)
  end.
  split.
  - eapply keeps_trans; [eapply keeps_weaken; [|exact Hkeeps]; reflexivity|].
    apply keeps_same_tables; cbn [links joints fusion_joints design name root_link log];
      assumption.
  - cbn [joints log]. rewrite Hj2. exact Hj.
Qed.

Lemma add_rigid_groups_keeps (groups : list Adsk.RigidGroup) (parent_pose : Adsk.Matrix3D)
  (prefix : string) (self : SDF) (result : option Link.Link) :
  exists self' result',
    for_each
      (fun '(self, _) rigid_group =>
         add_rigid_group lower self parent_pose rigid_group prefix)
      groups (self, result) = Some (self', result')
    /\ keeps prefix self self'
    /\ joints self' = joints self.
Proof.
  revert self result. induction groups as [|g groups IH]; intros self result; cbn [for_each].
  - eexists _, _. split; [reflexivity|]. split; [apply keeps_refl | reflexivity].
  - destruct (add_rigid_group_keeps self parent_pose g prefix)
      as (self1 & result1 & Hrun & Hk1 & Hj1).
    rewrite Hrun.
    destruct (IH self1 result1) as (self2 & result2 & Hrest & Hk2 & Hj2).
    exists self2, result2. split; [exact Hrest|].
    split; [eapply keeps_trans; eassumption | congruence].
Qed.

Lemma parse_occurrence_keeps (occurrence : Adsk.Occurrence) :
  forall (self : SDF) (prefix : string),
  exists self',
    parse_occurrence lower self occurrence prefix = Some self'
    /\ keeps prefix self self'
    /\ joints self' = joints self.
Proof.
  induction occurrence as [oname oid transform2 bodies properties children groups js abs IH]
    using occurrence_nested_ind.
  intros self prefix. cbn [parse_occurrence].
  set (occurrence := Adsk.MkOccurrence oname oid transform2 bodies properties children
                       groups js abs).
  destruct (add_link_keeps (log self (LogParseOccurrence oname prefix)) occurrence prefix None)
    as (self1 & result1 & Hrun1 & Hk1 & Hj1 & _); [discriminate|].
  rewrite Hrun1.
  set (children_prefix := prefix ++ normalize_name lower oname ++ "__").
  destruct (add_rigid_groups_keeps groups transform2 children_prefix self1 None)
    as (self2 & result2 & Hrun2 & Hk2 & Hj2).
  rewrite Hrun2.
  set (self3 := match result2 with
                | Some link => attributes_add self2 oid (Link.name link)
                | None => self2
                end).
  assert (Hk3 : keeps children_prefix self2 self3 /\ joints self3 = joints self2).
  { unfold self3. destruct result2; split; try reflexivity; try apply keeps_refl.
    apply keeps_same_tables; reflexivity. }
  destruct Hk3 as (Hk3 & Hj3).
  assert (Hloop : forall (l : list Adsk.Occurrence) (s : SDF),
             Forall (fun o => forall s p, exists s',
                         parse_occurrence lower s o p = Some s'
                         /\ keeps p s s' /\ joints s' = joints s) l ->
             exists s',
               (fix loop (l : list Adsk.Occurrence) (self : SDF) : option SDF :=
                  match l with
                  | [] => Some self
                  | suboccurrence :: l' =>
                      match parse_occurrence lower self suboccurrence children_prefix with
                      | Some self' => loop l' self'
                      | None => None
                      end
                  end) l s = Some s'
               /\ keeps children_prefix s s' /\ joints s' = joints s).
  { intros l. induction l as [|o l IHl]; intros s Hall.
    - exists s. split; [reflexivity|]. split; [apply keeps_refl | reflexivity].
    - inversion Hall as [|? ? Ho Hl]; subst.
      destruct (Ho s children_prefix) as (s1 & Hrun & Hk & Hj).
      rewrite Hrun.
      destruct (IHl s1 Hl) as (s2 & Hrest & Hk' & Hj').
      exists s2. split; [exact Hrest|].
      split; [eapply keeps_trans; eassumption | congruence]. }
  destruct (Hloop children self3 IH) as (self4 & Hrun4 & Hk4 & Hj4).
  rewrite Hrun4.
  eexists. split; [reflexivity|].
  pose proof (fold_fusion_joints_keeps js false children_prefix self4) as Hk5.
  set (self5 := fold_left _ js self4) in *.
  pose proof (fold_fusion_joints_keeps abs true children_prefix self5) as Hk6.
  destruct (fold_fusion_joints js false children_prefix self4) as (_ & Hj5 & _).
  fold self5 in Hj5.
  destruct (fold_fusion_joints abs true children_prefix self5) as (_ & Hj6 & _).
  split.
  - eapply keeps_trans; [eapply keeps_trans; [apply keeps_same_tables; reflexivity|exact Hk1]|].
    apply (keeps_weaken prefix children_prefix);
      [intros Hp; apply children_prefix_normalized; exact Hp|].
    eapply keeps_trans; [exact Hk2|].
    eapply keeps_trans; [exact Hk3|].
    eapply keeps_trans; [exact Hk4|].
    eapply keeps_trans; [exact Hk5 | exact Hk6].
  - rewrite Hj6, Hj5, Hj4, Hj3, Hj2, Hj1. reflexivity.
Qed.

(** ** Joint resolution *)

Lemma add_joint_result (self self' : SDF) (fusion_joint : Adsk.Joint) (as_built : bool)
  (prefix : string) :
  add_joint lower self fusion_joint as_built prefix = Some self' ->
  let joint_name := prefix ++ normalize_name lower (Adsk.joint_name fusion_joint) in
  links self' = links self /\ fusion_joints self' = fusion_joints self
  /\ design self' = design self /\ name self' = name self
  /\ root_link self' = root_link self
  /\ ((joint_name ∈ dom (joints self) /\ joints self' = joints self)
      \/ ((joint_name ∉ dom (joints self))
          /\ exists joint,
              joints self' = <[joint_name := joint]> (joints self)
              /\ Joint.name joint = joint_name
              /\ (forall p, Joint.pose joint = Some p -> Pose.constructed p)
              /\ (exists parent child,
                    Joint.parent joint = Some parent /\ Joint.child joint = Some child))).
Proof.
  intros Hrun joint_name. unfold add_joint in Hrun. fold joint_name in Hrun.
  cbn [joints log] in Hrun.
  destruct (decide (joint_name ∈ dom (joints self))) as [Hin|Hfresh].
  { injection Hrun as <-. repeat split. left. split; [exact Hin | reflexivity]. }
  assert (Hpose : forall p,
             match Adsk.geometry_origin fusion_joint with
             | Some origin =>
                 Some (Pose.init (Util.cm_to_m_vec origin) (0, 0, 0)%R (Some "__model__"))
             | None => None
             end = Some p -> Pose.constructed p).
  { intros p Hp. destruct (Adsk.geometry_origin fusion_joint); [|discriminate].
    injection Hp as <-. apply pose_init_constructed. }
  unfold joint_link_name in Hrun.
  destruct (Adsk.jointMotion fusion_joint) as [|axis limits|axis limits| | | |];
    cbn [Adsk.jointType Adsk.rotationAxisVector Adsk.rotationLimits
         Adsk.slideDirectionVector Adsk.slideLimits occurrences_in_rigid_groups
         attributes log design] in Hrun;
    try (destruct (Adsk.isMinimumValueEnabled limits || Adsk.isMaximumValueEnabled limits));
    (destruct (Adsk.occurrenceTwo fusion_joint) as [o2|]; [|discriminate]);
    (destruct (match occurrences_in_rigid_groups self !! Adsk.ref_name o2 with
               | Some group_link => Some group_link
               | None => attributes self !! Adsk.ref_id o2
               end) as [parent|]; [|discriminate]);
    (destruct (Adsk.occurrenceOne fusion_joint) as [o1|]; [|discriminate]);
    (destruct (match occurrences_in_rigid_groups self !! Adsk.ref_name o1 with
               | Some group_link => Some group_link
               | None => attributes self !! Adsk.ref_id o1
               end) as [child|]; [|discriminate]);
    destruct (user_flag (design self) (joint_name ++ "_SWAP_PARENT_CHILD"));
    try destruct axis as [[x y] z];
    cbv beta iota zeta in Hrun;
    injection Hrun as <-;
    (repeat split; right; split; [exact Hfresh|];
     eexists; split; [reflexivity|]; split; [reflexivity|];
     split; [exact Hpose | eexists _, _; split; reflexivity]).
Qed.

(** X19.  [add_joint] raises exactly when the name of the joint is new and
    one of its two occurrences does not resolve to a link name: the joint
    has no such occurrence (geometry of the root component), or the
    occurrence is in no rigid group and carries no [link_name] attribute. *)
Theorem add_joint_raises (self : SDF) (fusion_joint : Adsk.Joint) (as_built : bool)
  (prefix : string) :
  let joint_name := prefix ++ normalize_name lower (Adsk.joint_name fusion_joint) in
  add_joint lower self fusion_joint as_built prefix = None
  <-> (joint_name ∉ dom (joints self))
      /\ (joint_link_name self (Adsk.occurrenceTwo fusion_joint) = None
          \/ joint_link_name self (Adsk.occurrenceOne fusion_joint) = None).
Proof.
  intros joint_name. unfold add_joint. fold joint_name. cbn [joints log].
  destruct (decide (joint_name ∈ dom (joints self))) as [Hin|Hfresh].
  { split; [discriminate | intros [Hn _]; contradiction]. }
  assert (Hlog : forall (s : SDF) o,
             occurrences_in_rigid_groups s = occurrences_in_rigid_groups self ->
             attributes s = attributes self ->
             joint_link_name s o = joint_link_name self o).
  { intros s o Ho Ha. unfold joint_link_name. rewrite Ho, Ha. reflexivity. }
  destruct (Adsk.jointMotion fusion_joint) as [|axis limits|axis limits| | | |];
    cbn [Adsk.jointType Adsk.rotationAxisVector Adsk.rotationLimits
         Adsk.slideDirectionVector Adsk.slideLimits];
    try (destruct (Adsk.isMinimumValueEnabled limits || Adsk.isMaximumValueEnabled limits));
    rewrite ?Hlog by reflexivity;
    (destruct (joint_link_name self (Adsk.occurrenceTwo fusion_joint)) as [parent|];
     [|split; [intros _; split; [exact Hfresh | left; reflexivity] | reflexivity]]);
    rewrite ?Hlog by reflexivity;
    (destruct (joint_link_name self (Adsk.occurrenceOne fusion_joint)) as [child|];
     [|split; [intros _; split; [exact Hfresh | right; reflexivity] | reflexivity]]);
    destruct (user_flag _ _); try destruct axis as [[x y] z];
    cbv beta iota zeta;
    (split; [discriminate | intros [_ [H|H]]; discriminate]).
Qed.

Lemma add_joint_keeps (self self' : SDF) (fusion_joint : Adsk.Joint) (as_built : bool)
  (prefix : string) :
  add_joint lower self fusion_joint as_built prefix = Some self' ->
  keeps prefix self self' /\ links self' = links self
  /\ fusion_joints self' = fusion_joints self.
Proof.
  intros Hrun.
  destruct (add_joint_result _ _ _ _ _ Hrun) as (Hl & Hf & Hd & Hn & Hr & Hcases).
  split; [|auto].
  destruct Hcases as [(_ & Hj)|(Hfresh & joint & Hj & Hname & Hpose & _)].
  { apply keeps_same_tables; assumption. }
  apply not_elem_of_dom in Hfresh.
  split; [|split].
  - unfold grows. rewrite Hl, Hj. repeat split; auto.
    apply insert_subseteq. exact Hfresh.
  - intros [Hlinks Hjoints]. split.
    + rewrite Hl. exact Hlinks.
    + intros k j. rewrite Hj. intros Hk.
      apply lookup_insert_Some in Hk. destruct Hk as [[<- <-]|[_ Hk]]; [|eauto].
      split; [exact Hname | exact Hpose].
  - intros Hprefix (Hkl & Hkj & Hkf). split; [|split].
    + rewrite Hl. exact Hkl.
    + intros k. rewrite Hj, dom_insert. intros Hk.
      apply elem_of_union in Hk. destruct Hk as [Hk|Hk]; [|auto].
      apply elem_of_singleton in Hk. subst k. apply link_name_normalized. exact Hprefix.
    + rewrite Hf. exact Hkf.
Qed.

(** ** The build *)

Lemma for_each_total {A : Type} (body : SDF -> A -> option SDF) (prefix : string)
  (l : list A) :
  (forall s x, exists s', body s x = Some s' /\ keeps prefix s s' /\ joints s' = joints s) ->
  forall s, exists s',
    for_each body l s = Some s' /\ keeps prefix s s' /\ joints s' = joints s.
Proof.
  intros Hbody. induction l as [|x l IH]; intros s; cbn [for_each].
  - exists s. split; [reflexivity|]. split; [apply keeps_refl | reflexivity].
  - destruct (Hbody s x) as (s1 & Hrun & Hk & Hj). rewrite Hrun.
    destruct (IH s1) as (s2 & Hrest & Hk' & Hj').
    exists s2. split; [exact Hrest|].
    split; [eapply keeps_trans; eassumption | congruence].
Qed.

Lemma add_joints_keeps (entries : list (Adsk.Joint * bool * string)) :
  forall self self',
    for_each (fun self '(fusion_joint, as_built, prefix) =>
                add_joint lower self fusion_joint as_built prefix) entries self
    = Some self' ->
    grows self self' /\ links self' = links self
    /\ fusion_joints self' = fusion_joints self
    /\ (well_formed self -> well_formed self')
    /\ (Forall (fun entry => Util.all_name_chars (snd entry) = true) entries ->
        names_normalized self -> names_normalized self').
Proof.
  induction entries as [|[[j b] p] entries IH]; intros self self'; cbn [for_each].
  - intros H. injection H as <-. split; [apply grows_refl|].
    split; [reflexivity|]. split; [reflexivity|]. split; auto.
  - destruct (add_joint lower self j b p) as [s1|] eqn:E; [|discriminate].
    intros Hrest.
    destruct (add_joint_keeps _ _ _ _ _ E) as ((Hg & Hw & Hn) & Hl & Hf).
    destruct (IH _ _ Hrest) as (Hg' & Hl' & Hf' & Hw' & Hn').
    split; [eapply grows_trans; eassumption|].
    split; [congruence|]. split; [congruence|]. split; [auto|].
    intros Hall Hnames. inversion Hall as [|? ? Hp Hrest']; subst.
    apply Hn'; [exact Hrest'|]. apply Hn; [exact Hp | exact Hnames].
Qed.

Lemma for_each_map {A B S : Type} (body : S -> B -> option S) (f : A -> B) (l : list A)
  (s : S) :
  for_each (fun s x => body s (f x)) l s = for_each body (map f l) s.
Proof.
  revert s. induction l as [|x l IH]; intros s; cbn [for_each map]; [reflexivity|].
  destruct (body s (f x)); [apply IH | reflexivity].
Qed.

(** The traversal of [parse_components], before the joints are resolved. *)
Lemma parse_components_traversal (self : SDF) :
  let root_component := Adsk.rootComponent (design self) in
  let named :=
    log (set_name self (Some (normalize_name lower (Adsk.comp_name root_component))))
        (LogParseRootComponent (Adsk.comp_name root_component)) in
  exists traversed,
    for_each (fun self occurrence => parse_occurrence lower self occurrence "")
      (Adsk.comp_occurrences root_component)
      (match
         for_each
           (fun self rigid_group =>
              match add_rigid_group lower self Adsk.Matrix3D_create rigid_group "" with
              | Some (self, _) => Some self
              | None => None
              end)
           (Adsk.comp_rigidGroups root_component) named
       with
       | Some s => s
       | None => named
       end) = Some traversed
    /\ (exists grouped,
          for_each
            (fun self rigid_group =>
               match add_rigid_group lower self Adsk.Matrix3D_create rigid_group "" with
               | Some (self, _) => Some self
               | None => None
               end)
            (Adsk.comp_rigidGroups root_component) named = Some grouped)
    /\ keeps "" named traversed
    /\ joints traversed = joints self.
Proof.
  intros root_component named.
  destruct (for_each_total
              (fun self rigid_group =>
                 match add_rigid_group lower self Adsk.Matrix3D_create rigid_group "" with
                 | Some (self, _) => Some self
                 | None => None
                 end) "" (Adsk.comp_rigidGroups root_component)) with (s := named)
    as (grouped & Hgroups & Hk1 & Hj1).
  { intros s g. destruct (add_rigid_group_keeps s Adsk.Matrix3D_create g "")
      as (s' & r & Hrun & Hk & Hj).
    rewrite Hrun. eauto. }
  rewrite Hgroups.
  destruct (for_each_total
              (fun self occurrence => parse_occurrence lower self occurrence "") ""
              (Adsk.comp_occurrences root_component)) with (s := grouped)
    as (traversed & Hocc & Hk2 & Hj2).
  { intros s o. apply parse_occurrence_keeps. }
  exists traversed. split; [exact Hocc|]. split; [eauto|].
  split; [eapply keeps_trans; eassumption|].
  rewrite Hj2, Hj1. reflexivity.
Qed.

Lemma parse_components_keeps (self built : SDF) :
  parse_components lower self = Some built ->
  design built = design self
  /\ name built
     = Some (normalize_name lower (Adsk.comp_name (Adsk.rootComponent (design self))))
  /\ root_link built = root_link self
  /\ links self ⊆ links built /\ joints self ⊆ joints built
  /\ (well_formed self -> well_formed built)
  /\ (names_normalized self -> names_normalized built).
Proof.
  unfold parse_components.
  destruct (parse_components_traversal self)
    as (traversed & Hocc & (grouped & Hgroups) & Hk & Hj).
  cbn zeta in Hocc, Hgroups, Hk.
  cbn [design set_name log]. rewrite Hgroups. rewrite Hgroups in Hocc. rewrite Hocc.
  rewrite (for_each_map (fun self '(j, b, p) => add_joint lower self j b p)
             (fun joint => (joint, false, ""))).
  destruct (for_each _ (map _ (Adsk.comp_joints _)) traversed) as [s1|] eqn:E1;
    [|discriminate].
  rewrite (for_each_map (fun self '(j, b, p) => add_joint lower self j b p)
             (fun joint => (joint, true, ""))).
  destruct (for_each _ (map _ (Adsk.comp_asBuiltJoints _)) s1) as [s2|] eqn:E2;
    [|discriminate].
  intros E3.
  destruct (add_joints_keeps _ _ _ E1) as (Hg1 & Hl1 & Hf1 & Hw1 & Hn1).
  destruct (add_joints_keeps _ _ _ E2) as (Hg2 & Hl2 & Hf2 & Hw2 & Hn2).
  destruct (add_joints_keeps _ _ _ E3) as (Hg3 & Hl3 & Hf3 & Hw3 & Hn3).
  destruct Hk as (Hg0 & Hw0 & Hn0).
  pose proof (grows_trans _ _ _ Hg0 (grows_trans _ _ _ Hg1 (grows_trans _ _ _ Hg2 Hg3)))
    as (Hd & Hname & Hroot & Hlinks & Hjoints).
  cbn [design name root_link links joints set_name log] in Hd, Hname, Hroot, Hlinks, Hjoints.
  split; [exact Hd|]. split; [exact Hname|]. split; [exact Hroot|].
  split; [exact Hlinks|]. split; [exact Hjoints|]. split.
  - intros Hwf. apply Hw3, Hw2, Hw1, Hw0. exact Hwf.
  - intros Hnames.
    assert (Hn_traversed : names_normalized traversed) by (apply Hn0; [reflexivity | exact Hnames]).
    assert (Hempty : forall js (b : bool),
               Forall (fun entry : Adsk.Joint * bool * string =>
                         Util.all_name_chars (snd entry) = true)
                      (map (fun joint => (joint, b, "")) js)).
    { intros js b. apply Forall_map, Forall_forall. intros j _. reflexivity. }
    assert (Hn_s2 : names_normalized s2) by (apply Hn2, Hn1; auto).
    apply Hn3; [|exact Hn_s2].
    destruct Hn_s2 as (_ & _ & Hfj). exact Hfj.
Qed.

Lemma init_invariants (design : Adsk.Design) :
  well_formed (init design) /\ names_normalized (init design).
Proof.
  split; [split|split; [|split]]; cbn [links joints fusion_joints init].
  - intros k l H. rewrite lookup_empty in H. discriminate.
  - intros k j H. rewrite lookup_empty in H. discriminate.
  - intros k H. rewrite dom_empty in H. exfalso. exact (not_elem_of_empty _ H).
  - intros k H. rewrite dom_empty in H. exfalso. exact (not_elem_of_empty _ H).
  - constructor.
Qed.

Lemma base_link_ok : Link.name base_link = "base_link" /\ link_ok base_link.
Proof.
  split; [reflexivity|]. split; [discriminate|]. split.
  - intros i Hi. injection Hi as <-. apply pose_init_constructed.
  - apply elements_ok_empty.
Qed.

Section Finish.

Variable first_of : gset string -> string.

Lemma finish_invariants (built : SDF) :
  let final := add_base_link (select_root_link first_of built) in
  (well_formed built -> well_formed final)
  /\ (names_normalized built -> names_normalized final)
  /\ design final = design built /\ name final = name built
  /\ root_link final = Some "base_link"
  /\ links final = <["base_link" := base_link]> (links built).
Proof.
  intros final.
  destruct (add_base_link_tables (select_root_link first_of built)) as (Hl & Hj & Hr).
  destruct (select_root_link_tables first_of built) as (Hl0 & Hj0).
  fold final in Hl, Hj, Hr. rewrite Hl0 in Hl. rewrite Hj0 in Hj.
  assert (Hsel : design (select_root_link first_of built) = design built
                 /\ name (select_root_link first_of built) = name built
                 /\ fusion_joints (select_root_link first_of built) = fusion_joints built).
  { unfold select_root_link.
    destruct (decide (size (root_links built) = 0%nat)); [repeat split|].
    destruct (decide (size (root_links built) ≠ 1%nat)); repeat split. }
  destruct Hsel as (Hd & Hn & Hf).
  split; [|split; [|split; [exact Hd | split; [exact Hn | split; [exact Hr | exact Hl]]]]].
  - intros [Hlinks Hjoints]. split.
    + intros k l. rewrite Hl. intros Hk.
      apply lookup_insert_Some in Hk. destruct Hk as [[<- <-]|[_ Hk]]; [|eauto].
      exact base_link_ok.
    + intros k j. rewrite Hj. intros Hk.
      apply lookup_insert_Some in Hk. destruct Hk as [[<- <-]|[_ Hk]]; [|eauto].
      split; [reflexivity | discriminate].
  - intros (Hkl & Hkj & Hkf). split; [|split].
    + intros k. rewrite Hl, dom_insert. intros Hk.
      apply elem_of_union in Hk. destruct Hk as [Hk|Hk]; [|auto].
      apply elem_of_singleton in Hk. subst k. reflexivity.
    + intros k. rewrite Hj, dom_insert. intros Hk.
      apply elem_of_union in Hk. destruct Hk as [Hk|Hk]; [|auto].
      apply elem_of_singleton in Hk. subst k. reflexivity.
    + change (fusion_joints final) with (fusion_joints (select_root_link first_of built)).
      rewrite Hf. exact Hkf.
Qed.

Lemma new_invariants (design : Adsk.Design) (sdf : SDF) :
  new lower first_of design = Some sdf ->
  SDF.design sdf = design
  /\ name sdf
     = Some (normalize_name lower (Adsk.comp_name (Adsk.rootComponent design)))
  /\ root_link sdf = Some "base_link"
  /\ (exists built, links sdf = <["base_link" := base_link]> (links built))
  /\ well_formed sdf /\ names_normalized sdf.
Proof.
  unfold new, parse_root_component.
  destruct (parse_components lower (init design)) as [built|] eqn:Ebuilt; [|discriminate].
  intros H. injection H as <-.
  destruct (parse_components_keeps _ _ Ebuilt) as (Hd & Hn & _ & _ & _ & Hw & Hnn).
  destruct (init_invariants design) as (Hw0 & Hn0).
  destruct (finish_invariants built) as (Hw' & Hnn' & Hd' & Hn' & Hr' & Hl').
  split; [rewrite Hd', Hd; reflexivity|].
  split; [rewrite Hn', Hn; reflexivity|].
  split; [exact Hr'|]. split; [eauto|]. split; auto.
Qed.

(** X18.  The traversal only adds links: whenever [parse_occurrence] or
    [add_rigid_group] returns, every link of the state before is still
    there, unchanged (an existing link is neither removed nor replaced), and
    the joints table, the design, the name and the root link are as before. *)
Theorem traversal_only_adds_links :
  (forall (self self' : SDF) (occurrence : Adsk.Occurrence) (prefix : string),
     parse_occurrence lower self occurrence prefix = Some self' ->
     links self ⊆ links self'
     /\ joints self' = joints self
     /\ design self' = design self /\ name self' = name self
     /\ root_link self' = root_link self)
  /\ (forall (self self' : SDF) (parent_pose : Adsk.Matrix3D)
         (rigid_group : Adsk.RigidGroup) (prefix : string) (result : option Link.Link),
        add_rigid_group lower self parent_pose rigid_group prefix = Some (self', result) ->
        links self ⊆ links self'
        /\ joints self' = joints self
        /\ design self' = design self /\ name self' = name self
        /\ root_link self' = root_link self).
Proof.
  split.
  - intros self self' occurrence prefix Hreturns.
    destruct (parse_occurrence_keeps occurrence self prefix)
      as (self1 & Hrun & ((Hd & Hn & Hr & Hl & _) & _) & Hj).
    rewrite Hrun in Hreturns. injection Hreturns as <-.
    repeat split; assumption.
  - intros self self' parent_pose rigid_group prefix result Hreturns.
    destruct (add_rigid_group_keeps self parent_pose rigid_group prefix)
      as (self1 & result1 & Hrun & ((Hd & Hn & Hr & Hl & _) & _) & Hj).
    rewrite Hrun in Hreturns. injection Hreturns as <- _.
    repeat split; assumption.
Qed.

(** X20.  In every model that a build returns, each link and each joint is
    stored under its own name, all these names are over [[a-z0-9_]], the
    model is named by the normalised name of the root component and its
    root link is [base_link]. *)
Theorem build_invariants (design : Adsk.Design) (sdf : SDF) :
  new lower first_of design = Some sdf ->
  SDF.design sdf = design
  /\ name sdf
     = Some (normalize_name lower (Adsk.comp_name (Adsk.rootComponent design)))
  /\ root_link sdf = Some "base_link"
  /\ (forall k l, links sdf !! k = Some l ->
        Link.name l = k /\ Util.all_name_chars k = true)
  /\ (forall k j, joints sdf !! k = Some j ->
        Joint.name j = k /\ Util.all_name_chars k = true).
Proof.
  intros Hnew.
  destruct (new_invariants _ _ Hnew) as (Hd & Hn & Hr & _ & (Hwl & Hwj) & (Hkl & Hkj & _)).
  split; [exact Hd|]. split; [exact Hn|]. split; [exact Hr|]. split.
  - intros k l Hk. split; [apply (Hwl k l Hk)|]. apply Hkl.
    apply elem_of_dom. eauto.
  - intros k j Hk. split; [apply (Hwj k j Hk)|]. apply Hkj.
    apply elem_of_dom. eauto.
Qed.

End Finish.

End BuilderInvariants.


(** * Serialising a model *)

Section ModelFacts.
Import SDF.
Local Open Scope string_scope.

Variable dict_values : forall A : Type, gmap string A -> list A.
Hypothesis Hvalues : lists_values dict_values.

Lemma dict_values_lookup {A : Type} (m : gmap string A) (x : A) :
  x ∈ dict_values A m -> exists k, m !! k = Some x.
Proof.
  intros Hx. rewrite (Hvalues A m) in Hx.
  apply list_elem_of_fmap in Hx. destruct Hx as ([k y] & -> & Hin).
  exists k. apply elem_of_map_to_list. exact Hin.
Qed.

(** ** Writers keep the tag and the attributes of the node they fill *)

Lemma pose_written (p : Pose.Pose) (node : Xml.Element) :
  Pose.constructed p ->
  exists node', Pose.to_sdf_element p node = Some node'
                /\ Xml.tag node' = Xml.tag node /\ Xml.attrib node' = Xml.attrib node.
Proof.
  intros Hp.
  destruct (pose_to_sdf_element_constructed p node Hp) as (node' & Hrun).
  destruct (pose_to_sdf_element_extend _ _ _ Hrun) as (added & -> & _).
  exists (Xml.extend node added). split; [exact Hrun|].
  split; [apply tag_extend | apply attrib_extend].
Qed.

Lemma optional_pose_written (pose : option Pose.Pose) (node : Xml.Element) :
  (forall p, pose = Some p -> Pose.constructed p) ->
  exists node',
    match pose with
    | Some p => Pose.to_sdf_element p node
    | None => Some node
    end = Some node'
    /\ Xml.tag node' = Xml.tag node /\ Xml.attrib node' = Xml.attrib node.
Proof.
  intros Hp. destruct pose as [p|]; [apply pose_written, Hp; reflexivity|].
  exists node. repeat split.
Qed.

Lemma tag_append (node child : Xml.Element) : Xml.tag (Xml.append node child) = Xml.tag node.
Proof. destruct node. reflexivity. Qed.

Lemma attrib_append (node child : Xml.Element) :
  Xml.attrib (Xml.append node child) = Xml.attrib node.
Proof. destruct node. reflexivity. Qed.

Lemma element_written (e : Link.LinkElement) (node : Xml.Element) :
  element_ok e ->
  exists node', Link.element_to_sdf_element e node = Some node'
                /\ Xml.tag node' = Xml.tag node /\ Xml.attrib node' = Xml.attrib node.
Proof.
  intros (Hpose & g & Hg & Hbox). unfold Link.element_to_sdf_element.
  match goal with
  | |- context [match Link.element_pose e with Some _ => _ | None => Some ?n end] =>
      destruct (optional_pose_written (Link.element_pose e) n Hpose) as (n1 & -> & _)
  end.
  rewrite Hg.
  assert (Hgeo : exists n2, Link.geometry_to_sdf_element g n1 = Some n2).
  { unfold Link.geometry_to_sdf_element.
    destruct (Link.geometry_type g) eqn:Et; [|eauto|eauto].
    destruct (Hbox eq_refl) as (size & ->). eauto. }
  destruct Hgeo as (n2 & ->).
  eexists. split; [reflexivity|]. split; [apply tag_append | apply attrib_append].
Qed.

Lemma elements_written (items : list Link.LinkElement) :
  Forall element_ok items ->
  forall node, exists node',
    Link.write_all Link.element_to_sdf_element items node = Some node'
    /\ Xml.tag node' = Xml.tag node /\ Xml.attrib node' = Xml.attrib node.
Proof.
  induction 1 as [|e items He _ IH]; intros node; cbn [Link.write_all].
  - exists node. repeat split.
  - destruct (element_written e node He) as (n1 & -> & Ht & Ha).
    destruct (IH n1) as (n2 & Hrun & Ht' & Ha').
    exists n2. split; [exact Hrun|]. split; congruence.
Qed.

Lemma inertial_written (i : Link.LinkInertial) (node : Xml.Element) :
  Pose.constructed (Link.inertial_pose i) ->
  exists node', Link.inertial_to_sdf_element i node = Some node'
                /\ Xml.tag node' = Xml.tag node /\ Xml.attrib node' = Xml.attrib node.
Proof.
  intros Hp. unfold Link.inertial_to_sdf_element.
  match goal with
  | |- context [Pose.to_sdf_element _ ?n] =>
      destruct (pose_written (Link.inertial_pose i) n Hp) as (n1 & -> & _)
  end.
  eexists. split; [reflexivity|]. split; [apply tag_append | apply attrib_append].
Qed.

Lemma link_written (l : Link.Link) (node : Xml.Element) :
  link_ok l ->
  exists e, Link.to_sdf_element dict_values l node = Some (Xml.append node e)
            /\ Xml.tag e = "link" /\ Xml.attrib e = [("name", Link.name l)].
Proof.
  intros (Hpose & Hinertial & Hvis & Hcol). unfold Link.to_sdf_element.
  match goal with
  | |- context [match Link.pose l with Some _ => _ | None => Some ?n end] =>
      destruct (optional_pose_written (Link.pose l) n Hpose) as (n1 & -> & Ht1 & Ha1)
  end.
  assert (Hin : exists n2,
             match Link.inertial l with
             | Some inertial => Link.inertial_to_sdf_element inertial n1
             | None => Some n1
             end = Some n2
             /\ Xml.tag n2 = Xml.tag n1 /\ Xml.attrib n2 = Xml.attrib n1).
  { destruct (Link.inertial l) as [i|] eqn:Ei.
    - apply inertial_written, Hinertial. reflexivity.
    - exists n1. repeat split. }
  destruct Hin as (n2 & -> & Ht2 & Ha2).
  destruct (elements_written (dict_values _ (Link.visuals l))) with (node := n2)
    as (n3 & -> & Ht3 & Ha3).
  { apply Forall_forall. intros e He.
    destruct (dict_values_lookup _ _ He) as (k & Hk). eapply Hvis. exact Hk. }
  destruct (elements_written (dict_values _ (Link.collisions l))) with (node := n3)
    as (n4 & -> & Ht4 & Ha4).
  { apply Forall_forall. intros e He.
    destruct (dict_values_lookup _ _ He) as (k & Hk). eapply Hcol. exact Hk. }
  exists n4. split; [reflexivity|].
  split; [rewrite Ht4, Ht3, Ht2, Ht1 | rewrite Ha4, Ha3, Ha2, Ha1]; reflexivity.
Qed.

Lemma joint_written (j : Joint.Joint) (node : Xml.Element) :
  (forall p, Joint.pose j = Some p -> Pose.constructed p) ->
  exists e, Joint.to_sdf_element j node = Some (Xml.append node e)
            /\ Xml.tag e = "joint"
            /\ Xml.attrib e
               = [("name", Joint.name j);
                  ("type", Joint.joint_type_value (Joint.joint_type j))].
Proof.
  intros Hpose. unfold Joint.to_sdf_element.
  match goal with
  | |- context [match Joint.pose j with Some _ => _ | None => Some ?n end] =>
      destruct (optional_pose_written (Joint.pose j) n Hpose) as (n1 & -> & Ht1 & Ha1)
  end.
  eexists. split; [reflexivity|].
  rewrite !tag_append, !attrib_append. split; assumption.
Qed.

(** ** Loops *)

Lemma extend_append (node e : Xml.Element) (added : list Xml.Element) :
  Xml.extend (Xml.append node e) added = Xml.extend node (e :: added).
Proof. rewrite append_extend, extend_app. reflexivity. Qed.

Lemma write_all_links (self : SDF) (root : string) (items : list Link.Link) :
  root_link self = Some root ->
  Forall link_ok items ->
  forall node, exists added,
    Link.write_all (write_link dict_values self) items node = Some (Xml.extend node added)
    /\ Forall2 (fun l e => named_element "link" (Link.name l) e)
         (filter (fun l => Link.name l <> root) items) added.
Proof.
  intros Hroot. induction 1 as [|l items Hl _ IH]; intros node; cbn [Link.write_all].
  - exists []. split; [rewrite extend_nil; reflexivity | constructor].
  - unfold write_link at 1. rewrite Hroot.
    destruct (decide (Some (Link.name l) = Some root)) as [E|E].
    + injection E as E. destruct (IH node) as (added & Hrun & Hall).
      exists added. split; [exact Hrun|].
      rewrite filter_cons_False by (intros Hn; contradiction). exact Hall.
    + destruct (link_written l node Hl) as (e & -> & Ht & Ha).
      destruct (IH (Xml.append node e)) as (added & Hrun & Hall).
      exists (e :: added). split; [rewrite Hrun, extend_append; reflexivity|].
      rewrite filter_cons_True by congruence.
      constructor; [|exact Hall]. split; [exact Ht|]. exists []. exact Ha.
Qed.

Lemma write_all_joints (items : list Joint.Joint) :
  Forall (fun j => forall p, Joint.pose j = Some p -> Pose.constructed p) items ->
  forall node, exists added,
    Link.write_all Joint.to_sdf_element items node = Some (Xml.extend node added)
    /\ Forall2 (fun j e => named_element "joint" (Joint.name j) e) items added.
Proof.
  induction 1 as [|j items Hj _ IH]; intros node; cbn [Link.write_all].
  - exists []. split; [rewrite extend_nil; reflexivity | constructor].
  - destruct (joint_written j node Hj) as (e & -> & Ht & Ha).
    destruct (IH (Xml.append node e)) as (added & Hrun & Hall).
    exists (e :: added). split; [rewrite Hrun, extend_append; reflexivity|].
    constructor; [|exact Hall]. split; [exact Ht|]. eexists. exact Ha.
Qed.

(** ** The names and tags of the children *)

Lemma child_names_extend (tag : string) (node : Xml.Element) (added : list Xml.Element) :
  child_names tag (Xml.extend node added)
  = (child_names tag node ++ child_names tag (Xml.Elem "" [] None added))%list.
Proof. unfold child_names. rewrite children_extend, omap_app. reflexivity. Qed.

Lemma child_tags_extend (node : Xml.Element) (added : list Xml.Element) :
  child_tags (Xml.extend node added) = (child_tags node ++ map Xml.tag added)%list.
Proof. unfold child_tags. rewrite children_extend, map_app. reflexivity. Qed.

Lemma child_names_named {A : Type} (tag : string) (name_of : A -> string) (items : list A)
  (added : list Xml.Element) :
  Forall2 (fun x e => named_element tag (name_of x) e) items added ->
  child_names tag (Xml.Elem "" [] None added) = map name_of items
  /\ map Xml.tag added = replicate (length items) tag
  /\ (forall other, other <> tag -> child_names other (Xml.Elem "" [] None added) = []).
Proof.
  unfold child_names. cbn [Xml.children].
  induction 1 as [|x e items added (Ht & rest & Ha) _ (IH1 & IH2 & IH3)]; [repeat split|].
  cbn [omap list_omap map length replicate]. rewrite Ht, Ha.
  split; [|split].
  - destruct (decide (tag = tag)) as [_|Hn]; [|contradiction].
    rewrite filter_cons_True by reflexivity. cbn. rewrite IH1. reflexivity.
  - rewrite IH2. reflexivity.
  - intros other Hother.
    destruct (decide (tag = other)) as [E|_]; [congruence|].
    apply IH3. exact Hother.
Qed.

Lemma root_first {A : Type} (name_of : A -> string) (root : string) (items : list A) :
  NoDup (map name_of items) -> root ∈ map name_of items ->
  root :: map name_of (filter (fun x => name_of x <> root) items) ≡ₚ map name_of items.
Proof.
  induction items as [|x items IH]; cbn [map]; intros Hnd Hin.
  - apply elem_of_nil in Hin. contradiction.
  - apply NoDup_cons in Hnd. destruct Hnd as (Hx & Hnd).
    destruct (decide (name_of x = root)) as [E|E].
    + rewrite filter_cons_False by (intros Hn; contradiction).
      rewrite E in *. constructor.
      assert (Hall : filter (fun y => name_of y <> root) items = items).
      { clear -Hx. induction items as [|y items IH]; [reflexivity|].
        cbn [map] in Hx. apply not_elem_of_cons in Hx. destruct Hx as (Hy & Hx).
        rewrite filter_cons_True by congruence. rewrite IH by exact Hx. reflexivity. }
      rewrite Hall. reflexivity.
    + rewrite filter_cons_True by exact E. cbn [map].
      apply elem_of_cons in Hin. destruct Hin as [Hin|Hin]; [congruence|].
      rewrite Permutation_swap. constructor. apply IH; assumption.
Qed.

Lemma names_of_values {A : Type} (name_of : A -> string) (m : gmap string A) :
  (forall k x, m !! k = Some x -> name_of x = k) ->
  map name_of (dict_values A m) ≡ₚ elements (dom m).
Proof.
  intros Hname. rewrite (Hvalues A m).
  assert (E : map name_of (map snd (map_to_list m)) = (map_to_list m).*1).
  { rewrite map_map. apply map_ext_in. intros [k x] Hin. cbn.
    apply Hname. apply elem_of_map_to_list. apply list_elem_of_In. exact Hin. }
  rewrite E.
  assert (Hd : dom m ≡@{gset string} list_to_set (map_to_list m).*1) by apply dom_alt.
  rewrite Hd. symmetry. apply elements_list_to_set. apply NoDup_fst_map_to_list.
Qed.

(** The model of a well-formed state whose root link is a link. *)
Lemma model_written (self : SDF) (model_name root : string) :
  well_formed self -> name self = Some model_name ->
  root_link self = Some root -> root ∈ dom (links self) ->
  exists model,
    to_sdf_string dict_values self
    = Some (Xml.Elem "sdf" [("version", "1.11")] None [model])
    /\ Xml.tag model = "model"
    /\ Xml.attrib model = [("name", model_name)]
    /\ child_tags model
       = (replicate (size (links self)) "link" ++ replicate (size (joints self)) "joint")%list
    /\ head (child_names "link" model) = Some root
    /\ child_names "link" model ≡ₚ elements (dom (links self))
    /\ child_names "joint" model ≡ₚ elements (dom (joints self)).
Proof.
  intros (Hwl & Hwj) Hname Hroot Hin.
  apply elem_of_dom in Hin. destruct Hin as (root_l & Hroot_l).
  destruct (Hwl _ _ Hroot_l) as (Hroot_name & Hroot_ok).
  unfold to_sdf_string. rewrite Hname, Hroot, Hroot_l.
  set (model0 := Xml.Elem "model" [("name", model_name)] None []).
  destruct (link_written root_l model0 Hroot_ok) as (e0 & -> & Ht0 & Ha0).
  assert (Hlinks_ok : Forall link_ok (dict_values _ (links self))).
  { apply Forall_forall. intros l Hl.
    destruct (dict_values_lookup _ _ Hl) as (k & Hk). apply (Hwl k l Hk). }
  destruct (write_all_links self root _ Hroot Hlinks_ok (Xml.append model0 e0))
    as (added_l & -> & Hall_l).
  assert (Hjoints_ok : Forall (fun j => forall p, Joint.pose j = Some p -> Pose.constructed p)
                         (dict_values _ (joints self))).
  { apply Forall_forall. intros j Hj.
    destruct (dict_values_lookup _ _ Hj) as (k & Hk). apply (Hwj k j Hk). }
  destruct (write_all_joints _ Hjoints_ok (Xml.extend (Xml.append model0 e0) added_l))
    as (added_j & -> & Hall_j).
  eexists. split; [reflexivity|].
  rewrite extend_append, extend_app. cbn [app].
  destruct (child_names_named _ _ _ _ Hall_l) as (Hnl & Htl & Hol).
  destruct (child_names_named _ _ _ _ Hall_j) as (Hnj & Htj & Hoj).
  assert (Hnames_l : map Link.name (dict_values _ (links self)) ≡ₚ elements (dom (links self))).
  { apply names_of_values. intros k l Hk. apply (Hwl k l Hk). }
  assert (Hnames_j : map Joint.name (dict_values _ (joints self))
                     ≡ₚ elements (dom (joints self))).
  { apply names_of_values. intros k j Hk. apply (Hwj k j Hk). }
  assert (Hlen_l : length (dict_values _ (links self)) = size (links self)).
  { rewrite (Hvalues _ (links self)), length_map. apply length_map_to_list. }
  assert (Hlen_j : length (dict_values _ (joints self)) = size (joints self)).
  { rewrite (Hvalues _ (joints self)), length_map. apply length_map_to_list. }
  assert (Hnd : NoDup (map Link.name (dict_values _ (links self)))).
  { rewrite Hnames_l. apply NoDup_elements. }
  assert (Hroot_in : root ∈ map Link.name (dict_values _ (links self))).
  { rewrite Hnames_l. apply elem_of_elements, elem_of_dom. eauto. }
  pose proof (root_first Link.name root _ Hnd Hroot_in) as Hperm.
  assert (Hchildren_l :
            child_names "link" (Xml.extend model0 (e0 :: added_l ++ added_j)%list)
            = root :: map Link.name
                        (filter (fun l => Link.name l <> root) (dict_values _ (links self)))).
  { change (e0 :: added_l ++ added_j)%list with ([e0] ++ added_l ++ added_j)%list.
    rewrite <- !extend_app, !child_names_extend.
    rewrite Hnl, (Hoj "link") by discriminate.
    unfold child_names at 1 2. cbn [model0 Xml.children omap list_omap].
    rewrite Ht0, Ha0. cbn. rewrite Hroot_name, app_nil_r. reflexivity. }
  split; [apply tag_extend|]. split; [apply attrib_extend|].
  split; [|split; [|split]].
  - change (e0 :: added_l ++ added_j)%list with ([e0] ++ added_l ++ added_j)%list.
    rewrite child_tags_extend, !map_app. cbn [map]. rewrite Htl, Htj.
    cbn [map model0 child_tags Xml.children app].
    rewrite Ht0, Hlen_j.
    change ("link" :: ?l ++ ?r)%list with (("link" :: l) ++ r)%list.
    f_equal.
    assert (Hlen : S (length (filter (fun l => Link.name l <> root)
                                (dict_values _ (links self)))) = size (links self)).
    { rewrite <- Hlen_l.
      rewrite <- (length_map Link.name (dict_values _ (links self))), <- Hperm.
      cbn [length]. rewrite length_map. reflexivity. }
    rewrite <- Hlen. reflexivity.
  - rewrite Hchildren_l. reflexivity.
  - rewrite Hchildren_l, Hperm. exact Hnames_l.
  - change (e0 :: added_l ++ added_j)%list with ([e0] ++ added_l ++ added_j)%list.
    rewrite <- !extend_app, !child_names_extend.
    rewrite Hnj, (Hol "joint") by discriminate.
    unfold child_names at 1 2. cbn [model0 Xml.children omap list_omap].
    rewrite Ht0. cbn. exact Hnames_j.
Qed.

Variable lower : string -> string.
Variable first_of : gset string -> string.

(** X21.  Every model that a build returns can be serialised:
    [to_sdf_string] raises neither the [KeyError] of the root link lookup
    nor an exception of an element.  The [sdf] element holds one [model]
    named after the root component, whose children are the links followed by
    the joints: [base_link] first, then every other link once, then every
    joint once. *)
Theorem built_model_serializes (design : Adsk.Design) (sdf : SDF) :
  new lower first_of design = Some sdf ->
  exists model,
    to_sdf_string dict_values sdf
    = Some (Xml.Elem "sdf" [("version", "1.11")] None [model])
    /\ Xml.tag model = "model"
    /\ Xml.attrib model
       = [("name", normalize_name lower (Adsk.comp_name (Adsk.rootComponent design)))]
    /\ child_tags model
       = (replicate (size (links sdf)) "link" ++ replicate (size (joints sdf)) "joint")%list
    /\ head (child_names "link" model) = Some "base_link"
    /\ child_names "link" model ≡ₚ elements (dom (links sdf))
    /\ child_names "joint" model ≡ₚ elements (dom (joints sdf)).
Proof.
  intros Hnew.
  destruct (new_invariants lower first_of _ _ Hnew)
    as (_ & Hname & Hroot & (built & Hlinks) & Hwf & _).
  apply (model_written sdf _ "base_link" Hwf Hname Hroot).
  rewrite Hlinks, dom_insert. apply elem_of_union_l, elem_of_singleton. reflexivity.
Qed.

End ModelFacts.

(** * Rigid groups *)

Section RigidGroups.
Import SDF.
Local Open Scope string_scope.

Variable lower : string -> string.

Lemma first_char_app (a b : string) :
  a <> "" -> Util.first_char (a ++ b) = Util.first_char a.
Proof. destruct a; [contradiction | reflexivity]. Qed.

Lemma re_sub_app_name (a b : string) :
  Util.all_name_chars a = true ->
  Util.re_sub false (a ++ b) = a ++ Util.re_sub false b.
Proof.
  induction a as [|c a IH]; [reflexivity|].
  change (String c a ++ b) with (String c (a ++ b)).
  cbn [Util.all_name_chars Util.re_sub]. intros H.
  apply andb_prop in H. destruct H as (Hc & Ha).
  rewrite Hc, (IH Ha). reflexivity.
Qed.

Lemma last_char_app_cons (a : string) (c : ascii) (b : string) :
  Util.last_char (a ++ String c b) = Util.last_char (String c b).
Proof.
  induction a as [|d a IH]; [reflexivity|].
  change (String d a ++ String c b) with (String d (a ++ String c b)).
  cbn [Util.last_char]. rewrite IH.
  destruct (a ++ String c b) eqn:E; [|reflexivity].
  destruct a; discriminate.
Qed.

(** The name that the CAD gives to the temporary occurrence of a rigid
    group normalises to the link name with the suffix [_1]. *)
Lemma temporary_name_normalized (link_name : string) :
  (forall x, Util.all_name_chars x = true -> lower (x ++ ":1") = x ++ ":1") ->
  Util.all_name_chars link_name = true ->
  link_name <> "" -> Util.first_char link_name <> Some "_"%char ->
  normalize_name lower (link_name ++ ":1") = link_name ++ "_1".
Proof.
  intros Hlower Hname Hne Hfirst.
  unfold normalize_name, Util.normalize_name.
  rewrite (Hlower _ Hname), (re_sub_app_name _ _ Hname).
  change (Util.re_sub false ":1") with "_1".
  unfold Util.strip.
  rewrite lstrip_id by (rewrite first_char_app by exact Hne; exact Hfirst).
  apply rstrip_id. rewrite last_char_app_cons. discriminate.
Qed.

Lemma fold_rigid_group_lookup (occurrences : list Adsk.OccurrenceRef) (group_link : string)
  (self : SDF) :
  let self' :=
    fold_left
      (fun self occurrence =>
         set_occurrences_in_rigid_groups self
           (<[Adsk.ref_name occurrence := group_link]> (occurrences_in_rigid_groups self)))
      occurrences self in
  forall name,
    occurrences_in_rigid_groups self' !! name
    = if decide (name ∈ map Adsk.ref_name occurrences) then Some group_link
      else occurrences_in_rigid_groups self !! name.
Proof.
  revert self. induction occurrences as [|o occurrences IH]; intros self; cbn [fold_left map].
  - intros name. destruct (decide _) as [H|_]; [|reflexivity].
    apply elem_of_nil in H. contradiction.
  - intros name. rewrite IH. cbn [occurrences_in_rigid_groups set_occurrences_in_rigid_groups].
    destruct (decide (name ∈ map Adsk.ref_name occurrences)) as [Hin|Hout].
    + rewrite decide_True by (right; exact Hin). reflexivity.
    + destruct (decide (name = Adsk.ref_name o)) as [->|Hne].
      * rewrite lookup_insert_eq, decide_True by left. reflexivity.
      * rewrite lookup_insert_ne by congruence.
        rewrite decide_False; [reflexivity|].
        intros H. apply elem_of_cons in H. destruct H; contradiction.
Qed.

Lemma add_rigid_group_link (self : SDF) (parent_pose : Adsk.Matrix3D)
  (rigid_group : Adsk.RigidGroup) (prefix : string) :
  (forall x, Util.all_name_chars x = true -> lower (x ++ ":1") = x ++ ":1") ->
  let link_name := prefix ++ normalize_name lower (Adsk.group_name rigid_group) in
  Util.all_name_chars prefix = true ->
  link_name <> "" -> Util.first_char link_name <> Some "_"%char ->
  exists self' result,
    add_rigid_group lower self parent_pose rigid_group prefix = Some (self', result)
    /\ (forall o, o ∈ Adsk.group_occurrences rigid_group ->
          joint_link_name self' (Some o) = Some (link_name ++ "_1"))
    /\ ((link_name ++ "_1") ∉ dom (links self) ->
        occurrences_in_rigid_groups self !! (link_name ++ ":1") = None ->
        concat (map Adsk.ref_bodies (Adsk.group_occurrences rigid_group)) <> [] ->
        exists link,
          result = Some link /\ Link.name link = link_name ++ "_1"
          /\ links self' = <[link_name ++ "_1" := link]> (links self)).
Proof.
  intros Hlower link_name Hprefix Hne Hfirst.
  assert (Hname : Util.all_name_chars link_name = true)
    by (apply link_name_normalized; exact Hprefix).
  pose proof (temporary_name_normalized link_name Hlower Hname Hne Hfirst) as Hkey.
  unfold add_rigid_group. fold link_name.
  set (temporary :=
         Adsk.MkOccurrence (link_name ++ ":1") (Adsk.temp_id rigid_group) Adsk.Matrix3D_create
           (concat (map Adsk.ref_bodies (Adsk.group_occurrences rigid_group)))
           (Adsk.temp_properties rigid_group) [] [] [] []).
  set (logged := log self (LogAddRigidGroup (Adsk.group_name rigid_group) prefix link_name)).
  destruct (add_link_spec lower logged temporary ""
              (Some (Util.transform2_to_pose parent_pose)))
    as (self1 & result & Hrun & (_ & _ & _ & _ & Hgroups & _) & Hcases).
  { intros p Hp. injection Hp as <-. apply transform2_to_pose_constructed. }
  rewrite Hrun.
  eexists _, _. split; [reflexivity|].
  pose proof (fold_rigid_group_lookup (Adsk.group_occurrences rigid_group)
                (link_name ++ "_1")
                (set_attributes self1 (delete (Adsk.temp_id rigid_group) (attributes self1))))
    as Hlookup.
  destruct (fold_rigid_group_table (Adsk.group_occurrences rigid_group) (link_name ++ "_1")
              (set_attributes self1 (delete (Adsk.temp_id rigid_group) (attributes self1))))
    as (Hl & _).
  cbv zeta in Hlookup. split.
  - intros o Ho. unfold joint_link_name. cbn [occurrences_in_rigid_groups log].
    rewrite Hlookup.
    rewrite decide_True; [reflexivity|].
    apply list_elem_of_fmap. exists o. split; [reflexivity | exact Ho].
  - intros Hfresh Hnot_grouped Hbodies.
    cbn [Adsk.name temporary] in Hcases. change ("" ++ ?x) with x in Hcases.
    rewrite Hkey in Hcases.
    destruct Hcases as [(Hin & _)|[(_ & g & Hg & _)|[(_ & _ & He & _)
                       |(_ & _ & _ & link & -> & Hlname & Hlinks & _)]]].
    + contradiction.
    + cbn [occurrences_in_rigid_groups logged log] in Hg. congruence.
    + contradiction.
    + exists link. split; [reflexivity|]. split; [exact Hlname|].
      cbn [links log]. rewrite Hl. exact Hlinks.
Qed.

(** X22.  A rigid group becomes one link named [<group>_1]: whenever
    [add_rigid_group] returns, every occurrence of the group is recorded
    under that name (so a joint on it resolves to that name), and when the
    group has a body and the name is new, the link of the group is returned
    and stored under exactly that name.  This needs a group name that does
    not normalise to the empty string (more generally a link name that is
    not empty and has no leading underscore). *)
Theorem add_rigid_group_records_link (self self' : SDF) (parent_pose : Adsk.Matrix3D)
  (rigid_group : Adsk.RigidGroup) (prefix : string) (result : option Link.Link) :
  (forall x, Util.all_name_chars x = true -> lower (x ++ ":1") = x ++ ":1") ->
  let link_name := prefix ++ normalize_name lower (Adsk.group_name rigid_group) in
  Util.all_name_chars prefix = true ->
  link_name <> "" -> Util.first_char link_name <> Some "_"%char ->
  add_rigid_group lower self parent_pose rigid_group prefix = Some (self', result) ->
  (forall o, o ∈ Adsk.group_occurrences rigid_group ->
     joint_link_name self' (Some o) = Some (link_name ++ "_1"))
  /\ ((link_name ++ "_1") ∉ dom (links self) ->
      occurrences_in_rigid_groups self !! (link_name ++ ":1") = None ->
      concat (map Adsk.ref_bodies (Adsk.group_occurrences rigid_group)) <> [] ->
      exists link,
        result = Some link /\ Link.name link = link_name ++ "_1"
        /\ links self' = <[link_name ++ "_1" := link]> (links self)).
Proof.
  intros Hlower link_name Hprefix Hne Hfirst Hreturns.
  destruct (add_rigid_group_link self parent_pose rigid_group prefix Hlower Hprefix Hne Hfirst)
    as (self1 & result1 & Hrun & Hocc & Hlink).
  rewrite Hrun in Hreturns. injection Hreturns as <- <-.
  split; [exact Hocc | exact Hlink].
Qed.

End RigidGroups.

(** * The theorems on a design *)

Section OnDesigns.
Import SDF.
Local Open Scope string_scope.

Lemma new_single_arm :
  exists built,
    new Util.ascii_lower first_element Scenario.single_arm
    = Some (add_base_link (select_root_link first_element built)).
Proof.
  destruct parse_components_single_arm as (built & link & Hbuilt & _).
  exists built. unfold new, parse_root_component. rewrite Hbuilt. reflexivity.
Qed.

Lemma build_invariants_witness :
  exists sdf,
    new Util.ascii_lower first_element Scenario.single_arm = Some sdf
    /\ name sdf = Some "robot"
    /\ root_link sdf = Some "base_link"
    /\ (forall k l, links sdf !! k = Some l -> Link.name l = k).
Proof.
  destruct new_single_arm as (built & Hnew).
  eexists. split; [exact Hnew|].
  destruct (build_invariants Util.ascii_lower first_element _ _ Hnew)
    as (_ & Hn & Hr & Hl & _).
  split; [exact Hn|]. split; [exact Hr|].
  intros k l Hk. exact (proj1 (Hl k l Hk)).
Defined.

Lemma listed_values_lists : lists_values listed_values.
Proof. intros A m. reflexivity. Qed.

Lemma built_model_serializes_witness :
  exists sdf model,
    new Util.ascii_lower first_element Scenario.single_arm = Some sdf
    /\ to_sdf_string listed_values sdf
       = Some (Xml.Elem "sdf" [("version", "1.11")] None [model])
    /\ Xml.attrib model = [("name", "robot")]
    /\ head (child_names "link" model) = Some "base_link".
Proof.
  destruct new_single_arm as (built & Hnew).
  destruct (built_model_serializes listed_values listed_values_lists
              Util.ascii_lower first_element _ _ Hnew)
    as (model & Hrun & _ & Hattrib & _ & Hhead & _).
  eexists _, model. split; [exact Hnew|]. split; [exact Hrun|].
  split; [exact Hattrib | exact Hhead].
Defined.

Lemma ascii_lower_suffix (x : string) :
  Util.all_name_chars x = true -> Util.ascii_lower (x ++ ":1") = x ++ ":1".
Proof.
  induction x as [|c x IH]; [reflexivity|].
  change (String c x ++ ":1") with (String c (x ++ ":1")).
  intros H. pose proof (ascii_lower_id _ H) as Hid.
  cbn [Util.all_name_chars] in H. apply andb_prop in H. destruct H as (_ & Hx).
  cbn [Util.ascii_lower] in *. rewrite (IH Hx). congruence.
Qed.

Lemma add_rigid_group_records_link_witness :
  exists self' link,
    add_rigid_group Util.ascii_lower (init Scenario.robot) Adsk.Matrix3D_create
      Scenario.gripper_group ""
    = Some (self', Some link)
    /\ Link.name link = "gripper_group_1"
    /\ links self' = <["gripper_group_1" := link]> ∅
    /\ joint_link_name self' (Some (Scenario.reference Scenario.gripper))
       = Some "gripper_group_1".
Proof.
  destruct (add_rigid_group_keeps Util.ascii_lower (init Scenario.robot)
              Adsk.Matrix3D_create Scenario.gripper_group "")
    as (self' & result & Hrun & _).
  destruct (add_rigid_group_records_link Util.ascii_lower (init Scenario.robot) self'
              Adsk.Matrix3D_create Scenario.gripper_group "" result
              ascii_lower_suffix eq_refl)
    as (Hocc & Hlink); [discriminate | discriminate | exact Hrun |].
  destruct Hlink as (link & -> & Hname & Hlinks).
  { cbn [links init]. rewrite dom_empty_L. apply not_elem_of_empty. }
  { apply lookup_empty. }
  { discriminate. }
  exists self', link. split; [exact Hrun|]. split; [exact Hname|].
  split; [exact Hlinks|].
  apply Hocc. left.
Defined.

Lemma traversal_only_adds_links_witness :
  exists self1 self2,
    parse_occurrence Util.ascii_lower (init Scenario.robot) Scenario.arm "" = Some self1
    /\ parse_occurrence Util.ascii_lower self1 Scenario.gripper "" = Some self2
    /\ links self1 ⊆ links self2
    /\ joints self2 = ∅
    /\ root_link self2 = None.
Proof.
  destruct (parse_occurrence_keeps Util.ascii_lower Scenario.arm (init Scenario.robot) "")
    as (self1 & Hrun1 & _).
  destruct (parse_occurrence_keeps Util.ascii_lower Scenario.gripper self1 "")
    as (self2 & Hrun2 & _).
  exists self1, self2. split; [exact Hrun1|]. split; [exact Hrun2|].
  destruct (proj1 (traversal_only_adds_links Util.ascii_lower) _ _ _ _ Hrun1)
    as (_ & Hj1 & _ & _ & Hr1).
  destruct (proj1 (traversal_only_adds_links Util.ascii_lower) _ _ _ _ Hrun2)
    as (Hl & Hj2 & _ & _ & Hr2).
  split; [exact Hl|]. split; [rewrite Hj2, Hj1; reflexivity|].
  rewrite Hr2, Hr1. reflexivity.
Defined.

End OnDesigns.


(** * The order of the joints *)

Section JointOrder.
Import SDF.
Local Open Scope string_scope.

Variable lower : string -> string.

Lemma for_each_app {A S : Type} (body : S -> A -> option S) (l1 l2 : list A) (s : S) :
  for_each body (l1 ++ l2) s
  = match for_each body l1 s with
    | Some s' => for_each body l2 s'
    | None => None
    end.
Proof.
  revert s. induction l1 as [|x l1 IH]; intros s; cbn [for_each app]; [reflexivity|].
  destruct (body s x); [apply IH | reflexivity].
Qed.

Lemma add_rigid_group_fusion_joints (self : SDF) (parent_pose : Adsk.Matrix3D)
  (rigid_group : Adsk.RigidGroup) (prefix : string) :
  exists self' result,
    add_rigid_group lower self parent_pose rigid_group prefix = Some (self', result)
    /\ fusion_joints self' = fusion_joints self.
Proof.
  unfold add_rigid_group.
  match goal with
  | |- context [add_link lower ?s ?o "" ?p] =>
      destruct (add_link_keeps lower s o "" p) as (self1 & result & Hrun & _ & _ & Hf & _)
  end.
  { intros p Hp. injection Hp as <-. apply transform2_to_pose_constructed. }
  rewrite Hrun.
  eexists _, _. split; [reflexivity|].
  match goal with
  | |- context [fold_left ?f ?l ?s] =>
      destruct (fold_rigid_group_table l
                  ((prefix ++ normalize_name lower (Adsk.group_name rigid_group)) ++ "_1") s)
        as (_ & _ & Hf2 & _)
  end.
  cbn [fusion_joints log]. rewrite Hf2. exact Hf.
Qed.

Lemma add_rigid_groups_fusion_joints (groups : list Adsk.RigidGroup)
  (parent_pose : Adsk.Matrix3D) (prefix : string) (self : SDF) (result : option Link.Link) :
  exists self' result',
    for_each
      (fun '(self, _) rigid_group =>
         add_rigid_group lower self parent_pose rigid_group prefix)
      groups (self, result) = Some (self', result')
    /\ fusion_joints self' = fusion_joints self.
Proof.
  revert self result. induction groups as [|g groups IH]; intros self result; cbn [for_each].
  - eexists _, _. split; reflexivity.
  - destruct (add_rigid_group_fusion_joints self parent_pose g prefix)
      as (self1 & result1 & Hrun & Hf1).
    rewrite Hrun.
    destruct (IH self1 result1) as (self2 & result2 & Hrest & Hf2).
    exists self2, result2. split; [exact Hrest | congruence].
Qed.

(** [parse_occurrence] appends to [fusion_joints] the entries of the
    occurrence, in the order of [deferred_joints]. *)
Lemma parse_occurrence_defers (occurrence : Adsk.Occurrence) :
  forall (self : SDF) (prefix : string),
  exists self',
    parse_occurrence lower self occurrence prefix = Some self'
    /\ fusion_joints self'
       = (fusion_joints self ++ deferred_joints lower occurrence prefix)%list.
Proof.
  induction occurrence as [oname oid transform2 bodies properties children groups js abs IH]
    using occurrence_nested_ind.
  intros self prefix. cbn [parse_occurrence deferred_joints].
  set (occurrence := Adsk.MkOccurrence oname oid transform2 bodies properties children
                       groups js abs).
  destruct (add_link_keeps lower (log self (LogParseOccurrence oname prefix)) occurrence
              prefix None)
    as (self1 & result1 & Hrun1 & _ & _ & Hf1 & _); [discriminate|].
  rewrite Hrun1.
  set (children_prefix := prefix ++ normalize_name lower oname ++ "__").
  destruct (add_rigid_groups_fusion_joints groups transform2 children_prefix self1 None)
    as (self2 & result2 & Hrun2 & Hf2).
  rewrite Hrun2.
  set (self3 := match result2 with
                | Some link => attributes_add self2 oid (Link.name link)
                | None => self2
                end).
  assert (Hf3 : fusion_joints self3 = fusion_joints self2)
    by (unfold self3; destruct result2; reflexivity).
  assert (Hloop : forall (l : list Adsk.Occurrence) (s : SDF),
             Forall (fun o => forall s p, exists s',
                         parse_occurrence lower s o p = Some s'
                         /\ fusion_joints s'
                            = (fusion_joints s ++ deferred_joints lower o p)%list) l ->
             exists s',
               (fix loop (l : list Adsk.Occurrence) (self : SDF) : option SDF :=
                  match l with
                  | [] => Some self
                  | suboccurrence :: l' =>
                      match parse_occurrence lower self suboccurrence children_prefix with
                      | Some self' => loop l' self'
                      | None => None
                      end
                  end) l s = Some s'
               /\ fusion_joints s'
                  = (fusion_joints s
                     ++ concat (map (fun o => deferred_joints lower o children_prefix) l))%list).
  { intros l. induction l as [|o l IHl]; intros s Hall.
    - exists s. split; [reflexivity|]. cbn [map concat]. rewrite app_nil_r. reflexivity.
    - inversion Hall as [|? ? Ho Hl]; subst.
      destruct (Ho s children_prefix) as (s1 & Hrun & Hf).
      rewrite Hrun.
      destruct (IHl s1 Hl) as (s2 & Hrest & Hf').
      exists s2. split; [exact Hrest|].
      cbn [map concat]. rewrite Hf', Hf, <- app_assoc. reflexivity. }
  destruct (Hloop children self3 IH) as (self4 & Hrun4 & Hf4).
  rewrite Hrun4.
  eexists. split; [reflexivity|].
  destruct (fold_fusion_joints js false children_prefix self4) as (_ & _ & Hf5 & _).
  set (self5 := fold_left _ js self4) in *.
  destruct (fold_fusion_joints abs true children_prefix self5) as (_ & _ & Hf6 & _).
  rewrite Hf6, Hf5, Hf4, Hf3, Hf2, Hf1. cbn [fusion_joints log].
  rewrite <- !app_assoc. reflexivity.
Qed.

Lemma parse_occurrences_defer (occurrences : list Adsk.Occurrence) (self : SDF) :
  exists self',
    for_each (fun self occurrence => parse_occurrence lower self occurrence "")
      occurrences self = Some self'
    /\ fusion_joints self'
       = (fusion_joints self
          ++ concat (map (fun o => deferred_joints lower o "") occurrences))%list
    /\ joints self' = joints self /\ root_link self' = root_link self.
Proof.
  revert self. induction occurrences as [|o occurrences IH]; intros self; cbn [for_each].
  - exists self. split; [reflexivity|]. cbn [map concat]. rewrite app_nil_r. repeat split.
  - destruct (parse_occurrence_defers o self "") as (s1 & Hrun & Hf).
    destruct (parse_occurrence_keeps lower o self "")
      as (s1' & Hrun' & ((_ & _ & Hr & _) & _) & Hj).
    rewrite Hrun in Hrun'. injection Hrun' as <-.
    rewrite Hrun.
    destruct (IH s1) as (s2 & Hrest & Hf' & Hj' & Hr').
    exists s2. split; [exact Hrest|].
    cbn [map concat]. rewrite Hf', Hf, <- app_assoc.
    split; [reflexivity|]. split; congruence.
Qed.

Lemma add_rigid_groups_root (groups : list Adsk.RigidGroup) (self : SDF) :
  exists self',
    for_each
      (fun self rigid_group =>
         match add_rigid_group lower self Adsk.Matrix3D_create rigid_group "" with
         | Some (self, _) => Some self
         | None => None
         end)
      groups self = Some self'
    /\ fusion_joints self' = fusion_joints self
    /\ joints self' = joints self /\ root_link self' = root_link self.
Proof.
  revert self. induction groups as [|g groups IH]; intros self; cbn [for_each].
  - exists self. repeat split.
  - destruct (add_rigid_group_fusion_joints self Adsk.Matrix3D_create g "")
      as (s1 & r1 & Hrun & Hf).
    destruct (add_rigid_group_keeps lower self Adsk.Matrix3D_create g "")
      as (s1' & r1' & Hrun' & ((_ & _ & Hr & _) & _) & Hj).
    rewrite Hrun in Hrun'. injection Hrun' as <- <-.
    rewrite Hrun.
    destruct (IH s1) as (s2 & Hrest & Hf' & Hj' & Hr').
    exists s2. split; [exact Hrest|]. repeat split; congruence.
Qed.

(** The build as two passes: the traversal (which returns here, where the
    arithmetic is exact), then the calls of [add_joint] on the entries of
    [design_joints]. *)
Lemma parse_components_order (design : Adsk.Design) :
  let root_component := Adsk.rootComponent design in
  let named :=
    log (set_name (init design)
           (Some (normalize_name lower (Adsk.comp_name root_component))))
        (LogParseRootComponent (Adsk.comp_name root_component)) in
  exists grouped traversed,
    for_each
      (fun self rigid_group =>
         match add_rigid_group lower self Adsk.Matrix3D_create rigid_group "" with
         | Some (self, _) => Some self
         | None => None
         end)
      (Adsk.comp_rigidGroups root_component) named = Some grouped
    /\ for_each (fun self occurrence => parse_occurrence lower self occurrence "")
         (Adsk.comp_occurrences root_component) grouped = Some traversed
    /\ joints traversed = ∅ /\ root_link traversed = None
    /\ parse_components lower (init design)
       = for_each (fun self '(fusion_joint, as_built, prefix) =>
                     add_joint lower self fusion_joint as_built prefix)
           (design_joints lower design) traversed.
Proof.
  intros root_component named.
  destruct (add_rigid_groups_root (Adsk.comp_rigidGroups root_component) named)
    as (grouped & Hgroups & Hf1 & Hj1 & Hr1).
  destruct (parse_occurrences_defer (Adsk.comp_occurrences root_component) grouped)
    as (traversed & Hocc & Hf2 & Hj2 & Hr2).
  exists grouped, traversed.
  split; [exact Hgroups|]. split; [exact Hocc|].
  split; [rewrite Hj2, Hj1; reflexivity|].
  split; [rewrite Hr2, Hr1; reflexivity|].
  unfold parse_components. cbn [SDF.design init set_name log].
  fold root_component. fold named. rewrite Hgroups, Hocc.
  unfold design_joints. fold root_component.
  rewrite for_each_app.
  rewrite (for_each_map (fun self '(j, b, p) => add_joint lower self j b p)
             (fun joint => (joint, false, ""))).
  destruct (for_each _ (map _ (Adsk.comp_joints root_component)) traversed)
    as [s1|] eqn:E1; [|reflexivity].
  rewrite for_each_app.
  rewrite (for_each_map (fun self '(j, b, p) => add_joint lower self j b p)
             (fun joint => (joint, true, ""))).
  destruct (for_each _ (map _ (Adsk.comp_asBuiltJoints root_component)) s1)
    as [s2|] eqn:E2; [|reflexivity].
  destruct (add_joints_keeps lower _ _ _ E1) as (_ & _ & Hf3 & _).
  destruct (add_joints_keeps lower _ _ _ E2) as (_ & _ & Hf4 & _).
  rewrite Hf4, Hf3, Hf2, Hf1. reflexivity.
Qed.

Variable first_of : gset string -> string.

(** X23.  The joints are resolved after the traversal, in a fixed order.
    Whenever [parse_occurrence] returns, it has only appended to
    [fusion_joints]: the entries of the occurrences below the occurrence
    come first, then its joints, then its as-built joints, each with the
    prefix of its component.  Whenever the traversal of the rigid groups
    and occurrences of the root component returns, it has stored no joint,
    and the build is one pass of [add_joint] over the joints of the root
    component, its as-built joints and the deferred entries, in this
    order, followed by the injection of [base_link]; a build that returns
    went through these steps. *)
Theorem joints_resolved_in_order :
  (forall (self self' : SDF) (occurrence : Adsk.Occurrence) (prefix : string),
     parse_occurrence lower self occurrence prefix = Some self' ->
     fusion_joints self'
     = (fusion_joints self ++ deferred_joints lower occurrence prefix)%list)
  /\ (forall (design : Adsk.Design) (grouped traversed : SDF),
        let root_component := Adsk.rootComponent design in
        let named :=
          log (set_name (init design)
                 (Some (normalize_name lower (Adsk.comp_name root_component))))
              (LogParseRootComponent (Adsk.comp_name root_component)) in
        for_each
          (fun self rigid_group =>
             match add_rigid_group lower self Adsk.Matrix3D_create rigid_group "" with
             | Some (self, _) => Some self
             | None => None
             end)
          (Adsk.comp_rigidGroups root_component) named = Some grouped ->
        for_each (fun self occurrence => parse_occurrence lower self occurrence "")
          (Adsk.comp_occurrences root_component) grouped = Some traversed ->
        joints traversed = ∅
        /\ new lower first_of design
           = match
               for_each (fun self '(fusion_joint, as_built, prefix) =>
                           add_joint lower self fusion_joint as_built prefix)
                 (design_joints lower design) traversed
             with
             | Some built => Some (add_base_link (select_root_link first_of built))
             | None => None
             end)
  /\ (forall (design : Adsk.Design) (sdf : SDF),
        let root_component := Adsk.rootComponent design in
        let named :=
          log (set_name (init design)
                 (Some (normalize_name lower (Adsk.comp_name root_component))))
              (LogParseRootComponent (Adsk.comp_name root_component)) in
        new lower first_of design = Some sdf ->
        exists grouped traversed built,
          for_each
            (fun self rigid_group =>
               match add_rigid_group lower self Adsk.Matrix3D_create rigid_group "" with
               | Some (self, _) => Some self
               | None => None
               end)
            (Adsk.comp_rigidGroups root_component) named = Some grouped
          /\ for_each (fun self occurrence => parse_occurrence lower self occurrence "")
               (Adsk.comp_occurrences root_component) grouped = Some traversed
          /\ for_each (fun self '(fusion_joint, as_built, prefix) =>
                         add_joint lower self fusion_joint as_built prefix)
               (design_joints lower design) traversed = Some built
          /\ sdf = add_base_link (select_root_link first_of built)).
Proof.
  split; [|split].
  - intros self self' occurrence prefix Hreturns.
    destruct (parse_occurrence_defers occurrence self prefix) as (self1 & Hrun & Hf).
    rewrite Hrun in Hreturns. injection Hreturns as <-. exact Hf.
  - intros design grouped traversed root_component named Hgrouped Htraversed.
    destruct (parse_components_order design)
      as (grouped1 & traversed1 & Hgroups & Hocc & Hj & _ & Hrun).
    fold root_component in Hgroups, Hocc. fold named in Hgroups.
    rewrite Hgrouped in Hgroups. injection Hgroups as <-.
    rewrite Htraversed in Hocc. injection Hocc as <-.
    split; [exact Hj|].
    unfold new, parse_root_component. rewrite Hrun. reflexivity.
  - intros design sdf root_component named Hnew.
    destruct (parse_components_order design)
      as (grouped & traversed & Hgroups & Hocc & _ & _ & Hrun).
    unfold new, parse_root_component in Hnew. rewrite Hrun in Hnew.
    destruct (for_each _ (design_joints lower design) traversed) as [built|] eqn:Ebuilt;
      [|discriminate].
    injection Hnew as <-.
    exists grouped, traversed, built.
    split; [exact Hgroups|]. split; [exact Hocc|]. split; [exact Ebuilt | reflexivity].
Qed.

(** X24.  Whenever a design without joints (none in the root component,
    none in the components of its occurrences) builds, the model holds the
    links of the traversal and [base_link], and the single joint
    [base_link_joint], fixed, from [base_link] to one of the links of the
    traversal, chosen by the iteration order of a set, or to no link when
    the traversal created none. *)
Theorem jointless_design_builds (design : Adsk.Design) (sdf : SDF) :
  design_joints lower design = [] ->
  new lower first_of design = Some sdf ->
  exists grouped traversed,
    for_each
      (fun self rigid_group =>
         match add_rigid_group lower self Adsk.Matrix3D_create rigid_group "" with
         | Some (self, _) => Some self
         | None => None
         end)
      (Adsk.comp_rigidGroups (Adsk.rootComponent design))
      (log (set_name (init design)
              (Some (normalize_name lower (Adsk.comp_name (Adsk.rootComponent design)))))
           (LogParseRootComponent (Adsk.comp_name (Adsk.rootComponent design))))
    = Some grouped
    /\ for_each (fun self occurrence => parse_occurrence lower self occurrence "")
         (Adsk.comp_occurrences (Adsk.rootComponent design)) grouped = Some traversed
    /\ links sdf = <["base_link" := base_link]> (links traversed)
    /\ joints sdf
       = {[ "base_link_joint" :=
              Joint.init "base_link_joint" Joint.FIXED None (Some "base_link")
                (if decide (dom (links traversed) = ∅) then None
                 else Some (first_of (dom (links traversed)))) ]}.
Proof.
  intros Hnone Hnew.
  destruct (parse_components_order design)
    as (grouped & traversed & Hgroups & Hocc & Hj & Hr & Hrun).
  rewrite Hnone in Hrun. cbn [for_each] in Hrun.
  unfold new, parse_root_component in Hnew. rewrite Hrun in Hnew.
  injection Hnew as <-.
  exists grouped, traversed.
  split; [exact Hgroups|]. split; [exact Hocc|].
  destruct (add_base_link_tables (select_root_link first_of traversed)) as (Hl & Hjs & _).
  destruct (select_root_link_tables first_of traversed) as (Hl0 & Hj0).
  split; [rewrite Hl, Hl0; reflexivity|].
  rewrite Hjs, Hj0, Hj.
  assert (Hroots : root_links traversed = dom (links traversed))
    by (apply root_links_no_joints; exact Hj).
  assert (Hroot : root_link (select_root_link first_of traversed)
                  = if decide (dom (links traversed) = ∅) then None
                    else Some (first_of (dom (links traversed)))).
  { destruct (decide (dom (links traversed) = ∅)) as [Hempty|Hne].
    - unfold select_root_link. rewrite Hroots, Hempty.
      rewrite decide_True by apply size_empty. exact Hr.
    - rewrite select_root_link_some by (rewrite Hroots; exact Hne).
      rewrite Hroots. reflexivity. }
  rewrite Hroot. reflexivity.
Qed.

End JointOrder.

Section JointOrderOnDesigns.
Import SDF.
Local Open Scope string_scope.

Lemma single_arm_builds :
  exists sdf, new Util.ascii_lower first_element Scenario.single_arm = Some sdf.
Proof.
  destruct (parse_components_order Util.ascii_lower Scenario.single_arm)
    as (grouped & traversed & _ & _ & _ & _ & Hrun).
  assert (Hnone : design_joints Util.ascii_lower Scenario.single_arm = []) by reflexivity.
  rewrite Hnone in Hrun.
  cbn [for_each] in Hrun.
  eexists. unfold new, parse_root_component. rewrite Hrun. reflexivity.
Qed.

Lemma jointless_design_builds_witness :
  design_joints Util.ascii_lower Scenario.single_arm = []
  /\ exists sdf,
      new Util.ascii_lower first_element Scenario.single_arm = Some sdf
      /\ dom (joints sdf) = {["base_link_joint"]}.
Proof.
  assert (Hnone : design_joints Util.ascii_lower Scenario.single_arm = []) by reflexivity.
  split; [exact Hnone|].
  destruct single_arm_builds as (sdf & Hnew).
  destruct (jointless_design_builds Util.ascii_lower first_element Scenario.single_arm sdf
              Hnone Hnew)
    as (grouped & traversed & _ & _ & _ & Hjoints).
  exists sdf. split; [exact Hnew|].
  rewrite Hjoints. apply dom_singleton_L.
Defined.

Lemma joints_resolved_in_order_witness :
  exists self',
    parse_occurrence Util.ascii_lower (init Scenario.robot) Scenario.hand "" = Some self'
    /\ fusion_joints self'
       = [(Scenario.rev2, false, "hand_1__"); (Scenario.slide1, true, "hand_1__")].
Proof.
  destruct (parse_occurrence_defers Util.ascii_lower Scenario.hand (init Scenario.robot) "")
    as (self' & Hrun & _).
  exists self'. split; [exact Hrun|].
  exact (proj1 (joints_resolved_in_order Util.ascii_lower first_element) _ _ _ _ Hrun).
Defined.

End JointOrderOnDesigns.


(** * The elements of a link *)

Section LinkElements.
Import SDF.
Local Open Scope string_scope.

Variable lower : string -> string.

(** One round of the loop over the bodies. *)
Lemma add_link_body_elements (rigid_group_pose : option Pose.Pose) (self self' : SDF)
  (link link' : Link.Link) (body : Adsk.BRepBody) :
  add_link_body lower rigid_group_pose (self, link) body = Some (self', link') ->
  design self' = design self
  /\ Link.name link' = Link.name link /\ Link.pose link' = Link.pose link
  /\ Link.inertial link' = Link.inertial link
  /\ Link.visuals link'
     = <[visual_name lower (Link.name link) body
         := mesh_visual (visual_name lower (Link.name link) body) rigid_group_pose]>
         (Link.visuals link)
  /\ exists collision,
      Link.collisions link'
      = <[collision_name lower (Link.name link) body := collision]> (Link.collisions link)
      /\ collision_of lower (design self) (Link.name link) rigid_group_pose body collision.
Proof.
  unfold add_link_body, collision_of.
  fold (visual_name lower (Link.name link) body).
  cbn [Link.name Link.pose Link.visuals Link.collisions Link.inertial design log
       Link.element_pose Link.geometry].
  fold (collision_name lower (Link.name link) body).
  destruct (user_flag (design self) (collision_name lower (Link.name link) body ++ "_USE_MESH")).
  - intros H. injection H as <- <-. cbn.
    repeat (split; [reflexivity|]).
    eexists. split; [reflexivity|]. repeat split.
  - destruct rigid_group_pose as [group_pose|].
    + destruct (Pose.mul group_pose _) as [collision_pose|]; [|discriminate].
      intros H. injection H as <- <-. cbn.
      repeat (split; [reflexivity|]).
      eexists. split; [reflexivity|]. cbn.
      split; [reflexivity|]. split; [reflexivity|]. split; [eauto|].
      split; [discriminate | reflexivity].
    + intros H. injection H as <- <-. cbn.
      repeat (split; [reflexivity|]).
      eexists. split; [reflexivity|]. cbn.
      split; [reflexivity|]. split; [reflexivity|]. split; [eauto|].
      split; reflexivity.
Qed.

Lemma for_each_snoc {A S : Type} (body : S -> A -> option S) (l : list A) (x : A) (s : S) :
  for_each body (l ++ [x]) s
  = match for_each body l s with
    | Some s' => body s' x
    | None => None
    end.
Proof.
  rewrite for_each_app. destruct (for_each body l s) as [s'|]; [|reflexivity].
  cbn [for_each]. destruct (body s' x); reflexivity.
Qed.

(** The loop over the bodies, from a link without elements. *)
Lemma add_link_bodies_elements (rigid_group_pose : option Pose.Pose) (self : SDF)
  (link_name : string) (link_pose : option Pose.Pose) (bodies : list Adsk.BRepBody) :
  forall (self' : SDF) (link' : Link.Link),
  for_each (add_link_body lower rigid_group_pose) bodies
    (self, Link.Build link_name link_pose ∅ ∅ None) = Some (self', link') ->
  design self' = design self
  /\ Link.name link' = link_name /\ Link.pose link' = link_pose
  /\ Link.inertial link' = None
  /\ (forall k v,
        Link.visuals link' !! k = Some v
        <-> (exists body, body ∈ bodies /\ k = visual_name lower link_name body)
            /\ v = mesh_visual k rigid_group_pose)
  /\ (forall k,
        k ∈ dom (Link.collisions link')
        <-> exists body, body ∈ bodies /\ k = collision_name lower link_name body)
  /\ (forall k c,
        Link.collisions link' !! k = Some c ->
        exists body,
          body ∈ bodies /\ k = collision_name lower link_name body
          /\ collision_of lower (design self) link_name rigid_group_pose body c).
Proof.
  induction bodies as [|body bodies IH] using rev_ind; intros self' link' Hrun.
  - cbn [for_each] in Hrun. injection Hrun as <- <-.
    cbn [Link.name Link.pose Link.visuals Link.collisions Link.inertial].
    repeat (split; [reflexivity|]). split; [|split].
    + intros k v. rewrite lookup_empty. split; [discriminate|].
      intros [(body & Hin & _) _]. apply elem_of_nil in Hin. contradiction.
    + intros k. rewrite dom_empty. split.
      * intros H. exfalso. exact (not_elem_of_empty _ H).
      * intros (body & Hin & _). apply elem_of_nil in Hin. contradiction.
    + intros k c. rewrite lookup_empty. discriminate.
  - rewrite for_each_snoc in Hrun.
    destruct (for_each _ bodies _) as [[self1 link1]|] eqn:Ebodies; [|discriminate].
    destruct (IH self1 link1 eq_refl) as (Hd & Hn & Hp & Hi & Hvis & Hdom & Hcol).
    destruct (add_link_body_elements _ _ _ _ _ _ Hrun)
      as (Hd' & Hn' & Hp' & Hi' & Hvis' & collision & Hcol' & Hc).
    rewrite Hn in Hvis', Hcol', Hc. rewrite Hd in Hc.
    split; [congruence|]. split; [congruence|]. split; [congruence|].
    split; [congruence|]. split; [|split].
    + intros k v. rewrite Hvis', lookup_insert_Some, Hvis. split.
      * intros [[<- <-]|[Hne [(b & Hb & ->) ->]]].
        -- split; [|reflexivity]. exists body. split; [|reflexivity].
           apply elem_of_app. right. apply list_elem_of_singleton. reflexivity.
        -- split; [|reflexivity]. exists b. split; [|reflexivity].
           apply elem_of_app. left. exact Hb.
      * intros [(b & Hb & ->) ->].
        destruct (decide (visual_name lower link_name body = visual_name lower link_name b))
          as [Heq|Hne].
        -- left. rewrite Heq. split; reflexivity.
        -- right. split; [exact Hne|]. split; [|reflexivity].
           apply elem_of_app in Hb. destruct Hb as [Hb|Hb]; [eauto|].
           apply list_elem_of_singleton in Hb. subst b. contradiction.
    + intros k. rewrite Hcol', dom_insert, elem_of_union, elem_of_singleton, Hdom. split.
      * intros [->|(b & Hb & ->)].
        -- exists body. split; [|reflexivity].
           apply elem_of_app. right. apply list_elem_of_singleton. reflexivity.
        -- exists b. split; [|reflexivity]. apply elem_of_app. left. exact Hb.
      * intros (b & Hb & ->).
        apply elem_of_app in Hb. destruct Hb as [Hb|Hb]; [right; eauto|].
        apply list_elem_of_singleton in Hb. subst b. left. reflexivity.
    + intros k c. rewrite Hcol', lookup_insert_Some.
      intros [[<- <-]|[_ Hk]].
      * exists body. split; [|split; [reflexivity | exact Hc]].
        apply elem_of_app. right. apply list_elem_of_singleton. reflexivity.
      * destruct (Hcol k c Hk) as (b & Hb & -> & Hcb).
        exists b. split; [|split; [reflexivity | exact Hcb]].
        apply elem_of_app. left. exact Hb.
Qed.

Lemma link_inertial_fields (self self' : SDF) (link : Link.Link) (link_pose : Pose.Pose)
  (rigid_group_pose : option Pose.Pose) (properties : Adsk.PhysicalProperties)
  (inertial : Link.LinkInertial) :
  link_inertial self link link_pose rigid_group_pose properties = Some (self', inertial) ->
  Link.mass inertial = Adsk.mass properties
  /\ Pose.relative_to (Link.inertial_pose inertial) = None.
Proof.
  unfold link_inertial.
  destruct (Adsk.centerOfMass properties) as [[cx cy] cz].
  destruct (Adsk.moments properties) as [[[[[xx yy] zz] xy] yz] xz].
  destruct (Adsk.inertia_valid properties);
    cbn [Util.world_inertia_to_com_inertia Util.cm_to_m_vec map combine];
    (destruct (Pose.inverse link_pose) as [inverse_pose|]; [|discriminate]);
    match goal with
    | |- context [match ?m with Some _ => _ | None => None end] =>
        destruct m as [p|] eqn:Ep; [|discriminate]
    end;
    intros H; injection H as _ <-; split; reflexivity.
Qed.

(** X25.  A link that [add_link] creates has the name
    [prefix + normalize_name(occurrence.name)], the pose of the rigid group
    or of the occurrence, and an inertial with the mass of the occurrence
    whose pose has no [relative_to].  Its visuals are exactly one mesh per
    body name, stored under [<link>__<body>_visual] with the uri
    [meshes/<name_to_path(name)>.obj]; its collisions are stored under
    [<link>__<body>_collision], and each one is the mesh of the visual when
    the user parameter [<name>_USE_MESH] is set and otherwise the oriented
    bounding box of a body of that name, in metres.  Bodies whose names
    normalise to the same string share one visual and one collision. *)
Theorem add_link_elements (self self' : SDF) (occurrence : Adsk.Occurrence)
  (prefix : string) (rigid_group_pose : option Pose.Pose) (link : Link.Link) :
  add_link lower self occurrence prefix rigid_group_pose = Some (self', Some link) ->
  let link_name := prefix ++ normalize_name lower (Adsk.name occurrence) in
  let bodies := Adsk.bRepBodies occurrence in
  Link.name link = link_name
  /\ Link.pose link
     = Some (match rigid_group_pose with
             | Some group_pose => group_pose
             | None => Util.transform2_to_pose (Adsk.transform2 occurrence)
             end)
  /\ (forall k v,
        Link.visuals link !! k = Some v
        <-> (exists body, body ∈ bodies /\ k = visual_name lower link_name body)
            /\ v = mesh_visual k rigid_group_pose)
  /\ (forall k,
        k ∈ dom (Link.collisions link)
        <-> exists body, body ∈ bodies /\ k = collision_name lower link_name body)
  /\ (forall k c,
        Link.collisions link !! k = Some c ->
        exists body,
          body ∈ bodies /\ k = collision_name lower link_name body
          /\ collision_of lower (design self) link_name rigid_group_pose body c)
  /\ (exists inertial,
        Link.inertial link = Some inertial
        /\ Link.mass inertial = Adsk.mass (Adsk.physicalProperties occurrence)
        /\ Pose.relative_to (Link.inertial_pose inertial) = None).
Proof.
  intros Hrun link_name bodies. unfold add_link in Hrun. fold link_name in Hrun.
  destruct (decide _); [discriminate|].
  destruct (occurrences_in_rigid_groups _ !! _); [discriminate|].
  destruct (Adsk.bRepBodies occurrence) as [|body0 rest] eqn:Ebodies; [discriminate|].
  set (link_pose := match rigid_group_pose with
                    | Some group_pose => group_pose
                    | None => Util.transform2_to_pose (Adsk.transform2 occurrence)
                    end) in *.
  match type of Hrun with
  | context [for_each ?f ?l ?s] =>
      destruct (for_each f l s) as [[self1 link1]|] eqn:Eloop; [|discriminate]
  end.
  destruct (link_inertial self1 link1 link_pose rigid_group_pose
              (Adsk.physicalProperties occurrence)) as [[self2 inertial]|] eqn:Einertial;
    [|discriminate].
  injection Hrun as <- <-.
  destruct (add_link_bodies_elements _ _ _ _ _ _ _ Eloop)
    as (Hd & Hn & Hp & Hi & Hvis & Hdom & Hcol).
  destruct (link_inertial_fields _ _ _ _ _ _ _ Einertial) as (Hmass & Hrel).
  cbn [Link.name Link.pose Link.visuals Link.collisions Link.inertial links set_links].
  cbn [design attributes_add set_attributes log] in Hcol.
  unfold bodies. 
  split; [exact Hn|]. split; [exact Hp|]. split; [exact Hvis|]. split; [exact Hdom|].
  split; [exact Hcol|]. eauto.
Qed.

End LinkElements.

(** * The joints other than revolute *)

Section JointKinds.
Import SDF.
Local Open Scope string_scope.

Variable lower : string -> string.

(** X26.  A joint whose name is new and whose occurrences resolve is stored
    under its name.  A slider joint becomes prismatic, with the slide
    direction as axis and both limits, converted from cm to m, whether or
    not the bounds are enabled in the CAD; a rigid joint and every joint of
    an unsupported type (cylindrical, pin-slot, planar, ball) becomes fixed,
    without axis and without limits.  The user parameter
    [<joint>_SWAP_PARENT_CHILD] exchanges parent and child and negates the
    axis.  The pose is the joint origin in metres, without rotation,
    relative to [__model__], and is absent when the joint has no origin. *)
Theorem add_joint_stored (self : SDF) (fusion_joint : Adsk.Joint) (as_built : bool)
  (prefix parent child : string) :
  let joint_name := prefix ++ normalize_name lower (Adsk.joint_name fusion_joint) in
  joint_name ∉ dom (joints self) ->
  joint_link_name self (Adsk.occurrenceTwo fusion_joint) = Some parent ->
  joint_link_name self (Adsk.occurrenceOne fusion_joint) = Some child ->
  exists self' joint,
    add_joint lower self fusion_joint as_built prefix = Some self'
    /\ joints self' = <[joint_name := joint]> (joints self)
    /\ links self' = links self
    /\ Joint.name joint = joint_name
    /\ Joint.pose joint
       = match Adsk.geometry_origin fusion_joint with
         | Some origin =>
             Some (Pose.init (Util.cm_to_m_vec origin) (0, 0, 0)%R (Some "__model__"))
         | None => None
         end
    /\ (let swap := user_flag (design self) (joint_name ++ "_SWAP_PARENT_CHILD") in
        Joint.parent joint = Some (if swap then child else parent)
        /\ Joint.child joint = Some (if swap then parent else child)
        /\ match Adsk.jointMotion fusion_joint with
           | Adsk.SliderJointMotion direction limits =>
               Joint.joint_type joint = Joint.PRISMATIC
               /\ Joint.axis_xyz joint
                  = Some (if swap
                          then (let '(x, y, z) := direction in (- x, - y, - z)%R)
                          else direction)
               /\ Joint.lower_limit joint = Some (Util.cm_to_m (Adsk.minimumValue limits))
               /\ Joint.upper_limit joint = Some (Util.cm_to_m (Adsk.maximumValue limits))
           | Adsk.RevoluteJointMotion _ _ =>
               Joint.joint_type joint = Joint.REVOLUTE
               \/ Joint.joint_type joint = Joint.CONTINUOUS
           | _ =>
               Joint.joint_type joint = Joint.FIXED
               /\ Joint.axis_xyz joint = None
               /\ Joint.lower_limit joint = None
               /\ Joint.upper_limit joint = None
           end).
Proof.
  intros joint_name Hfresh Hparent Hchild.
  unfold add_joint. fold joint_name. cbn [joints log].
  destruct (decide (joint_name ∈ dom (joints self))) as [Hin|_]; [contradiction|].
  unfold joint_link_name in *.
  destruct (Adsk.jointMotion fusion_joint) as [|axis limits|axis limits| | | |];
    cbn [Adsk.jointType Adsk.rotationAxisVector Adsk.rotationLimits
         Adsk.slideDirectionVector Adsk.slideLimits
         occurrences_in_rigid_groups attributes log design];
    try (destruct (Adsk.isMinimumValueEnabled limits || Adsk.isMaximumValueEnabled limits));
    rewrite Hparent, Hchild;
    try destruct axis as [[x y] z];
    destruct (user_flag (design self) (joint_name ++ "_SWAP_PARENT_CHILD"));
    eexists _, _; (split; [reflexivity|]);
    cbn [joints links set_joints log Joint.name Joint.axis_xyz Joint.parent Joint.child
         Joint.joint_type Joint.lower_limit Joint.upper_limit Joint.pose];
    repeat split; auto.
Qed.

End JointKinds.

(** * The theorems on a design *)

Section LinksAndJointsOnDesigns.
Import SDF.
Local Open Scope string_scope.

Lemma add_link_elements_witness :
  exists self' link,
    add_link Util.ascii_lower (init Scenario.robot) Scenario.arm "" None
    = Some (self', Some link)
    /\ Link.name link = "arm_1"
    /\ Link.visuals link !! "arm_1__body1_visual"
       = Some (mesh_visual "arm_1__body1_visual" None)
    /\ dom (Link.collisions link) = {["arm_1__body1_collision"]}.
Proof.
  destruct (add_link_spec Util.ascii_lower (init Scenario.robot) Scenario.arm "" None)
    as (self' & result & Hrun & _ & Hcases); [discriminate|].
  destruct Hcases as [(Hin & _)|[(_ & g & Hg & _)|[(_ & _ & He & _)
                     |(_ & _ & _ & link & -> & _)]]].
  - exfalso. cbn [links init] in Hin. rewrite dom_empty_L in Hin.
    exact (not_elem_of_empty _ Hin).
  - cbn [occurrences_in_rigid_groups init] in Hg. rewrite lookup_empty in Hg. discriminate.
  - discriminate.
  - destruct (add_link_elements Util.ascii_lower _ _ _ _ _ _ Hrun)
      as (Hname & _ & Hvis & Hdom & _).
    exists self', link. split; [exact Hrun|]. split; [exact Hname|]. split.
    + apply Hvis. split; [|reflexivity].
      exists Scenario.body. split; [left | reflexivity].
    + apply set_eq. intros k. rewrite Hdom, elem_of_singleton. split.
      * intros (body & Hbody & ->).
        apply list_elem_of_singleton in Hbody. subst body. reflexivity.
      * intros ->. exists Scenario.body. split; [left | reflexivity].
Defined.

Lemma add_joint_stored_witness :
  ("slide1" ∉ dom (joints Scenario.before_joints))
  /\ joint_link_name Scenario.before_joints (Adsk.occurrenceTwo Scenario.slide1)
     = Some "arm_1"
  /\ joint_link_name Scenario.before_joints (Adsk.occurrenceOne Scenario.slide1)
     = Some "frame_1"
  /\ exists self' joint,
      add_joint Util.ascii_lower Scenario.before_joints Scenario.slide1 false ""
      = Some self'
      /\ joints self' = <["slide1" := joint]> (joints Scenario.before_joints)
      /\ Joint.joint_type joint = Joint.PRISMATIC
      /\ Joint.axis_xyz joint = Some (1, 0, 0)%R
      /\ Joint.parent joint = Some "arm_1"
      /\ Joint.child joint = Some "frame_1"
      /\ Joint.lower_limit joint = Some (Util.cm_to_m (-5))
      /\ Joint.upper_limit joint = Some (Util.cm_to_m 20).
Proof.
  assert (Hfresh : "slide1" ∉ dom (joints Scenario.before_joints)).
  { cbn [joints Scenario.before_joints]. rewrite dom_empty_L. apply not_elem_of_empty. }
  assert (Hparent : joint_link_name Scenario.before_joints
                      (Adsk.occurrenceTwo Scenario.slide1) = Some "arm_1")
    by reflexivity.
  assert (Hchild : joint_link_name Scenario.before_joints
                     (Adsk.occurrenceOne Scenario.slide1) = Some "frame_1")
    by reflexivity.
  split; [exact Hfresh|]. split; [exact Hparent|]. split; [exact Hchild|].
  destruct (add_joint_stored Util.ascii_lower Scenario.before_joints Scenario.slide1
              false "" "arm_1" "frame_1" Hfresh Hparent Hchild)
    as (self' & joint & Hadd & Hjoints & _ & _ & _ & Hp & Hc & Htype & Haxis & Hlo & Hhi).
  exists self', joint. repeat split; assumption.
Defined.

End LinksAndJointsOnDesigns.


(** * The kinematic tree of a build *)

Section FlatDesigns.
Import SDF.
Local Open Scope string_scope.

Variable lower : string -> string.









Variable first_of : gset string -> string.


End FlatDesigns.

(** * The tree of a design with two links *)

Section TwoLinks.
Import SDF.
Local Open Scope string_scope.




End TwoLinks.

